(** * Tabular Q-learning agent ([tabular_qlearner.py]) in Rocq

    A shallow embedding of the [QLearner] class and of the helpers it
    calls, followed by the properties of the agent that the
    specification states.

    Modelling conventions.
    - Python floats are exact rationals ([Qc], canonical fractions, so
      that equal numbers are equal terms); rounding is outside the model.
    - Python exceptions are values of [exn]; a method of the agent is a
      function from the agent's state to an outcome and the state the
      call leaves behind (mutations made before a [raise] persist).
    - [collections.defaultdict] is a finite map together with the
      get-or-insert behaviour of [__getitem__].
    - The two uses of [np.random] inside [_epsilon_greedy] take their
      uniform draws as explicit arguments.
    - [str] of a list is written out; Python's [repr] of a float, which
      it applies to the entries, is the parameter [float_repr].
    - The exploration schedule is any instance of [ValueSchedule], the
      interface of [rl_tools].
    - NumPy's [int] is the 64-bit integer; the observation vectors are
      Python lists of floats, so their conversion to an integer array
      goes through [int(x)] and raises [OverflowError] outside the
      64-bit range. *)

From Stdlib Require Import QArith Qcanon Qround Ascii String.
From stdpp Require Import base numbers option list strings pretty gmap fin_maps.

Set Default Proof Using "Type".

(** ** Exceptions and fallible results *)

Inductive exn : Type :=
| ZeroDivisionError
| ValueError
| IndexError
| TypeError
| OverflowError.

Definition result (A : Type) : Type := (exn + A)%type.

Definition rbind {A B} (r : result A) (k : A -> result B) : result B :=
  match r with
  | inl e => inl e
  | inr a => k a
  end.

Notation "'let?' x ':=' r 'in' k" := (rbind r (fun x => k))
  (at level 10, x pattern, r at level 100, k at level 200).

Fixpoint rmap {A B} (f : A -> result B) (l : list A) : result (list B) :=
  match l with
  | [] => inr []
  | x :: l' =>
      let? y := f x in
      let? ys := rmap f l' in
      inr (y :: ys)
  end.

(** ** Python and NumPy primitives used by the agent *)

(** [l[i]] on a Python list: negative indices count from the end, an
    index outside [-len, len) raises [IndexError]. *)
Definition norm_index (n : nat) (i : Z) : result nat :=
  let j := if (i <? 0)%Z then (i + Z.of_nat n)%Z else i in
  if ((0 <=? j)%Z && (j <? Z.of_nat n)%Z)%bool then inr (Z.to_nat j)
  else inl IndexError.

Definition py_index {A} (l : list A) (i : Z) : result A :=
  let? j := norm_index (length l) i in
  match l !! j with
  | Some x => inr x
  | None => inl IndexError
  end.

(** [l[a:b]] and [l[a:]] for non-negative constant bounds. *)
Definition py_slice {A} (l : list A) (a b : nat) : list A :=
  take (b - a) (drop a l).

Definition py_slice_from {A} (l : list A) (a : nat) : list A :=
  drop a l.

(** [sum(l)]: left fold starting from [0]. *)
Definition py_sum (l : list Qc) : Qc :=
  fold_left Qcplus l (Q2Qc 0).

(** [max(l)]: the first maximal element, [ValueError] on the empty list. *)
Definition py_max (l : list Qc) : result Qc :=
  match l with
  | [] => inl ValueError
  | x :: l' =>
      inr (fold_left (fun m y => if decide (m < y)%Qc then y else m) l' x)
  end.

(** [1 / n] for a Python int [n]. *)
Definition py_inv (n : nat) : result Qc :=
  match n with
  | O => inl ZeroDivisionError
  | S _ => inr (/ Q2Qc (inject_Z (Z.of_nat n)))%Qc
  end.

(** [np.zeros(n)]. *)
Definition np_zeros (n : Z) : result (list Qc) :=
  if (n <? 0)%Z then inl ValueError
  else inr (replicate (Z.to_nat n) (Q2Qc 0)).

(** [p[i] = v] for an integer index [i]. *)
Definition np_set (p : list Qc) (i : Z) (v : Qc) : result (list Qc) :=
  let? j := norm_index (length p) i in
  inr (<[j := v]> p).

(** [p[idx] = v] for a list of indices [idx]. *)
Fixpoint np_set_many (p : list Qc) (idx : list Z) (v : Qc) : result (list Qc) :=
  match idx with
  | [] => inr p
  | i :: idx' =>
      let? p' := np_set p i v in
      np_set_many p' idx' v
  end.

(** [np.argmax(l)]: index of the first maximal entry. *)
Fixpoint argmax_from (best : Qc) (best_i i : nat) (l : list Qc) : nat :=
  match l with
  | [] => best_i
  | x :: l' =>
      if decide (best < x)%Qc then argmax_from x i (S i) l'
      else argmax_from best best_i (S i) l'
  end.

Definition np_argmax (l : list Qc) : result nat :=
  match l with
  | [] => inl ValueError
  | x :: l' => inr (argmax_from x 0 1 l')
  end.

(** [np.cumsum(p)]. *)
Fixpoint cumsum_from (acc : Qc) (p : list Qc) : list Qc :=
  match p with
  | [] => []
  | x :: p' => (acc + x)%Qc :: cumsum_from (acc + x)%Qc p'
  end.

Definition np_cumsum (p : list Qc) : list Qc := cumsum_from (Q2Qc 0) p.

(** [cdf.searchsorted(u, side='right')] on a non-decreasing [cdf]: the
    length of the longest prefix whose entries are all [<= u]. *)
Fixpoint searchsorted_right (cdf : list Qc) (u : Qc) : nat :=
  match cdf with
  | [] => O
  | c :: cdf' =>
      if decide (c <= u)%Qc then S (searchsorted_right cdf' u) else O
  end.

(** [np.random.choice(range(n), p=p)] with the uniform sample [u] that
    the generator draws: NumPy rejects an empty population, a [p] of
    the wrong length, a negative probability and a [p] that does not
    sum to one; otherwise it inverts the cumulative distribution. *)
Definition np_random_choice (n : Z) (p : list Qc) (u : Qc) : result Z :=
  if (n <=? 0)%Z then inl ValueError
  else if negb (Z.of_nat (length p) =? n)%Z then inl ValueError
  else if existsb (fun x => bool_decide (x < Q2Qc 0)%Qc) p then inl ValueError
  else if negb (bool_decide (py_sum p = Q2Qc 1)) then inl ValueError
  else inr (Z.of_nat (searchsorted_right (np_cumsum p) u)).

(** Python's [int(x)] on a float: truncation towards zero. *)
Definition py_trunc (q : Qc) : Z :=
  if decide (q < Q2Qc 0)%Qc then Qceiling q else Qfloor q.

(** [np.array(v, dtype=int)] on one entry of a list of floats: the
    entry is truncated towards zero and stored as a 64-bit integer
    (NumPy's [int] where a C long has 64 bits); an integer outside
    [-2^63, 2^63) raises [OverflowError]. *)
Definition float_to_int (q : Qc) : result Z :=
  let z := py_trunc q in
  if ((- 2 ^ 63 <=? z)%Z && (z <? 2 ^ 63)%Z)%bool then inr z
  else inl OverflowError.

(** ** The environment's time step *)

Record Observations : Type := {
  info_state : list (list Qc);
  legal_actions : list (list Z);
  current_player : Z;
}.

Inductive StepType : Type := FIRST | MID | LAST.

Record TimeStep : Type := {
  observations : Observations;
  rewards : option (list Qc);
  discounts : option (list Qc);
  step_type : StepType;
}.

Definition last (time_step : TimeStep) : bool :=
  match step_type time_step with
  | LAST => true
  | _ => false
  end.

(** ** Exploration schedules ([rl_tools.ValueSchedule])

    [sched_value] is the [value] property; [sched_step] is [step()],
    which may change the schedule and returns the value after the
    change. *)

Class ValueSchedule (S : Type) : Type := {
  sched_value : S -> Qc;
  sched_step : S -> Qc * S;
}.

Record ConstantSchedule : Type := { _value : Qc }.

#[global] Instance ConstantSchedule_schedule : ValueSchedule ConstantSchedule := {
  sched_value s := _value s;
  sched_step s := (_value s, s);
}.

(** ** Reward rules

    A rule takes the integer board and returns a bonus; like any Python
    callable it may raise. *)

Definition rule : Type := list Z -> result Qc.

Definition flat_reward_mask : list Z := [0; 1; 0; 1; 0; 1; 0; 0; 0]%Z.

(** [likeable_pattern] of [tic_tac_toe_qlearner.py]: the loop over
    [range(9)] returns [0] at the first cell that differs from the mask
    and raises [IndexError] when the board ends before that. *)
Fixpoint likeable_pattern_loop (range : list nat) (board : list Z) : result Qc :=
  match range with
  | [] => inr (Q2Qc 1000)
  | i :: range' =>
      let? b := py_index board (Z.of_nat i) in
      let? m := py_index flat_reward_mask (Z.of_nat i) in
      if negb (b =? m)%Z then inr (Q2Qc 0)
      else likeable_pattern_loop range' board
  end.

Definition likeable_pattern : rule := likeable_pattern_loop (seq 0 9).

(** ** The agent *)

(** Keys of the inner dictionaries: [_prev_action] is used as a key, and
    it is [None] after a training call at a terminal step that found no
    pending transition. *)
Definition action_key : Type := option Z.

Record StepOutput : Type := {
  action : option Z;
  probs : option (list Qc);
}.

Section Agent.

(** The schedule class of the agent's [epsilon_schedule]. *)
Context {S : Type} `{ValueSchedule S}.

(** Python's [repr] of a float, which [str] of a list applies to each
    entry. *)
Variable float_repr : Qc -> string.

Record QLearner : Type := {
  _player_id : Z;
  _num_actions : Z;
  _step_size : Qc;
  _epsilon_schedule : S;
  _epsilon : Qc;
  _discount_factor : Qc;
  _centralized : bool;
  _q_values : gmap string (gmap action_key Qc);
  _prev_info_state : option string;
  _last_loss_value : option Qc;
  _prev_action : option Z;
  _rules : option (list rule);
}.

Definition set_q_values (q : gmap string (gmap action_key Qc)) (self : QLearner) : QLearner :=
  {| _player_id := _player_id self; _num_actions := _num_actions self;
     _step_size := _step_size self; _epsilon_schedule := _epsilon_schedule self;
     _epsilon := _epsilon self; _discount_factor := _discount_factor self;
     _centralized := _centralized self; _q_values := q;
     _prev_info_state := _prev_info_state self;
     _last_loss_value := _last_loss_value self;
     _prev_action := _prev_action self; _rules := _rules self |}.

Definition set_prev_info_state (k : option string) (self : QLearner) : QLearner :=
  {| _player_id := _player_id self; _num_actions := _num_actions self;
     _step_size := _step_size self; _epsilon_schedule := _epsilon_schedule self;
     _epsilon := _epsilon self; _discount_factor := _discount_factor self;
     _centralized := _centralized self; _q_values := _q_values self;
     _prev_info_state := k;
     _last_loss_value := _last_loss_value self;
     _prev_action := _prev_action self; _rules := _rules self |}.

Definition set_prev_action (a : option Z) (self : QLearner) : QLearner :=
  {| _player_id := _player_id self; _num_actions := _num_actions self;
     _step_size := _step_size self; _epsilon_schedule := _epsilon_schedule self;
     _epsilon := _epsilon self; _discount_factor := _discount_factor self;
     _centralized := _centralized self; _q_values := _q_values self;
     _prev_info_state := _prev_info_state self;
     _last_loss_value := _last_loss_value self;
     _prev_action := a; _rules := _rules self |}.

Definition set_last_loss_value (v : option Qc) (self : QLearner) : QLearner :=
  {| _player_id := _player_id self; _num_actions := _num_actions self;
     _step_size := _step_size self; _epsilon_schedule := _epsilon_schedule self;
     _epsilon := _epsilon self; _discount_factor := _discount_factor self;
     _centralized := _centralized self; _q_values := _q_values self;
     _prev_info_state := _prev_info_state self;
     _last_loss_value := v;
     _prev_action := _prev_action self; _rules := _rules self |}.

Definition set_epsilon (e : Qc) (sched : S) (self : QLearner) : QLearner :=
  {| _player_id := _player_id self; _num_actions := _num_actions self;
     _step_size := _step_size self; _epsilon_schedule := sched;
     _epsilon := e; _discount_factor := _discount_factor self;
     _centralized := _centralized self; _q_values := _q_values self;
     _prev_info_state := _prev_info_state self;
     _last_loss_value := _last_loss_value self;
     _prev_action := _prev_action self; _rules := _rules self |}.

(** *** Methods as state transformers that may raise *)

Definition M (A : Type) : Type := QLearner -> result A * QLearner.

Definition ret {A} (a : A) : M A := fun self => (inr a, self).

Definition bind {A B} (m : M A) (k : A -> M B) : M B :=
  fun self =>
    match m self with
    | (inl e, self') => (inl e, self')
    | (inr a, self') => k a self'
    end.

Definition get : M QLearner := fun self => (inr self, self).

Definition modify (f : QLearner -> QLearner) : M unit :=
  fun self => (inr tt, f self).

Definition lift {A} (r : result A) : M A := fun self => (r, self).

Notation "'let*' x ':=' m 'in' k" := (bind m (fun x => k))
  (at level 10, x pattern, m at level 100, k at level 200).

Fixpoint mmap {A B} (f : A -> M B) (l : list A) : M (list B) :=
  match l with
  | [] => ret []
  | x :: l' =>
      let* y := f x in
      let* ys := mmap f l' in
      ret (y :: ys)
  end.

(** *** [__init__] *)

Definition __init__ (player_id num_actions : Z) (step_size : Qc)
    (epsilon_schedule : S) (discount_factor : Qc)
    (rules : option (list rule)) (centralized : bool) : result QLearner :=
  inr {| _player_id := player_id;
         _num_actions := num_actions;
         _step_size := step_size;
         _epsilon_schedule := epsilon_schedule;
         _epsilon := sched_value epsilon_schedule;
         _discount_factor := discount_factor;
         _centralized := centralized;
         _q_values := ∅;
         _prev_info_state := None;
         _last_loss_value := None;
         _prev_action := None;
         _rules := rules |}.

(** *** The value store: [defaultdict(valuedict)] *)

(** What a read of [q[k][a]] returns: the stored value, [0.0] when the
    entry or the whole row is missing. *)
Definition q_read (q : gmap string (gmap action_key Qc)) (k : string) (a : action_key) : Qc :=
  default (Q2Qc 0) (default ∅ (q !! k) !! a).

(** [self._q_values[k][a]]: both [__getitem__] calls insert the
    default when the key is missing. *)
Definition q_getitem (k : string) (a : action_key) : M Qc :=
  fun self =>
    let q := _q_values self in
    let row := default ∅ (q !! k) in
    let v := default (Q2Qc 0) (row !! a) in
    (inr v, set_q_values (<[k := <[a := v]> row]> q) self).

(** [self._q_values[k][a] = v]. *)
Definition q_setitem (k : string) (a : action_key) (v : Qc) : M unit :=
  fun self =>
    let q := _q_values self in
    let row := default ∅ (q !! k) in
    (inr tt, set_q_values (<[k := <[a := v]> row]> q) self).

(** *** [str] of the observation lists *)

(** [str] of a Python list whose entries print as [items]. *)
Definition str_of_items (items : list string) : string :=
  "[" +:+ String.concat ", " items +:+ "]".

Definition str_list (v : list Qc) : string :=
  str_of_items (float_repr <$> v).

Definition str_list_list (vs : list (list Qc)) : string :=
  str_of_items (str_list <$> vs).

(** *** [_epsilon_greedy]

    [u_explore] is the value of [np.random.random()], [u_choice] the
    uniform sample [np.random.choice] draws. *)

Definition _epsilon_greedy (info_state : string) (legal_actions : list Z)
    (epsilon u_explore u_choice : Qc) : M (Z * list Qc) :=
  let* self := get in
  let* probs := lift (np_zeros (_num_actions self)) in
  let* probs :=
    if decide (u_explore < epsilon)%Qc then
      let* p := lift (py_inv (length legal_actions)) in
      lift (np_set_many probs legal_actions p)
    else
      let* q_values := mmap (fun a => q_getitem info_state (Some a)) legal_actions in
      let* i := lift (np_argmax q_values) in
      let* best_action := lift (py_index legal_actions (Z.of_nat i)) in
      lift (np_set probs best_action (Q2Qc 1))
  in
  let* action := lift (np_random_choice (_num_actions self) probs u_choice) in
  ret (action, probs).

Definition _get_action_probs (info_state : string) (legal_actions : list Z)
    (epsilon u_explore u_choice : Qc) : M (Z * list Qc) :=
  _epsilon_greedy info_state legal_actions epsilon u_explore u_choice.

(** *** [_get_action_reward]

    The method only reads the agent, so it is a function of [self]. *)

(** Truth value of [self._rules]: [None] and the empty list are false. *)
Definition rules_configured (rules : option (list rule)) : list rule :=
  default [] rules.

Definition _get_action_reward (self : QLearner) (time_step : TimeStep) : result Qc :=
  match rewards time_step with
  | None => inr (Q2Qc 0)
  | Some rewards =>
      let? extra_reward :=
        match rules_configured (_rules self) with
        | [] => inr (Q2Qc 0)
        | rules =>
            let? board := py_index (info_state (observations time_step)) 0 in
            let current_player_board :=
              if (_player_id self =? 0)%Z then py_slice board 9 18
              else py_slice_from board 18 in
            let? current_player_board := rmap float_to_int current_player_board in
            let? bonuses := rmap (fun rule : rule => rule current_player_board) rules in
            inr (py_sum bonuses)
        end in
      let? reward := py_index rewards (_player_id self) in
      inr (reward + extra_reward)%Qc
  end.

(** *** [step] *)

(** Truth value of [self._prev_info_state]: [None] and the empty
    string are false. *)
Definition pending_key (self : QLearner) : option string :=
  match _prev_info_state self with
  | Some k => if String.eqb k "" then None else Some k
  | None => None
  end.

(** The learn step of [step], for the pending key [prev]; the result
    tells whether the method returns right after it. *)
Definition learn (time_step : TimeStep) (info_state : string)
    (legal_actions : list Z) (prev : string) : M bool :=
  let* self := get in
  let* reward := lift (_get_action_reward self time_step) in
  let* target :=
    if last time_step then ret reward
    else
      let* q_values := mmap (fun a => q_getitem info_state (Some a)) legal_actions in
      let* best := lift (py_max q_values) in
      ret (reward + _discount_factor self * best)%Qc
  in
  let* old := q_getitem prev (_prev_action self) in
  let* cur := q_getitem prev (_prev_action self) in
  let* _ := q_setitem prev (_prev_action self)
              (old + _step_size self * (target - cur))%Qc in
  let* new := q_getitem prev (_prev_action self) in
  let* _ := modify (set_last_loss_value (Some (new - target)%Qc)) in
  let* _ := modify (fun self =>
              let (e, sched) := sched_step (_epsilon_schedule self) in
              set_epsilon e sched self) in
  if last time_step then
    let* _ := modify (set_prev_info_state None) in
    ret true
  else ret false.

(** The state encoder: the first statement of [step]. *)
Definition state_key (self : QLearner) (time_step : TimeStep) : result string :=
  if _centralized self then
    inr (str_list_list (info_state (observations time_step)))
  else
    let? v := py_index (info_state (observations time_step)) (_player_id self) in
    inr (str_list v).

(** The act step of [step]: no action at a terminal step. *)
Definition act (time_step : TimeStep) (info_state : string)
    (legal_actions : list Z) (is_evaluation top1 : bool)
    (u_explore u_choice : Qc) : M (option Z * option (list Qc)) :=
  if negb (last time_step) then
    let* self := get in
    let epsilon := if is_evaluation then Q2Qc 0 else _epsilon self in
    let* (action, probs) :=
      _get_action_probs info_state legal_actions epsilon u_explore u_choice in
    let* action :=
      if top1 || is_evaluation then
        let* i := lift (np_argmax probs) in ret (Z.of_nat i)
      else ret action in
    ret (Some action, Some probs)
  else ret (None, None).

Definition step (time_step : TimeStep) (is_evaluation top1 : bool)
    (u_explore u_choice : Qc) : M (option StepOutput) :=
  let* self := get in
  let* info_state := lift (state_key self time_step) in
  let* legal_actions :=
    lift (py_index (legal_actions (observations time_step)) (_player_id self)) in
  let* (action, probs) :=
    act time_step info_state legal_actions is_evaluation top1 u_explore u_choice in
  let* self := get in
  let* returned :=
    match pending_key self with
    | Some prev =>
        if negb is_evaluation then learn time_step info_state legal_actions prev
        else ret false
    | None => ret false
    end in
  if returned : bool then ret None
  else
    let* _ :=
      if negb is_evaluation then
        let* _ := modify (set_prev_info_state (Some info_state)) in
        modify (set_prev_action action)
      else ret tt in
    ret (Some {| action := action; probs := probs |}).

End Agent.

Arguments QLearner : clear implicits.
Arguments M : clear implicits.

Notation "'let*' x ':=' m 'in' k" := (bind m (fun x => k))
  (at level 10, x pattern, m at level 100, k at level 200).

(** ** The board views: [info_state_to_board] and [pretty_board] *)

(** [np.nonzero(v)[0]]: the indices of the entries that are not zero. *)
Fixpoint nonzero_from (i : nat) (v : list Qc) : list nat :=
  match v with
  | [] => []
  | x :: v' =>
      if decide (x = Q2Qc 0) then nonzero_from (S i) v'
      else i :: nonzero_from (S i) v'
  end.

Definition np_nonzero (v : list Qc) : list nat := nonzero_from 0 v.

(** [np.full(n, x)]. *)
Definition np_full {A} (n : nat) (x : A) : list A := replicate n x.

(** [b[idx] = x] for an array [idx] of non-negative indices: an index
    past the end raises [IndexError]. *)
Fixpoint np_put {A} (b : list A) (idx : list nat) (x : A) : result (list A) :=
  match idx with
  | [] => inr b
  | i :: idx' =>
      if decide (i < length b)%nat then np_put (<[i := x]> b) idx' x
      else inl IndexError
  end.

(** The rows of [np.reshape(b, (rows, cols))]. *)
Fixpoint rows_of {A} (rows cols : nat) (b : list A) : list (list A) :=
  match rows with
  | O => []
  | S rows' => take cols b :: rows_of rows' cols (drop cols b)
  end.

Definition np_reshape {A} (b : list A) (rows cols : nat) : result (list (list A)) :=
  if decide (length b = rows * cols)%nat then inr (rows_of rows cols b)
  else inl ValueError.

Definition info_state_to_board (time_step : TimeStep) : result (list (list Z)) :=
  let? info_state := py_index (info_state (observations time_step)) 0 in
  let x_locations := np_nonzero (py_slice info_state 9 18) in
  let o_locations := np_nonzero (py_slice_from info_state 18) in
  let board := np_full (3 * 3) 0%Z in
  let? board := np_put board x_locations 1%Z in
  let? board := np_put board o_locations (-1)%Z in
  np_reshape board 3 3.

Definition pretty_board (time_step : TimeStep) : result (list (list string)) :=
  let? info_state := py_index (info_state (observations time_step)) 0 in
  let x_locations := np_nonzero (py_slice info_state 9 18) in
  let o_locations := np_nonzero (py_slice_from info_state 18) in
  let board := np_full (3 * 3) "." in
  let? board := np_put board x_locations "X" in
  let? board := np_put board o_locations "0" in
  np_reshape board 3 3.

(** ** [command_line_action]

    The lines that [input()] will return are a list; [input()] on the
    empty list raises [EOFError].  What the function prints is not
    modelled.  [py_int] is Python's [int] on strings, [None] when it
    raises [ValueError]. *)

Inductive io_exn : Type :=
| EOFError
| Raised (e : exn).

Section CommandLine.

Variable py_int : string -> option Z.

(** The [while action not in legal_actions] loop; it returns the action
    and the lines not yet read. *)
Fixpoint command_line_loop (legal_actions : list Z) (action : Z)
    (lines : list string) : io_exn + Z * list string :=
  if decide (action ∈ legal_actions) then inr (action, lines)
  else
    match lines with
    | [] => inl EOFError
    | action_str :: lines' =>
        match py_int action_str with
        | Some n => command_line_loop legal_actions (n - 1)%Z lines'
        | None => command_line_loop legal_actions action lines'
        end
    end.

Definition command_line_action (time_step : TimeStep) (lines : list string)
    : io_exn + Z * list string :=
  match py_index (legal_actions (observations time_step))
          (current_player (observations time_step)) with
  | inl e => inl (Raised e)
  | inr legal_actions => command_line_loop legal_actions (-1)%Z lines
  end.

End CommandLine.

(** ** Vocabulary of the properties *)

(** The number [n] as a float. *)
Definition Qc_of_nat (n : nat) : Qc := Q2Qc (inject_Z (Z.of_nat n)).

(** The entry stored at [(k, a)], if there is one. *)
Definition q_entry (q : gmap string (gmap action_key Qc)) (k : string)
    (a : action_key) : option Qc :=
  match q !! k with
  | Some row => row !! a
  | None => None
  end.

(** [q'] has every entry of [q], with the same value, and its other
    entries hold [0.0]. *)
Definition zero_extension (q q' : gmap string (gmap action_key Qc)) : Prop :=
  ∀ k a, q_entry q' k a = q_entry q k a
         ∨ (q_entry q k a = None ∧ q_entry q' k a = Some (Q2Qc 0)).

(** Every character of [s] satisfies [P]. *)
Fixpoint string_forall (P : ascii -> bool) (s : string) : bool :=
  match s with
  | EmptyString => true
  | String c s' => P c && string_forall P s'
  end.

(** The characters with which [str] of a list delimits the entries. *)
Definition is_delim (c : ascii) : bool :=
  (Ascii.eqb c "," || Ascii.eqb c "[" || Ascii.eqb c "]")%bool.

(** What follows the first entry in [String.concat ", " (x :: xs) ++ "]"]. *)
Definition items_tail (xs : list string) : string :=
  match xs with
  | [] => "]"
  | _ :: _ => ", " +:+ String.concat ", " xs +:+ "]"
  end.

(** A printed number: not empty and free of list delimiters. *)
Definition plain (s : string) : Prop :=
  s ≠ EmptyString ∧ string_forall (fun c => negb (is_delim c)) s = true.

(** A stand-in for [repr] on floats that prints the fraction in lowest
    terms; it is injective and its output is [plain]. *)
Definition frac_repr (q : Qc) : string :=
  pretty (Qnum q) +:+ "/" +:+ pretty (Z.pos (Qden q)).

(** The entry of [v] at index [j] exists and is not zero. *)
Definition marked (v : list Qc) (j : nat) : bool :=
  match v !! j with
  | Some x => bool_decide (x ≠ Q2Qc 0)
  | None => false
  end.

(** Cell [i] of a board drawn from the observation vector [v]: the mark
    of the plane at entries 18.. wins over the mark of the plane at
    entries 9..17. *)
Definition board_cell {A} (empty x o : A) (v : list Qc) (i : nat) : A :=
  if marked v (18 + i) then o else if marked v (9 + i) then x else empty.

(** How [pretty_board] draws a cell of [info_state_to_board]. *)
Definition cell_symbol (c : Z) : string :=
  if (c =? 1)%Z then "X" else if (c =? -1)%Z then "0" else ".".

(** The loop of [likeable_pattern] as a comparison of the board with
    the mask, cell by cell, from the left. *)
Fixpoint compare_cells (board mask : list Z) {struct mask} : result Qc :=
  match mask with
  | [] => inr (Q2Qc 1000)
  | m :: mask' =>
      match board with
      | [] => inl IndexError
      | b :: board' =>
          if (b =? m)%Z then compare_cells board' mask' else inr (Q2Qc 0)
      end
  end.

(** The line typed at the prompt selects a legal action: [int] accepts
    it and the number less one is in [legal_actions]. *)
Definition selects (py_int : string -> option Z) (legal_actions : list Z)
    (line : string) : bool :=
  match py_int line with
  | Some n => bool_decide ((n - 1)%Z ∈ legal_actions)
  | None => false
  end.

(** The time step with another step type, or other observation vectors. *)
Definition with_step_type (st : StepType) (ts : TimeStep) : TimeStep :=
  {| observations := observations ts; rewards := rewards ts;
     discounts := discounts ts; step_type := st |}.

Definition with_info_state (vs : list (list Qc)) (ts : TimeStep) : TimeStep :=
  {| observations :=
       {| info_state := vs;
          legal_actions := legal_actions (observations ts);
          current_player := current_player (observations ts) |};
     rewards := rewards ts; discounts := discounts ts;
     step_type := step_type ts |}.

(** The entries of the observation vector [v] that make up the board
    of the player [player_id]: entries 9..17 for player 0, entries 18
    onward for any other player. *)
Definition player_slice (player_id : Z) (v : list Qc) : list Qc :=
  if (player_id =? 0)%Z then py_slice v 9 18 else py_slice_from v 18.

(** The integer board cut out of [v] for the player [player_id]; the
    conversion raises when an entry does not fit. *)
Definition player_board (player_id : Z) (v : list Qc) : result (list Z) :=
  rmap float_to_int (player_slice player_id v).

(** The integer part of [q] is a 64-bit integer. *)
Definition fits_int64 (q : Qc) : Prop :=
  (- 2 ^ 63 <= py_trunc q < 2 ^ 63)%Z.

Section Vocabulary.

Context {S : Type} `{ValueSchedule S}.

(** Every field other than the value store is the same. *)
Definition same_but_store (self self' : QLearner S) : Prop :=
  self' = set_q_values (_q_values self') self.

(** What a call may do to the agent when it only reads the store. *)
Definition reads_only (self self' : QLearner S) : Prop :=
  same_but_store self self'
  ∧ zero_extension (_q_values self) (_q_values self').

(** A method whose calls, returning or raising, relate the state
    before to the state after by [R]. *)
Definition frame (R : QLearner S -> QLearner S -> Prop) {A} (m : M S A) : Prop :=
  ∀ self, R self (snd (m self)).

(** What the learn step does to the agent [self] for the pending key
    [prev] and a TD target: the entry at [(prev, _prev_action)] is
    overwritten, the loss is recorded, the schedule advances once, and
    the pending key is dropped when the step is terminal. *)
Definition td_update (self self' : QLearner S) (prev : string) (target : Qc)
    (terminal : bool) : Prop :=
  let old := q_read (_q_values self) prev (_prev_action self) in
  let new := (old + _step_size self * (target - old))%Qc in
  (∀ k a, q_entry (_q_values self') k a
          = if decide (k = prev ∧ a = _prev_action self) then Some new
            else q_entry (_q_values self) k a)
  ∧ _last_loss_value self' = Some (new - target)%Qc
  ∧ (_epsilon self', _epsilon_schedule self') = sched_step (_epsilon_schedule self)
  ∧ _prev_info_state self' = (if terminal then None else _prev_info_state self)
  ∧ _prev_action self' = _prev_action self
  ∧ _player_id self' = _player_id self
  ∧ _num_actions self' = _num_actions self
  ∧ _step_size self' = _step_size self
  ∧ _discount_factor self' = _discount_factor self
  ∧ _centralized self' = _centralized self
  ∧ _rules self' = _rules self.

End Vocabulary.

Section StepVocabulary.

Context {S : Type} `{ValueSchedule S}.

Variable float_repr : Qc -> string.

(** The stores of [self] and [self'] differ at most by entries with
    value 0.0 that [self'] has in the row [key] at actions of [L]; the
    other fields are the same. *)
Definition touches (key : string) (L : list Z) (self self' : QLearner S) : Prop :=
  same_but_store self self'
  ∧ ∀ k a, q_entry (_q_values self') k a = q_entry (_q_values self) k a
           ∨ (k = key ∧ (∃ b, b ∈ L ∧ a = Some b)
              ∧ q_entry (_q_values self) k a = None
              ∧ q_entry (_q_values self') k a = Some (Q2Qc 0)).

(** The fields that [__init__] takes from its arguments are the same. *)
Definition same_configuration (self self' : QLearner S) : Prop :=
  _player_id self' = _player_id self
  ∧ _num_actions self' = _num_actions self
  ∧ _step_size self' = _step_size self
  ∧ _discount_factor self' = _discount_factor self
  ∧ _centralized self' = _centralized self
  ∧ _rules self' = _rules self.

(** The ways a call of [step] can end, with the result and the agent it
    leaves: a lookup in the observations raises; the act step raises;
    the call acts without learning; the reward computation raises; the
    call learns. *)
Inductive step_outcome (self : QLearner S) (ts : TimeStep)
    (is_evaluation top1 : bool) (u1 u2 : Qc)
    : result (option StepOutput) * QLearner S -> Prop :=
| outcome_key_raises e :
    state_key float_repr self ts = inl e ->
    step_outcome self ts is_evaluation top1 u1 u2 (inl e, self)
| outcome_legal_raises key e :
    state_key float_repr self ts = inr key ->
    py_index (legal_actions (observations ts)) (_player_id self) = inl e ->
    step_outcome self ts is_evaluation top1 u1 u2 (inl e, self)
| outcome_act_raises key L e self1 :
    state_key float_repr self ts = inr key ->
    py_index (legal_actions (observations ts)) (_player_id self) = inr L ->
    act ts key L is_evaluation top1 u1 u2 self = (inl e, self1) ->
    touches key L self self1 ->
    last ts = false ->
    step_outcome self ts is_evaluation top1 u1 u2 (inl e, self1)
| outcome_acts key L a p self1 :
    state_key float_repr self ts = inr key ->
    py_index (legal_actions (observations ts)) (_player_id self) = inr L ->
    act ts key L is_evaluation top1 u1 u2 self = (inr (a, p), self1) ->
    touches key L self self1 ->
    (last ts = true -> self1 = self) ->
    is_evaluation = true ∨ pending_key self = None ->
    step_outcome self ts is_evaluation top1 u1 u2
      (inr (Some {| action := a; probs := p |}),
       if is_evaluation then self1
       else set_prev_action a (set_prev_info_state (Some key) self1))
| outcome_reward_raises key L a p self1 prev e :
    state_key float_repr self ts = inr key ->
    py_index (legal_actions (observations ts)) (_player_id self) = inr L ->
    act ts key L is_evaluation top1 u1 u2 self = (inr (a, p), self1) ->
    touches key L self self1 ->
    (last ts = true -> self1 = self) ->
    is_evaluation = false ->
    pending_key self = Some prev ->
    _get_action_reward self ts = inl e ->
    step_outcome self ts is_evaluation top1 u1 u2 (inl e, self1)
| outcome_learns key L a p self1 prev reward target self2 self3 :
    state_key float_repr self ts = inr key ->
    py_index (legal_actions (observations ts)) (_player_id self) = inr L ->
    act ts key L is_evaluation top1 u1 u2 self = (inr (a, p), self1) ->
    is_evaluation = false ->
    pending_key self = Some prev ->
    _get_action_reward self ts = inr reward ->
    touches key L self self2 ->
    (last ts = true -> self2 = self) ->
    (if last ts then target = reward
     else ∃ best,
         py_max ((fun a => q_read (_q_values self) key (Some a)) <$> L) = inr best
         ∧ target = (reward + _discount_factor self * best)%Qc) ->
    td_update self2 self3 prev target (last ts) ->
    step_outcome self ts is_evaluation top1 u1 u2
      (if last ts then (inr None, self3)
       else (inr (Some {| action := a; probs := p |}),
             set_prev_action a (set_prev_info_state (Some key) self3))).

End StepVocabulary.

(** ** A sample position

    A tic-tac-toe time step as the environment reports it: each
    observation vector has 27 entries, three planes of nine cells
    (empty cells, then the two players' marks), and both players see
    the same vector.  The plane at entries 9..17 shows the pattern of
    [flat_reward_mask]. *)

Definition sample_vector : list Qc :=
  Q2Qc <$> [0; 0; 0; 0; 1; 0; 1; 1; 1;
            0; 1; 0; 1; 0; 1; 0; 0; 0;
            1; 0; 1; 0; 0; 0; 0; 0; 0]%Q.

(** The same position with the marks at entries 18..26 hidden. *)
Definition other_vector : list Qc :=
  Q2Qc <$> [0; 0; 0; 0; 1; 0; 1; 1; 1;
            0; 1; 0; 1; 0; 1; 0; 0; 0;
            0; 0; 0; 0; 0; 0; 0; 0; 0]%Q.

Definition sample_observations : Observations :=
  {| info_state := [sample_vector; sample_vector];
     legal_actions := [[4; 6; 7; 8]; []]%Z;
     current_player := 0 |}.

(** A time step in the middle of an episode, player 0 to move. *)
Definition sample_mid : TimeStep :=
  {| observations := sample_observations;
     rewards := Some [Q2Qc 0; Q2Qc 0];
     discounts := Some [Q2Qc 1; Q2Qc 1];
     step_type := MID |}.

(** The same observations in a first time step, which carries no rewards. *)
Definition sample_first : TimeStep :=
  {| observations := sample_observations;
     rewards := None;
     discounts := None;
     step_type := FIRST |}.

(** A non-terminal time step that offers player 0 no action. *)
Definition sample_stuck : TimeStep :=
  {| observations :=
       {| info_state := [sample_vector; sample_vector];
          legal_actions := [[]; []];
          current_player := 0 |};
     rewards := Some [Q2Qc 0; Q2Qc 0];
     discounts := Some [Q2Qc 1; Q2Qc 1];
     step_type := MID |}.

(** A terminal time step that player 0 has won. *)
Definition sample_last : TimeStep :=
  {| observations :=
       {| info_state := [sample_vector; sample_vector];
          legal_actions := [[]; []];
          current_player := (-4) |};
     rewards := Some [Q2Qc 1; Q2Qc (-1)];
     discounts := Some [Q2Qc 0; Q2Qc 0];
     step_type := LAST |}.

(** The sample time step as seen when player 1's vector differs. *)
Definition sample_mid_other : TimeStep :=
  with_info_state [sample_vector; other_vector] sample_mid.

Definition sample_schedule : ConstantSchedule := {| _value := Q2Qc (1 # 5) |}.

(** Player 0's agent with step size 0.5 and discount 1.0, as
    [__init__] leaves it, except for the pending transition and the
    rules given here. *)
Definition sample_agent (prev : option string) (prev_action : option Z)
    (rules : option (list rule)) : QLearner ConstantSchedule :=
  {| _player_id := 0;
     _num_actions := 9;
     _step_size := Q2Qc (1 # 2);
     _epsilon_schedule := sample_schedule;
     _epsilon := Q2Qc (1 # 5);
     _discount_factor := Q2Qc 1;
     _centralized := false;
     _q_values := ∅;
     _prev_info_state := prev;
     _last_loss_value := None;
     _prev_action := prev_action;
     _rules := rules |}.

Definition fresh_agent : QLearner ConstantSchedule := sample_agent None None None.

Definition pending_agent : QLearner ConstantSchedule :=
  sample_agent (Some "s") (Some 4%Z) None.

Definition shaped_agent : QLearner ConstantSchedule :=
  sample_agent (Some "s") (Some 4%Z) (Some [likeable_pattern]).

(** Player 0's agent with step size 0.1 and discount 1.0 that has
    estimates 0.2 and 0.8 for two of the legal actions of the sample
    position and a pending transition from the state ["s"]. *)
Definition seen_agent : QLearner ConstantSchedule :=
  {| _player_id := 0;
     _num_actions := 9;
     _step_size := Q2Qc (1 # 10);
     _epsilon_schedule := sample_schedule;
     _epsilon := Q2Qc (1 # 5);
     _discount_factor := Q2Qc 1;
     _centralized := false;
     _q_values :=
       {[ str_list frac_repr sample_vector :=
            {[ Some 4%Z := Q2Qc (1 # 5); Some 7%Z := Q2Qc (4 # 5) ]} ]};
     _prev_info_state := Some "s";
     _last_loss_value := None;
     _prev_action := Some 2%Z;
     _rules := None |}.

(** The sample position when the environment reports an empty list of
    rewards, when it reports no list of legal actions at all, and
    when it offers player 0 the action -1. *)
Definition sample_unpaid : TimeStep :=
  {| observations := sample_observations;
     rewards := Some [];
     discounts := Some [Q2Qc 1; Q2Qc 1];
     step_type := MID |}.

Definition sample_unlisted : TimeStep :=
  {| observations :=
       {| info_state := [sample_vector; sample_vector];
          legal_actions := [];
          current_player := 0 |};
     rewards := Some [Q2Qc 0; Q2Qc 0];
     discounts := Some [Q2Qc 1; Q2Qc 1];
     step_type := MID |}.

Definition sample_minus_one : TimeStep :=
  {| observations :=
       {| info_state := [sample_vector; sample_vector];
          legal_actions := [[-1; 4]; []]%Z;
          current_player := 0 |};
     rewards := Some [Q2Qc 0; Q2Qc 0];
     discounts := Some [Q2Qc 1; Q2Qc 1];
     step_type := MID |}.

(** The sample position with a mark of player 0 that no 64-bit integer
    holds. *)
Definition sample_overflow : TimeStep :=
  with_info_state [<[9%nat := Q2Qc (2 ^ 63)]> sample_vector; sample_vector]
    sample_mid.

(** A stand-in for [int] on the lines typed at the prompt: it reads
    unsigned decimal numerals and rejects every other line (Python's
    [int] accepts more: signs, surrounding blanks, underscores). *)
Definition digit_value (c : ascii) : option Z :=
  let n := (Z.of_N (N_of_ascii c) - 48)%Z in
  if ((0 <=? n)%Z && (n <=? 9)%Z)%bool then Some n else None.

Fixpoint digits_value (acc : Z) (s : string) : option Z :=
  match s with
  | EmptyString => Some acc
  | String c s' =>
      match digit_value c with
      | Some d => digits_value (10 * acc + d)%Z s'
      | None => None
      end
  end.

Definition sample_int (s : string) : option Z :=
  match s with
  | EmptyString => None
  | _ => digits_value 0 s
  end.

(** What is typed at the prompt: a word, an illegal action, a legal
    action, and a line that is never read. *)
Definition sample_lines : list string := ["x"; "3"; "7"; "9"].

(** * Properties *)

(** ** Order facts about the list primitives *)

Local Open Scope Qc_scope.

Lemma Qc_not_lt_le (x y : Qc) : ¬ x < y -> y <= x.
Proof. apply Qcnot_lt_le. Qed.

Lemma fold_max_spec (l : list Qc) (x : Qc) :
  let m := fold_left (fun m y => if decide (m < y) then y else m) l x in
  (m = x ∨ m ∈ l) ∧ x <= m ∧ ∀ y, y ∈ l -> y <= m.
Proof.
  revert x. induction l as [|z l IH]; intros x; simpl.
  - split; [by left|]. split; [apply Qcle_refl|]. intros y Hy. inversion Hy.
  - destruct (decide (x < z)) as [Hlt|Hge].
    + destruct (IH z) as (Hin & Hle & Hall). split; [|split].
      * right. destruct Hin as [->|Hin]; [left|by right].
      * eapply Qcle_trans; [apply Qclt_le_weak, Hlt|exact Hle].
      * intros y Hy. apply elem_of_cons in Hy as [->|Hy]; auto.
    + destruct (IH x) as (Hin & Hle & Hall). split; [|split].
      * destruct Hin as [Hin|Hin]; [by left|right; by right].
      * exact Hle.
      * intros y Hy. apply elem_of_cons in Hy as [->|Hy]; auto.
        eapply Qcle_trans; [apply Qc_not_lt_le, Hge|exact Hle].
Qed.

(** [max] returns an element of the list that bounds all the others. *)
Lemma py_max_spec (l : list Qc) (m : Qc) :
  py_max l = inr m -> m ∈ l ∧ ∀ y, y ∈ l -> y <= m.
Proof.
  destruct l as [|x l]; simpl; [discriminate|].
  intros [= <-].
  destruct (fold_max_spec l x) as (Hin & Hle & Hall). split.
  - destruct Hin as [->|Hin]; [left|by right].
  - intros y Hy. apply elem_of_cons in Hy as [->|Hy]; auto.
Qed.

Lemma py_max_nonempty (l : list Qc) : l ≠ [] -> ∃ m, py_max l = inr m.
Proof. destruct l; [done|]. intros _. eexists. reflexivity. Qed.

Lemma argmax_from_spec (l : list Qc) (best : Qc) (bi i : nat) :
  let r := argmax_from best bi i l in
  (r = bi ∧ ∀ y, y ∈ l -> y <= best)
  ∨ (∃ m, (i <= r)%nat ∧ l !! (r - i)%nat = Some m ∧ best < m
          ∧ (∀ y, y ∈ l -> y <= m)
          ∧ ∀ j y, (j < r - i)%nat -> l !! j = Some y -> y < m).
Proof.
  revert best bi i. induction l as [|x l IH]; intros best bi i; simpl.
  - left. split; [done|]. intros y Hy. inversion Hy.
  - destruct (decide (best < x)) as [Hlt|Hge].
    + destruct (IH x i (S i)) as [[Hr Hall]|(m & Hi & Hm & Hxm & Hall & Hbefore)].
      * right. exists x. rewrite Hr. replace (i - i)%nat with O by lia.
        split; [lia|]. split; [done|]. split; [done|]. split.
        -- intros y Hy. apply elem_of_cons in Hy as [->|Hy]; [apply Qcle_refl|auto].
        -- intros j y Hj. lia.
      * right. exists m. split; [lia|].
        replace (argmax_from x i (S i) l - i)%nat
          with (S (argmax_from x i (S i) l - S i)) by lia.
        split; [done|]. split; [by eapply Qclt_trans|]. split.
        -- intros y Hy. apply elem_of_cons in Hy as [->|Hy]; [by apply Qclt_le_weak|auto].
        -- intros [|j] y Hj Hy; simpl in Hy.
           ++ by injection Hy as <-.
           ++ eapply Hbefore; [|done]. lia.
    + destruct (IH best bi (S i)) as [[Hr Hall]|(m & Hi & Hm & Hxm & Hall & Hbefore)].
      * left. split; [done|].
        intros y Hy. apply elem_of_cons in Hy as [->|Hy]; [by apply Qc_not_lt_le|auto].
      * right. exists m. split; [lia|].
        replace (argmax_from best bi (S i) l - i)%nat
          with (S (argmax_from best bi (S i) l - S i)) by lia.
        split; [done|]. split; [done|]. split.
        -- intros y Hy. apply elem_of_cons in Hy as [->|Hy]; [|auto].
           apply Qclt_le_weak. eapply Qcle_lt_trans; [apply Qc_not_lt_le, Hge|done].
        -- intros [|j] y Hj Hy; simpl in Hy.
           ++ injection Hy as <-. eapply Qcle_lt_trans; [apply Qc_not_lt_le, Hge|done].
           ++ eapply Hbefore; [|done]. lia.
Qed.

(** [np.argmax] returns the first index that holds the maximum. *)
Lemma np_argmax_spec (l : list Qc) (i : nat) :
  np_argmax l = inr i ->
  ∃ m, l !! i = Some m
       ∧ (∀ y, y ∈ l -> y <= m)
       ∧ ∀ j y, (j < i)%nat -> l !! j = Some y -> y < m.
Proof.
  destruct l as [|x l]; simpl; [discriminate|].
  intros [= <-].
  destruct (argmax_from_spec l x 0 1) as [[Hr Hall]|(m & Hi & Hm & Hxm & Hall & Hbefore)].
  - rewrite Hr. exists x. split; [done|]. split.
    + intros y Hy. apply elem_of_cons in Hy as [->|Hy]; [apply Qcle_refl|auto].
    + intros j y Hj. lia.
  - exists m. destruct (argmax_from x 0 1 l) as [|r] eqn:Hr; [lia|].
    simpl in *. rewrite Nat.sub_0_r in *. split; [done|]. split.
    + intros y Hy. apply elem_of_cons in Hy as [->|Hy]; [by apply Qclt_le_weak|auto].
    + intros [|j] y Hj Hy; simpl in Hy.
      * by injection Hy as <-.
      * eapply Hbefore; [|done]. lia.
Qed.

Lemma np_argmax_nonempty (l : list Qc) : l ≠ [] -> ∃ i, np_argmax l = inr i.
Proof. destruct l; [done|]. intros _. eexists. reflexivity. Qed.

(** ** Indexing and probability vectors *)

Lemma Qc_of_nat_S (n : nat) : Qc_of_nat (S n) = Q2Qc 1 + Qc_of_nat n.
Proof.
  unfold Qc_of_nat, Qcplus. apply Q2Qc_eq_iff. simpl.
  rewrite !Qred_correct, Nat2Z.inj_succ. unfold Z.succ.
  rewrite inject_Z_plus. ring.
Qed.

Lemma Qc_of_nat_nonzero (n : nat) : Qc_of_nat (S n) ≠ Q2Qc 0.
Proof.
  unfold Qc_of_nat. intros Heq. apply Q2Qc_eq_iff in Heq.
  unfold Qeq in Heq. simpl in Heq. lia.
Qed.

Lemma py_inv_mult (n : nat) (p : Qc) :
  py_inv n = inr p -> Qc_of_nat n * p = Q2Qc 1.
Proof.
  destruct n as [|n]; simpl; [discriminate|]. intros [= <-].
  apply Qcmult_inv_r, Qc_of_nat_nonzero.
Qed.

Lemma norm_index_in_range (n : nat) (a : Z) :
  (0 <= a < Z.of_nat n)%Z -> norm_index n a = inr (Z.to_nat a).
Proof.
  intros Ha. unfold norm_index.
  destruct (a <? 0)%Z eqn:Hneg; [lia|].
  destruct (0 <=? a)%Z eqn:H0; [|lia].
  destruct (a <? Z.of_nat n)%Z eqn:H1; [done|lia].
Qed.


Lemma py_index_in_range {A} (l : list A) (a : Z) (x : A) :
  (0 <= a)%Z -> py_index l a = inr x <-> l !! Z.to_nat a = Some x.
Proof.
  intros Ha. unfold py_index. split.
  - destruct (norm_index (length l) a) as [e|j] eqn:Hj; simpl; [discriminate|].
    unfold norm_index in Hj. destruct (a <? 0)%Z eqn:Hneg; [lia|].
    destruct (_ && _)%bool; [|discriminate]. injection Hj as <-.
    destruct (l !! Z.to_nat a); [|discriminate]. by intros [= <-].
  - intros Hl. rewrite norm_index_in_range; simpl.
    + by rewrite Hl.
    + apply lookup_lt_Some in Hl. lia.
Qed.

Lemma fold_left_Qcplus (l : list Qc) (a : Qc) :
  fold_left Qcplus l a = a + fold_left Qcplus l (Q2Qc 0).
Proof.
  revert a. induction l as [|x l IH]; intros a; simpl.
  - ring.
  - rewrite (IH (a + x)), (IH (Q2Qc 0 + x)). ring.
Qed.

Lemma py_sum_cons (x : Qc) (l : list Qc) : py_sum (x :: l) = x + py_sum l.
Proof.
  unfold py_sum. simpl. rewrite fold_left_Qcplus. ring.
Qed.

Lemma py_sum_replicate_0 (n : nat) : py_sum (replicate n (Q2Qc 0)) = Q2Qc 0.
Proof.
  induction n as [|n IH]; [done|].
  simpl. rewrite py_sum_cons, IH. ring.
Qed.

Lemma py_sum_insert (p : list Qc) (j : nat) (v old : Qc) :
  p !! j = Some old -> py_sum (<[j := v]> p) = py_sum p - old + v.
Proof.
  revert j. induction p as [|x p IH]; intros [|j] Hj; simpl in *; try discriminate.
  - injection Hj as ->. rewrite !py_sum_cons. ring.
  - rewrite !py_sum_cons, (IH _ Hj). ring.
Qed.

(** Writing [v] at distinct in-range positions that hold [0]. *)
Lemma np_set_many_spec (idx : list Z) (p : list Qc) (v : Qc) :
  NoDup idx ->
  (∀ a, a ∈ idx -> (0 <= a < Z.of_nat (length p))%Z) ->
  (∀ a, a ∈ idx -> p !! Z.to_nat a = Some (Q2Qc 0)) ->
  ∃ p', np_set_many p idx v = inr p'
        ∧ length p' = length p
        ∧ py_sum p' = py_sum p + Qc_of_nat (length idx) * v
        ∧ (∀ a, a ∈ idx -> p' !! Z.to_nat a = Some v)
        ∧ (∀ i, Z.of_nat i ∉ idx -> p' !! i = p !! i).
Proof.
  revert p. induction idx as [|a idx IH]; intros p Hnd Hrange Hzero; simpl.
  - exists p. split; [done|]. split; [done|]. split.
    + change (Qc_of_nat 0) with (Q2Qc 0). ring.
    + split; [|done]. intros a Ha. inversion Ha.
  - assert (Hnotin := NoDup_cons_1_1 _ _ Hnd). apply NoDup_cons_1_2 in Hnd.
    assert (Ha : (0 <= a < Z.of_nat (length p))%Z) by (apply Hrange; left).
    unfold np_set. rewrite norm_index_in_range by done. simpl.
    destruct (IH (<[Z.to_nat a := v]> p)) as (p' & Hp' & Hlen & Hsum & Hin & Hout).
    + done.
    + intros b Hb. rewrite length_insert. apply Hrange. by right.
    + intros b Hb. rewrite list_lookup_insert_ne.
      * apply Hzero. by right.
      * intros Heq. apply Hnotin.
        assert (0 <= b)%Z by (apply (Hrange b); by right).
        replace a with b by lia. done.
    + exists p'. split; [done|]. split; [by rewrite Hlen, length_insert|]. split.
      * rewrite Hsum, (py_sum_insert _ _ _ (Q2Qc 0)) by (apply Hzero; left).
        rewrite Qc_of_nat_S. ring.
      * split.
        -- intros b Hb. apply elem_of_cons in Hb as [->|Hb]; [|by apply Hin].
           rewrite Hout.
           ++ apply list_lookup_insert_eq. lia.
           ++ by rewrite Z2Nat.id by lia.
        -- intros i Hi. rewrite Hout.
           ++ apply list_lookup_insert_ne. intros <-. apply Hi.
              apply elem_of_cons. left. lia.
           ++ intros Hin'. apply Hi. by right.
Qed.

Lemma one_hot_lookup (n b i : nat) :
  (i < n)%nat ->
  <[b := Q2Qc 1]> (replicate n (Q2Qc 0)) !! i
  = Some (if decide (i = b) then Q2Qc 1 else Q2Qc 0).
Proof.
  intros Hi. destruct (decide (i = b)) as [->|Hne].
  - apply list_lookup_insert_eq. by rewrite length_replicate.
  - rewrite list_lookup_insert_ne by done. by apply lookup_replicate_2.
Qed.

Lemma one_hot_sum (n b : nat) :
  (b < n)%nat -> py_sum (<[b := Q2Qc 1]> (replicate n (Q2Qc 0))) = Q2Qc 1.
Proof.
  intros Hb. rewrite (py_sum_insert _ _ _ (Q2Qc 0)) by by apply lookup_replicate_2.
  rewrite py_sum_replicate_0. ring.
Qed.


Lemma one_hot_argmax (n b : nat) :
  (b < n)%nat -> np_argmax (<[b := Q2Qc 1]> (replicate n (Q2Qc 0))) = inr b.
Proof.
  intros Hb.
  destruct (np_argmax_nonempty (<[b := Q2Qc 1]> (replicate n (Q2Qc 0)))) as [i Hi].
  { intros Hnil. apply (f_equal length) in Hnil.
    rewrite length_insert, length_replicate in Hnil. simpl in Hnil. lia. }
  rewrite Hi. f_equal.
  destruct (np_argmax_spec _ _ Hi) as (m & Hm & Hall & _).
  assert (Hin : (i < n)%nat).
  { apply lookup_lt_Some in Hm. by rewrite length_insert, length_replicate in Hm. }
  rewrite one_hot_lookup in Hm by done.
  destruct (decide (i = b)) as [->|Hne]; [done|]. injection Hm as <-.
  exfalso. assert (Hle : Q2Qc 1 <= Q2Qc 0).
  { apply Hall. apply list_elem_of_lookup. exists b.
    rewrite one_hot_lookup by done. by rewrite decide_True. }
  by apply Qcle_not_lt in Hle.
Qed.

Lemma one_hot_searchsorted (n b : nat) (u : Qc) :
  (b < n)%nat -> Q2Qc 0 <= u -> u < Q2Qc 1 ->
  searchsorted_right (np_cumsum (<[b := Q2Qc 1]> (replicate n (Q2Qc 0)))) u = b.
Proof.
  intros Hb Hu0 Hu1. unfold np_cumsum. revert b Hb.
  induction n as [|n IH]; intros b Hb; [lia|].
  destruct b as [|b]; simpl.
  - replace (Q2Qc 0 + Q2Qc 1) with (Q2Qc 1) by ring.
    destruct (decide (Q2Qc 1 <= u)) as [Hle|]; [|done].
    by apply Qcle_not_lt in Hle.
  - replace (Q2Qc 0 + Q2Qc 0) with (Q2Qc 0) by ring.
    rewrite decide_True by done. f_equal. apply IH. lia.
Qed.

(** ** The value store *)

Lemma q_read_entry (q : gmap string (gmap action_key Qc)) k a :
  q_read q k a = default (Q2Qc 0) (q_entry q k a).
Proof. unfold q_read, q_entry. by destruct (q !! k). Qed.

Lemma zero_extension_refl q : zero_extension q q.
Proof. intros k a. by left. Qed.

Lemma zero_extension_trans q1 q2 q3 :
  zero_extension q1 q2 -> zero_extension q2 q3 -> zero_extension q1 q3.
Proof.
  intros H12 H23 k a.
  destruct (H12 k a) as [E12|[N1 Z2]], (H23 k a) as [E23|[N2 Z3]].
  - left. congruence.
  - right. split; congruence.
  - right. split; congruence.
  - congruence.
Qed.

Lemma zero_extension_read q q' k a :
  zero_extension q q' -> q_read q' k a = q_read q k a.
Proof.
  intros Hext. rewrite !q_read_entry.
  destruct (Hext k a) as [->|[-> ->]]; done.
Qed.

Lemma q_entry_insert (q : gmap string (gmap action_key Qc)) k a v k' a' :
  q_entry (<[k := <[a := v]> (default ∅ (q !! k))]> q) k' a'
  = if decide (k' = k ∧ a' = a) then Some v else q_entry q k' a'.
Proof.
  unfold q_entry. destruct (decide (k' = k)) as [->|Hk].
  - rewrite lookup_insert_eq. destruct (decide (a' = a)) as [->|Ha].
    + rewrite lookup_insert_eq. by rewrite decide_True.
    + rewrite lookup_insert_ne by done. rewrite decide_False by tauto.
      by destruct (q !! k).
  - rewrite lookup_insert_ne by done. rewrite decide_False by tauto. done.
Qed.

Lemma q_touch_zero_extension (q : gmap string (gmap action_key Qc)) k a :
  zero_extension q
    (<[k := <[a := default (Q2Qc 0) (default ∅ (q !! k) !! a)]> (default ∅ (q !! k))]> q).
Proof.
  intros k' a'. rewrite q_entry_insert.
  destruct (decide (k' = k ∧ a' = a)) as [[-> ->]|Hne]; [|by left].
  unfold q_entry. destruct (q !! k) as [row|]; simpl.
  - destruct (row !! a); simpl; [by left|by right].
  - rewrite lookup_empty. by right.
Qed.

(** ** Printing lists: [str] is injective *)

#[local] Arguments String.append !s1 s2 / : simpl nomatch.

Lemma string_forall_app (P : ascii -> bool) (s t : string) :
  string_forall P (s +:+ t) = (string_forall P s && string_forall P t)%bool.
Proof.
  induction s as [|c s IH]; simpl; [done|]. by rewrite IH, andb_assoc.
Qed.

Lemma string_forall_impl (P Q : ascii -> bool) (s : string) :
  (∀ c, P c = true -> Q c = true) ->
  string_forall P s = true -> string_forall Q s = true.
Proof.
  intros HPQ. induction s as [|c s IH]; simpl; [done|].
  intros [Hc Hs]%andb_prop. by rewrite (HPQ c Hc), IH.
Qed.

Lemma string_app_assoc (s t u : string) : (s +:+ t) +:+ u = s +:+ t +:+ u.
Proof. induction s as [|c s IH]; simpl; [done|]. by rewrite IH. Qed.

(** Two strings free of the delimiters [P], each followed by a text that
    starts with a delimiter: equal wholes have equal parts. *)
Lemma split_at_delim (P : ascii -> bool) (x y : string) c1 t1 c2 t2 :
  string_forall (fun c => negb (P c)) x = true ->
  string_forall (fun c => negb (P c)) y = true ->
  P c1 = true -> P c2 = true ->
  x +:+ String c1 t1 = y +:+ String c2 t2 ->
  x = y ∧ String c1 t1 = String c2 t2.
Proof.
  revert y. induction x as [|a x IH]; intros [|b y] Hx Hy H1 H2 Heq; simpl in *.
  - done.
  - injection Heq as <- _. apply andb_prop in Hy as [Hb _]. by rewrite H1 in Hb.
  - injection Heq as -> _. apply andb_prop in Hx as [Ha _]. by rewrite H2 in Ha.
  - injection Heq as <- Heq.
    apply andb_prop in Hx as [_ Hx]. apply andb_prop in Hy as [_ Hy].
    destruct (IH y Hx Hy H1 H2 Heq) as [-> Ht]. done.
Qed.

Lemma concat_cons_tail (x : string) (xs : list string) :
  String.concat ", " (x :: xs) +:+ "]" = x +:+ items_tail xs.
Proof.
  destruct xs as [|x' xs]; [done|].
  change (String.concat ", " (x :: x' :: xs))
    with (x +:+ ", " +:+ String.concat ", " (x' :: xs)).
  unfold items_tail. by rewrite !string_app_assoc.
Qed.

Lemma items_tail_delim (xs : list string) :
  ∃ c t, items_tail xs = String c t ∧ is_delim c = true
         ∧ (xs = [] -> c = "]"%char) ∧ (xs ≠ [] -> c = ","%char).
Proof.
  destruct xs as [|x xs]; simpl.
  - exists "]"%char, EmptyString. done.
  - exists ","%char, (" " +:+ String.concat ", " (x :: xs) +:+ "]").
    split; [done|]. split; [done|]. split; [intros Hnil; inversion Hnil|done].
Qed.

Lemma concat_plain_inj (xs ys : list string) :
  Forall plain xs -> Forall plain ys ->
  String.concat ", " xs +:+ "]" = String.concat ", " ys +:+ "]" ->
  xs = ys.
Proof.
  revert ys. induction xs as [|x xs IH]; intros [|y ys] Hxs Hys Heq.
  - done.
  - rewrite concat_cons_tail in Heq. apply Forall_cons in Hys as [[Hne Hy] _].
    destruct y as [|c y]; [done|]. simpl in Heq, Hy. injection Heq as Hc _.
    rewrite <- Hc in Hy. discriminate.
  - rewrite concat_cons_tail in Heq. apply Forall_cons in Hxs as [[Hne Hx] _].
    destruct x as [|c x]; [done|]. simpl in Heq, Hx. injection Heq as Hc _.
    rewrite Hc in Hx. discriminate.
  - rewrite !concat_cons_tail in Heq.
    apply Forall_cons in Hxs as [[_ Hx] Hxs].
    apply Forall_cons in Hys as [[_ Hy] Hys].
    destruct (items_tail_delim xs) as (c1 & t1 & E1 & D1 & Hnil1 & Hcons1).
    destruct (items_tail_delim ys) as (c2 & t2 & E2 & D2 & Hnil2 & Hcons2).
    rewrite E1, E2 in Heq.
    destruct (split_at_delim is_delim x y c1 t1 c2 t2 Hx Hy D1 D2 Heq) as [-> Ht].
    f_equal. rewrite <- E1, <- E2 in Ht.
    destruct xs as [|x' xs], ys as [|y' ys]; simpl in Ht; try done.
    injection Ht as Ht. apply IH; done.
Qed.

Lemma concat_plain_no_bracket (xs : list string) :
  Forall plain xs ->
  string_forall (fun c => negb (Ascii.eqb c "]")) (String.concat ", " xs) = true.
Proof.
  induction xs as [|x xs IH]; intros Hxs; [done|].
  apply Forall_cons in Hxs as [[_ Hx] Hxs].
  assert (Hx' : string_forall (fun c => negb (Ascii.eqb c "]")) x = true).
  { revert Hx. apply string_forall_impl. intros c. unfold is_delim.
    destruct (Ascii.eqb c "]"); [|done]. by rewrite !orb_true_r. }
  destruct xs as [|x' xs]; [done|].
  change (String.concat ", " (x :: x' :: xs))
    with (x +:+ ", " +:+ String.concat ", " (x' :: xs)).
  rewrite !string_forall_app, Hx', (IH Hxs). done.
Qed.

Section Encoding.

Variable float_repr : Qc -> string.

Lemma str_list_inj (v1 v2 : list Qc) :
  (∀ q, plain (float_repr q)) ->
  (∀ q1 q2, float_repr q1 = float_repr q2 -> q1 = q2) ->
  str_list float_repr v1 = str_list float_repr v2 -> v1 = v2.
Proof.
  intros Hplain Hinj Heq. unfold str_list, str_of_items in Heq.
  injection Heq as Heq.
  apply concat_plain_inj in Heq.
  - revert v2 Heq. induction v1 as [|q1 v1 IH]; intros [|q2 v2] Heq;
      simpl in Heq; try done.
    injection Heq as Hq Heq. f_equal; [by apply Hinj|by apply IH].
  - apply Forall_fmap, Forall_true. intros q. apply Hplain.
  - apply Forall_fmap, Forall_true. intros q. apply Hplain.
Qed.

Lemma str_list_list_inj (vs1 vs2 : list (list Qc)) :
  (∀ q, plain (float_repr q)) ->
  (∀ q1 q2, float_repr q1 = float_repr q2 -> q1 = q2) ->
  str_list_list float_repr vs1 = str_list_list float_repr vs2 -> vs1 = vs2.
Proof.
  intros Hplain Hinj Heq. unfold str_list_list, str_of_items in Heq.
  injection Heq as Heq.
  revert vs2 Heq. induction vs1 as [|v1 vs1 IH]; intros [|v2 vs2] Heq.
  - done.
  - rewrite fmap_cons, concat_cons_tail in Heq. discriminate.
  - rewrite fmap_cons, concat_cons_tail in Heq. discriminate.
  - rewrite !fmap_cons, !concat_cons_tail in Heq.
    unfold str_list at 1 3 in Heq. unfold str_of_items in Heq.
    injection Heq as Heq.
    rewrite !string_app_assoc in Heq. simpl in Heq.
    assert (Hp : ∀ v, string_forall (fun c => negb (Ascii.eqb c "]"))
                       (String.concat ", " (float_repr <$> v)) = true).
    { intros v. apply concat_plain_no_bracket, Forall_fmap, Forall_true.
      intros q. apply Hplain. }
    destruct (split_at_delim (fun c => Ascii.eqb c "]") _ _ "]" _ "]" _
                (Hp v1) (Hp v2) eq_refl eq_refl Heq) as [Hbody Htail].
    f_equal.
    + apply (str_list_inj _ _ Hplain Hinj).
      unfold str_list, str_of_items. by rewrite Hbody.
    + injection Htail as Htail.
      destruct vs1 as [|v1' vs1], vs2 as [|v2' vs2]; simpl in Htail; try done.
      injection Htail as Htail. apply IH. done.
Qed.

End Encoding.

(** ** The stand-in for [repr] has the properties assumed of [repr] *)

Lemma pretty_N_go_chars (P : ascii -> bool) (x : N) (s : string) :
  (∀ d, P (pretty_N_char d) = true) ->
  string_forall P s = true -> string_forall P (pretty_N_go x s) = true.
Proof.
  intros Hd. revert s. induction (N.lt_wf_0 x) as [x _ IH]; intros s Hs.
  destruct (decide (x = 0)%N) as [->|Hx]; [by rewrite pretty_N_go_0|].
  rewrite pretty_N_go_step by lia. apply IH.
  - apply N.div_lt; lia.
  - simpl. by rewrite Hd, Hs.
Qed.

Lemma pretty_Z_chars (P : ascii -> bool) (z : Z) :
  (∀ d, P (pretty_N_char d) = true) -> P "-"%char = true ->
  string_forall P (pretty z) = true.
Proof.
  intros Hd Hminus.
  assert (H0 : P "0"%char = true) by apply (Hd 0%N).
  assert (HN : ∀ x : N, string_forall P (pretty x) = true).
  { intros x. unfold pretty, pretty_N. destruct (decide (x = 0)%N).
    - simpl. by rewrite H0.
    - by apply pretty_N_go_chars. }
  destruct z as [|p|p]; simpl.
  - unfold pretty, pretty_Z. simpl. by rewrite H0.
  - apply (HN (N.pos p)).
  - unfold pretty, pretty_Z. simpl. rewrite Hminus. apply (HN (N.pos p)).
Qed.

Lemma pretty_N_char_cases (P : ascii -> bool) :
  P "0"%char = true -> P "1"%char = true -> P "2"%char = true ->
  P "3"%char = true -> P "4"%char = true -> P "5"%char = true ->
  P "6"%char = true -> P "7"%char = true -> P "8"%char = true ->
  P "9"%char = true -> ∀ d, P (pretty_N_char d) = true.
Proof.
  intros ? ? ? ? ? ? ? ? ? ? d. unfold pretty_N_char. repeat case_match; done.
Qed.

Lemma frac_repr_plain (q : Qc) : plain (frac_repr q).
Proof.
  unfold frac_repr, plain. split.
  - destruct (pretty (Qnum q)); discriminate.
  - assert (Hnum : ∀ z : Z,
      string_forall (fun c => negb (is_delim c)) (pretty z) = true).
    { intros z. apply pretty_Z_chars; [|done].
      apply (pretty_N_char_cases (fun c => negb (is_delim c))); done. }
    rewrite !string_forall_app, !Hnum. done.
Qed.

Lemma frac_repr_inj (q1 q2 : Qc) : frac_repr q1 = frac_repr q2 -> q1 = q2.
Proof.
  unfold frac_repr. intros Heq.
  assert (Hslash : ∀ z : Z,
    string_forall (fun c => negb (Ascii.eqb c "/")) (pretty z) = true).
  { intros z. apply pretty_Z_chars; [|done].
    apply (pretty_N_char_cases (fun c => negb (Ascii.eqb c "/"))); done. }
  simpl in Heq.
  destruct (split_at_delim (fun c => Ascii.eqb c "/") _ _ "/" _ "/" _
              (Hslash _) (Hslash _) eq_refl eq_refl Heq) as [Hnum Hden].
  apply (inj pretty) in Hnum. injection Hden as Hden. apply (inj pretty) in Hden.
  apply Qc_is_canon. destruct q1 as [[n1 d1] ?], q2 as [[n2 d2] ?].
  simpl in *. by simplify_eq.
Qed.

(** ** The integer board *)

Lemma float_to_int_inr (q : Qc) (z : Z) :
  float_to_int q = inr z <-> z = py_trunc q ∧ fits_int64 q.
Proof.
  unfold float_to_int, fits_int64.
  destruct (- 2 ^ 63 <=? py_trunc q)%Z eqn:Hlo;
    destruct (py_trunc q <? 2 ^ 63)%Z eqn:Hhi; simpl;
    (split; [intros [= <-]|intros [-> ?]]); try (split; [done|]); try lia.
  done.
Qed.

Lemma float_to_int_inl (q : Qc) (e : exn) :
  float_to_int q = inl e <-> e = OverflowError ∧ ¬ fits_int64 q.
Proof.
  unfold float_to_int, fits_int64.
  destruct (- 2 ^ 63 <=? py_trunc q)%Z eqn:Hlo;
    destruct (py_trunc q <? 2 ^ 63)%Z eqn:Hhi; simpl;
    (split; [intros [= <-]|intros [-> Hout]]); try (split; [done|]); try lia.
  all: done.
Qed.

Lemma rmap_float_to_int_inr (l : list Qc) (ys : list Z) :
  rmap float_to_int l = inr ys
  <-> ys = py_trunc <$> l ∧ Forall fits_int64 l.
Proof.
  revert ys. induction l as [|q l IH]; intros ys; simpl.
  - split; [by intros [= <-]|by intros [-> _]].
  - destruct (float_to_int q) as [e|z] eqn:Hq; simpl.
    + apply float_to_int_inl in Hq as [_ Hout].
      split; [discriminate|]. intros [_ Hall].
      inversion Hall as [|? ? Hfit Hrest]. done.
    + apply float_to_int_inr in Hq as [-> Hfit].
      destruct (rmap float_to_int l) as [e|zs] eqn:Hrm; simpl.
      * split; [discriminate|]. intros [_ Hall].
        inversion Hall as [|? ? _ Hrest].
        pose proof (proj2 (IH (py_trunc <$> l)) (conj eq_refl Hrest)) as Hc.
        discriminate Hc.
      * destruct (proj1 (IH zs) eq_refl) as [-> Hall].
        split; [intros [= <-]|by intros [-> _]].
        split; [done|by constructor].
Qed.

Lemma rmap_float_to_int_inl (l : list Qc) (e : exn) :
  rmap float_to_int l = inl e
  <-> e = OverflowError ∧ Exists (fun q => ¬ fits_int64 q) l.
Proof.
  revert e. induction l as [|q l IH]; intros e; simpl.
  - split; [discriminate|]. intros [_ Hex]. inversion Hex.
  - destruct (float_to_int q) as [e'|z] eqn:Hq; simpl.
    + apply float_to_int_inl in Hq as [-> Hout]. split.
      * intros [= <-]. split; [done|by left].
      * by intros [-> _].
    + apply float_to_int_inr in Hq as [-> Hfit].
      destruct (rmap float_to_int l) as [e'|zs] eqn:Hrm; simpl.
      * destruct (proj1 (IH e') eq_refl) as [-> Hex]. split.
        -- intros [= <-]. split; [done|by right].
        -- by intros [-> _].
      * split; [discriminate|]. intros [-> Hex].
        inversion Hex as [? ? Hq'|? ? Hrest]; [done|].
        pose proof (proj2 (IH OverflowError) (conj eq_refl Hrest)) as Hc.
        discriminate Hc.
Qed.

Lemma player_board_inr (player_id : Z) (v : list Qc) (board : list Z) :
  player_board player_id v = inr board
  <-> board = py_trunc <$> player_slice player_id v
      ∧ Forall fits_int64 (player_slice player_id v).
Proof. apply rmap_float_to_int_inr. Qed.

Lemma player_board_inl (player_id : Z) (v : list Qc) (e : exn) :
  player_board player_id v = inl e
  <-> e = OverflowError
      ∧ Exists (fun q => ¬ fits_int64 q) (player_slice player_id v).
Proof. apply rmap_float_to_int_inl. Qed.


Section AgentProperties.

Context {S : Type} `{ValueSchedule S}.

(** *** Running the monad *)


Lemma bind_run {A B} (m : M S A) (k : A -> M S B) self a self1 :
  m self = (inr a, self1) -> bind m k self = k a self1.
Proof. unfold bind. by intros ->. Qed.

Lemma bind_raise {A B} (m : M S A) (k : A -> M S B) self e self1 :
  m self = (inl e, self1) -> bind m k self = (inl e, self1).
Proof. unfold bind. by intros ->. Qed.

Lemma bind_get {B} (k : QLearner S -> M S B) self :
  bind get k self = k self self.
Proof. reflexivity. Qed.

Lemma bind_ret {A B} (a : A) (k : A -> M S B) self :
  bind (ret a) k self = k a self.
Proof. reflexivity. Qed.

Lemma bind_modify {B} (f : QLearner S -> QLearner S) (k : unit -> M S B) self :
  bind (modify f) k self = k tt (f self).
Proof. reflexivity. Qed.

Lemma bind_lift {A B} (r : result A) (k : A -> M S B) self a :
  r = inr a -> bind (lift r) k self = k a self.
Proof. by intros ->. Qed.


(** *** Frames *)

Lemma same_but_store_refl (self : QLearner S) : same_but_store self self.
Proof. by destruct self. Qed.

Lemma same_but_store_trans (s1 s2 s3 : QLearner S) :
  same_but_store s1 s2 -> same_but_store s2 s3 -> same_but_store s1 s3.
Proof.
  unfold same_but_store. intros H12 H23. rewrite H23 at 1. rewrite H12. done.
Qed.

Lemma reads_only_refl (self : QLearner S) : reads_only self self.
Proof. split; [apply same_but_store_refl|apply zero_extension_refl]. Qed.

Lemma reads_only_trans (s1 s2 s3 : QLearner S) :
  reads_only s1 s2 -> reads_only s2 s3 -> reads_only s1 s3.
Proof.
  intros [H12 E12] [H23 E23]. split.
  - by eapply same_but_store_trans.
  - by eapply zero_extension_trans.
Qed.

Lemma frame_ret {A} (a : A) : frame (S:=S) reads_only (ret a).
Proof. intros self. apply reads_only_refl. Qed.

Lemma frame_lift {A} (r : result A) : frame (S:=S) reads_only (lift r).
Proof. intros self. apply reads_only_refl. Qed.

Lemma frame_get : frame (S:=S) reads_only get.
Proof. intros self. apply reads_only_refl. Qed.

Lemma frame_bind {A B} (m : M S A) (k : A -> M S B) :
  frame reads_only m -> (∀ a, frame reads_only (k a)) ->
  frame reads_only (bind m k).
Proof.
  intros Hm Hk self. unfold bind. specialize (Hm self).
  destruct (m self) as [[e|a] self1]; simpl in *; [done|].
  eapply reads_only_trans; [exact Hm|apply Hk].
Qed.

Lemma frame_q_getitem k a : frame (S:=S) reads_only (q_getitem k a).
Proof.
  intros self. unfold q_getitem. simpl. split.
  - by destruct self.
  - apply q_touch_zero_extension.
Qed.

Lemma frame_mmap {A B} (f : A -> M S B) (l : list A) :
  (∀ a, frame reads_only (f a)) -> frame reads_only (mmap f l).
Proof.
  intros Hf. induction l as [|x l IH]; simpl.
  - apply frame_ret.
  - apply frame_bind; [apply Hf|]. intros y.
    apply frame_bind; [apply IH|]. intros ys. apply frame_ret.
Qed.

Lemma q_getitem_run k a (self : QLearner S) :
  q_getitem k a self
  = (inr (q_read (_q_values self) k a), snd (q_getitem k a self)).
Proof. reflexivity. Qed.

(** Reading a whole row returns the stored values (or the default)
    and leaves a state that differs only by inserted defaults. *)
Lemma mmap_q_getitem k (l : list Z) (self : QLearner S) :
  ∃ self', mmap (fun a => q_getitem k (Some a)) l self
           = (inr ((fun a => q_read (_q_values self) k (Some a)) <$> l), self')
           ∧ reads_only self self'.
Proof.
  revert self. induction l as [|a l IH]; intros self; simpl.
  - exists self. split; [done|apply reads_only_refl].
  - pose proof (frame_q_getitem k (Some a) self) as Hfr.
    rewrite (bind_run _ _ _ _ _ (q_getitem_run k (Some a) self)).
    destruct (IH (snd (q_getitem k (Some a) self))) as (self' & Hrun & Hfr').
    rewrite (bind_run _ _ _ _ _ Hrun). exists self'. split.
    + unfold ret. f_equal. f_equal. f_equal.
      apply list_fmap_ext. intros _ b _.
      apply zero_extension_read, Hfr.
    + by eapply reads_only_trans.
Qed.

(** *** The two branches of [_epsilon_greedy] *)

Lemma np_zeros_nonneg (n : Z) :
  (0 <= n)%Z -> np_zeros n = inr (replicate (Z.to_nat n) (Q2Qc 0)).
Proof. intros Hn. unfold np_zeros. destruct (n <? 0)%Z eqn:E; [lia|done]. Qed.

Lemma np_random_choice_run (n : Z) (p : list Qc) (u : Qc) :
  (0 < n)%Z -> Z.of_nat (length p) = n ->
  (∀ x, x ∈ p -> Q2Qc 0 <= x) -> py_sum p = Q2Qc 1 ->
  np_random_choice n p u
  = inr (Z.of_nat (searchsorted_right (np_cumsum p) u)).
Proof.
  intros Hn Hlen Hpos Hsum. unfold np_random_choice.
  destruct (n <=? 0)%Z eqn:E1; [lia|].
  destruct (Z.of_nat (length p) =? n)%Z eqn:E2; [|lia]. simpl.
  assert (Hex : existsb (fun x => bool_decide (x < Q2Qc 0)) p = false).
  { apply not_true_is_false. intros Hex.
    apply existsb_exists in Hex as (x & Hx & Hlt).
    apply bool_decide_eq_true in Hlt. apply list_elem_of_In in Hx.
    by apply Hpos, Qcle_not_lt in Hx. }
  rewrite Hex. by rewrite bool_decide_eq_true_2.
Qed.

Lemma py_inv_nonneg (n : nat) (v : Qc) : py_inv n = inr v -> Q2Qc 0 <= v.
Proof.
  destruct n as [|n]; simpl; [discriminate|]. intros [= <-].
  unfold Qcle. simpl. rewrite !Qred_correct.
  apply Qinv_le_0_compat. unfold Qle. simpl. lia.
Qed.

(** The greedy branch: the stored estimates of the legal actions are
    read, the first maximal one is marked, and the action is drawn
    from the resulting one-point distribution. *)
Lemma greedy_run (self : QLearner S) key (L : list Z) (eps u1 u2 : Qc) :
  L ≠ [] ->
  (∀ a, a ∈ L -> (0 <= a < _num_actions self)%Z) ->
  ¬ u1 < eps ->
  ∃ i best self',
    np_argmax ((fun a => q_read (_q_values self) key (Some a)) <$> L) = inr i
    ∧ L !! i = Some best
    ∧ reads_only self self'
    ∧ _epsilon_greedy key L eps u1 u2 self
      = (inr (Z.of_nat (searchsorted_right
                (np_cumsum (<[Z.to_nat best := Q2Qc 1]>
                   (replicate (Z.to_nat (_num_actions self)) (Q2Qc 0)))) u2),
              <[Z.to_nat best := Q2Qc 1]>
                (replicate (Z.to_nat (_num_actions self)) (Q2Qc 0))),
         self').
Proof.
  intros Hne Hrange Hgreedy.
  destruct (mmap_q_getitem key L self) as (self' & Hrow & Hfr).
  destruct (np_argmax_nonempty ((fun a => q_read (_q_values self) key (Some a)) <$> L))
    as [i Hi].
  { destruct L; [done|discriminate]. }
  destruct (np_argmax_spec _ _ Hi) as (m & Hm & _).
  apply lookup_lt_Some in Hm. rewrite length_fmap in Hm.
  destruct (lookup_lt_is_Some_2 L i Hm) as [best Hbest].
  assert (Hb : (0 <= best < _num_actions self)%Z).
  { apply Hrange. apply list_elem_of_lookup. eauto. }
  assert (Hn : (0 < _num_actions self)%Z) by lia.
  exists i, best, self'. split; [done|]. split; [done|]. split; [done|].
  assert (Hidx : py_index L (Z.of_nat i) = inr best).
  { apply py_index_in_range; [lia|]. by rewrite Nat2Z.id. }
  unfold _epsilon_greedy. rewrite bind_get.
  rewrite (bind_lift _ _ _ _ (np_zeros_nonneg _ (Z.lt_le_incl _ _ Hn))).
  rewrite decide_False by done.
  match goal with
  | |- bind ?m _ _ = _ =>
      assert (HB : m self = (inr (<[Z.to_nat best := Q2Qc 1]>
                       (replicate (Z.to_nat (_num_actions self)) (Q2Qc 0))), self'))
  end.
  { rewrite (bind_run _ _ _ _ _ Hrow).
    rewrite (bind_lift _ _ _ _ Hi), (bind_lift _ _ _ _ Hidx).
    unfold np_set. rewrite norm_index_in_range by (rewrite length_replicate; lia).
    reflexivity. }
  rewrite (bind_run _ _ _ _ _ HB).
  erewrite bind_lift; [reflexivity|].
  apply np_random_choice_run; [lia| | |].
  - rewrite length_insert, length_replicate. lia.
  - intros x Hx. apply list_elem_of_lookup in Hx as [j Hj].
    assert (Hjn : (j < Z.to_nat (_num_actions self))%nat).
    { apply lookup_lt_Some in Hj. by rewrite length_insert, length_replicate in Hj. }
    rewrite one_hot_lookup in Hj by done. injection Hj as <-.
    destruct (decide _); [by apply Qclt_le_weak|apply Qcle_refl].
  - apply one_hot_sum. lia.
Qed.

(** The exploration branch: every legal action receives [1/|L|]. *)
Lemma explore_run (self : QLearner S) key (L : list Z) (eps u1 u2 : Qc) :
  L ≠ [] -> NoDup L ->
  (∀ a, a ∈ L -> (0 <= a < _num_actions self)%Z) ->
  u1 < eps ->
  ∃ v p,
    py_inv (length L) = inr v
    ∧ length p = Z.to_nat (_num_actions self)
    ∧ py_sum p = Q2Qc 1
    ∧ (∀ a, a ∈ L -> p !! Z.to_nat a = Some v)
    ∧ (∀ i, (i < Z.to_nat (_num_actions self))%nat -> Z.of_nat i ∉ L ->
            p !! i = Some (Q2Qc 0))
    ∧ _epsilon_greedy key L eps u1 u2 self
      = (inr (Z.of_nat (searchsorted_right (np_cumsum p) u2), p), self).
Proof.
  intros Hne Hnd Hrange Hexplore.
  destruct (py_inv (length L)) as [e|v] eqn:Hv.
  { destruct L; [done|discriminate]. }
  assert (Hn : (0 < _num_actions self)%Z).
  { destruct L as [|a L]; [done|].
    assert (Ha : a ∈ a :: L) by left. specialize (Hrange a Ha). lia. }
  destruct (np_set_many_spec L (replicate (Z.to_nat (_num_actions self)) (Q2Qc 0)) v)
    as (p & Hp & Hlen & Hsum & Hin & Hout).
  - done.
  - intros a Ha. rewrite length_replicate. specialize (Hrange a Ha). lia.
  - intros a Ha. apply lookup_replicate_2. specialize (Hrange a Ha). lia.
  - rewrite length_replicate in Hlen.
    rewrite py_sum_replicate_0, (py_inv_mult _ _ Hv) in Hsum.
    assert (Hsum1 : py_sum p = Q2Qc 1) by (rewrite Hsum; ring).
    exists v, p. split; [done|]. split; [done|]. split; [done|].
    split; [done|]. split.
    + intros i Hi Hnotin. rewrite Hout by done. by apply lookup_replicate_2.
    + unfold _epsilon_greedy. rewrite bind_get.
      rewrite (bind_lift _ _ _ _ (np_zeros_nonneg _ (Z.lt_le_incl _ _ Hn))).
      rewrite decide_True by done.
      match goal with
      | |- bind ?m _ _ = _ => assert (HB : m self = (inr p, self))
      end.
      { rewrite (bind_lift _ _ _ _ Hv). unfold lift. by rewrite Hp. }
      rewrite (bind_run _ _ _ _ _ HB).
      erewrite bind_lift; [reflexivity|].
      apply np_random_choice_run; [lia|lia| |done].
      intros x Hx. apply list_elem_of_lookup in Hx as [j Hj].
      destruct (decide (Z.of_nat j ∈ L)) as [HjL|HjL].
      * rewrite <- (Nat2Z.id j), (Hin _ HjL) in Hj. injection Hj as <-.
        by eapply py_inv_nonneg.
      * rewrite Hout in Hj by done.
        apply lookup_replicate_1 in Hj as [<- _]. apply Qcle_refl.
Qed.

(** *** Calls that only read *)

Lemma frame_epsilon_greedy key (L : list Z) (eps u1 u2 : Qc) :
  frame (S:=S) reads_only (_epsilon_greedy key L eps u1 u2).
Proof.
  unfold _epsilon_greedy.
  apply frame_bind; [apply frame_get|]. intros self.
  apply frame_bind; [apply frame_lift|]. intros p0.
  apply frame_bind.
  - destruct (decide (u1 < eps)).
    + apply frame_bind; [apply frame_lift|]. intros v. apply frame_lift.
    + apply frame_bind.
      { apply frame_mmap. intros a. apply frame_q_getitem. }
      intros qs. apply frame_bind; [apply frame_lift|]. intros i.
      apply frame_bind; [apply frame_lift|]. intros b. apply frame_lift.
  - intros p. apply frame_bind; [apply frame_lift|]. intros a. apply frame_ret.
Qed.

Lemma frame_act (ts : TimeStep) key (L : list Z) (is_evaluation top1 : bool)
    (u1 u2 : Qc) :
  frame (S:=S) reads_only (act ts key L is_evaluation top1 u1 u2).
Proof.
  unfold act. destruct (negb (last ts)); [|apply frame_ret].
  apply frame_bind; [apply frame_get|]. intros self.
  apply frame_bind; [apply frame_epsilon_greedy|]. intros [a p].
  apply frame_bind; [|intros a'; apply frame_ret].
  destruct (top1 || is_evaluation); [|apply frame_ret].
  apply frame_bind; [apply frame_lift|]. intros i. apply frame_ret.
Qed.

Variable float_repr : Qc -> string.

Lemma frame_step_evaluation (ts : TimeStep) (top1 : bool) (u1 u2 : Qc) :
  frame (S:=S) reads_only (step float_repr ts true top1 u1 u2).
Proof.
  unfold step.
  apply frame_bind; [apply frame_get|]. intros self.
  apply frame_bind; [apply frame_lift|]. intros key.
  apply frame_bind; [apply frame_lift|]. intros L.
  apply frame_bind; [apply frame_act|].
  - intros [a p].
    apply frame_bind; [apply frame_get|]. intros self1.
    apply frame_bind.
    + destruct (pending_key self1); simpl; apply frame_ret.
    + intros [|]; [apply frame_ret|]. simpl.
      apply frame_bind; [apply frame_ret|]. intros _. apply frame_ret.
Qed.

(** At a terminal step an evaluation call does not even read. *)
Lemma step_evaluation_terminal (self : QLearner S) (ts : TimeStep)
    (top1 : bool) (u1 u2 : Qc) :
  last ts = true -> snd (step float_repr ts true top1 u1 u2 self) = self.
Proof.
  intros Hlast. unfold step. rewrite bind_get.
  destruct (state_key float_repr self ts) as [e|key]; [reflexivity|].
  rewrite (bind_lift (inr key) _ _ _ eq_refl).
  destruct (py_index (legal_actions (observations ts)) (_player_id self))
    as [e|L]; [reflexivity|].
  rewrite (bind_lift (inr L) _ _ _ eq_refl).
  unfold act. rewrite Hlast. simpl. rewrite bind_ret, bind_get.
  destruct (pending_key self); reflexivity.
Qed.

(** A non-terminal evaluation call that gets an action from the
    selector returns the most probable action and the selector's
    probabilities. *)
Lemma step_evaluation_run (self self1 : QLearner S) (ts : TimeStep)
    (top1 : bool) (u1 u2 : Qc) key L chosen p i :
  last ts = false ->
  state_key float_repr self ts = inr key ->
  py_index (legal_actions (observations ts)) (_player_id self) = inr L ->
  _epsilon_greedy key L (Q2Qc 0) u1 u2 self = (inr (chosen, p), self1) ->
  np_argmax p = inr i ->
  step float_repr ts true top1 u1 u2 self
  = (inr (Some {| action := Some (Z.of_nat i); probs := Some p |}), self1).
Proof.
  intros Hlast Hkey HL Hsel Hi. unfold step. rewrite bind_get.
  rewrite (bind_lift _ _ _ _ Hkey), (bind_lift _ _ _ _ HL).
  assert (HB : act ts key L true top1 u1 u2 self
               = (inr (Some (Z.of_nat i), Some p), self1)).
  { unfold act, _get_action_probs. rewrite Hlast. cbn [negb].
    rewrite bind_get.
    rewrite (bind_run _ _ _ _ _ Hsel). cbv beta iota. rewrite orb_true_r.
    unfold bind, lift, ret. by rewrite Hi. }
  rewrite (bind_run _ _ _ _ _ HB). rewrite bind_get.
  destruct (pending_key self1); reflexivity.
Qed.

(** *** The learn step *)

Lemma q_getitem_entry k a (self : QLearner S) k' a' :
  q_entry (_q_values (snd (q_getitem k a self))) k' a'
  = if decide (k' = k ∧ a' = a) then Some (q_read (_q_values self) k a)
    else q_entry (_q_values self) k' a'.
Proof. apply q_entry_insert. Qed.

Lemma q_setitem_entry k a v (self : QLearner S) k' a' :
  q_entry (_q_values (snd (q_setitem k a v self))) k' a'
  = if decide (k' = k ∧ a' = a) then Some v
    else q_entry (_q_values self) k' a'.
Proof. apply q_entry_insert. Qed.

Lemma q_getitem_read k a (self : QLearner S) k' a' :
  q_read (_q_values (snd (q_getitem k a self))) k' a'
  = q_read (_q_values self) k' a'.
Proof. apply zero_extension_read, frame_q_getitem. Qed.

Lemma q_setitem_read k a v (self : QLearner S) :
  q_read (_q_values (snd (q_setitem k a v self))) k a = v.
Proof. rewrite q_read_entry, q_setitem_entry. by rewrite decide_True. Qed.

Lemma bind_q_getitem {B} k a (f : Qc -> M S B) self :
  bind (q_getitem k a) f self
  = f (q_read (_q_values self) k a) (snd (q_getitem k a self)).
Proof. reflexivity. Qed.

Lemma bind_q_setitem {B} k a v (f : unit -> M S B) self :
  bind (q_setitem k a v) f self = f tt (snd (q_setitem k a v self)).
Proof. reflexivity. Qed.

(** The update itself, from the state [self2] in which the target has
    been computed. *)
Lemma learn_update_run (self2 : QLearner S) prev target (terminal : bool) :
  ∃ self',
    (let* old := q_getitem prev (_prev_action self2) in
     let* cur := q_getitem prev (_prev_action self2) in
     let* _ := q_setitem prev (_prev_action self2)
                 (old + _step_size self2 * (target - cur)) in
     let* new := q_getitem prev (_prev_action self2) in
     let* _ := modify (set_last_loss_value (Some (new - target))) in
     let* _ := modify (fun self =>
                 let (e, sched) := sched_step (_epsilon_schedule self) in
                 set_epsilon e sched self) in
     if terminal then
       let* _ := modify (set_prev_info_state None) in
       ret true
     else ret false) self2 = (inr terminal, self')
    ∧ td_update self2 self' prev target terminal.
Proof.
  rewrite bind_q_getitem, bind_q_getitem, bind_q_setitem, bind_q_getitem.
  rewrite !bind_modify.
  set (pa := _prev_action self2).
  set (s3 := snd (q_getitem prev pa self2)).
  set (s4 := snd (q_getitem prev pa s3)).
  rewrite (q_getitem_read prev pa self2 prev pa : q_read (_q_values s3) prev pa = _).
  set (old := q_read (_q_values self2) prev pa).
  set (new := old + _step_size self2 * (target - old)).
  set (s5 := snd (q_setitem prev pa new s4)).
  set (s6 := snd (q_getitem prev pa s5)).
  rewrite (q_setitem_read prev pa new s4 : q_read (_q_values s5) prev pa = _).
  assert (Hentry : ∀ k a, q_entry (_q_values s6) k a
            = if decide (k = prev ∧ a = pa) then Some new
              else q_entry (_q_values self2) k a).
  { intros k a. unfold s6. rewrite q_getitem_entry.
    fold s5. rewrite (q_setitem_read prev pa new s4 : q_read (_q_values s5) prev pa = _).
    destruct (decide (k = prev ∧ a = pa)) as [Heq|Hne]; [done|].
    unfold s5. rewrite q_setitem_entry, decide_False by done.
    unfold s4. rewrite q_getitem_entry, decide_False by done.
    unfold s3. rewrite q_getitem_entry, decide_False by done. done. }
  destruct terminal.
  - eexists. split; [rewrite bind_modify; reflexivity|].
    unfold td_update. fold pa old new. simpl.
    destruct (sched_step (_epsilon_schedule self2)) as [e sched]. simpl.
    split; [exact Hentry|]. done.
  - eexists. split; [reflexivity|].
    unfold td_update. fold pa old new. simpl.
    destruct (sched_step (_epsilon_schedule self2)) as [e sched]. simpl.
    split; [exact Hentry|]. done.
Qed.

Lemma same_but_store_fields (self self' : QLearner S) :
  same_but_store self self' ->
  _player_id self' = _player_id self
  ∧ _num_actions self' = _num_actions self
  ∧ _step_size self' = _step_size self
  ∧ _epsilon_schedule self' = _epsilon_schedule self
  ∧ _epsilon self' = _epsilon self
  ∧ _discount_factor self' = _discount_factor self
  ∧ _centralized self' = _centralized self
  ∧ _prev_info_state self' = _prev_info_state self
  ∧ _last_loss_value self' = _last_loss_value self
  ∧ _prev_action self' = _prev_action self
  ∧ _rules self' = _rules self.
Proof. intros ->. simpl. done. Qed.

Lemma same_but_store_reward (self self' : QLearner S) ts :
  same_but_store self self' ->
  _get_action_reward self' ts = _get_action_reward self ts.
Proof.
  intros Hs. apply same_but_store_fields in Hs
    as (Hid & _ & _ & _ & _ & _ & _ & _ & _ & _ & Hr).
  unfold _get_action_reward. by rewrite Hid, Hr.
Qed.

Lemma same_but_store_pending (self self' : QLearner S) :
  same_but_store self self' -> pending_key self' = pending_key self.
Proof.
  intros Hs. apply same_but_store_fields in Hs
    as (_ & _ & _ & _ & _ & _ & _ & Hp & _).
  unfold pending_key. by rewrite Hp.
Qed.

Lemma learn_run (self1 : QLearner S) ts key (L : list Z) prev reward :
  _get_action_reward self1 ts = inr reward ->
  (last ts = false -> L ≠ []) ->
  ∃ target self2 self',
    learn ts key L prev self1 = (inr (last ts), self')
    ∧ reads_only self1 self2
    ∧ (if last ts then target = reward ∧ self2 = self1
       else ∃ best,
           py_max ((fun a => q_read (_q_values self1) key (Some a)) <$> L) = inr best
           ∧ target = reward + _discount_factor self1 * best)
    ∧ td_update self2 self' prev target (last ts).
Proof.
  intros Hrew Hne. unfold learn. rewrite bind_get, (bind_lift _ _ _ _ Hrew).
  destruct (last ts) eqn:Hlast.
  - rewrite bind_ret.
    destruct (learn_update_run self1 prev reward true) as (self' & Hrun & Hupd).
    exists reward, self1, self'.
    split; [exact Hrun|]. split; [apply reads_only_refl|]. done.
  - destruct (mmap_q_getitem key L self1) as (self2 & Hrow & Hfr).
    destruct (py_max_nonempty ((fun a => q_read (_q_values self1) key (Some a)) <$> L))
      as [best Hbest].
    { specialize (Hne eq_refl). destruct L; [done|discriminate]. }
    set (target := reward + _discount_factor self1 * best).
    match goal with
    | |- ∃ _ _ _, bind ?m _ _ = _ ∧ _ =>
        assert (HB : m self1 = (inr target, self2))
    end.
    { rewrite (bind_run _ _ _ _ _ Hrow), (bind_lift _ _ _ _ Hbest). reflexivity. }
    destruct (same_but_store_fields _ _ (proj1 Hfr))
      as (_ & _ & Hss & _ & _ & _ & _ & _ & _ & Hpa & _).
    destruct (learn_update_run self2 prev target false) as (self' & Hrun & Hupd).
    exists target, self2, self'. split.
    + rewrite (bind_run _ _ _ _ _ HB). rewrite <- Hpa, <- Hss. exact Hrun.
    + split; [done|]. split; [|done]. by exists best.
Qed.


(** *** No legal action *)

Lemma epsilon_greedy_empty (self : QLearner S) key (eps u1 u2 : Qc) :
  ∃ e, _epsilon_greedy key [] eps u1 u2 self = (inl e, self)
       ∧ ((0 <= _num_actions self)%Z ->
          e = if decide (u1 < eps) then ZeroDivisionError else ValueError).
Proof.
  unfold _epsilon_greedy. rewrite bind_get. unfold np_zeros.
  destruct (_num_actions self <? 0)%Z eqn:Hn.
  - exists ValueError. split; [reflexivity|]. lia.
  - rewrite (bind_lift _ _ _ _ eq_refl).
    destruct (decide (u1 < eps)).
    + exists ZeroDivisionError. split; [reflexivity|done].
    + exists ValueError. split; [reflexivity|done].
Qed.

Lemma act_empty (self : QLearner S) ts key (is_evaluation top1 : bool) (u1 u2 : Qc) :
  last ts = false ->
  ∃ e, act ts key [] is_evaluation top1 u1 u2 self = (inl e, self).
Proof.
  intros Hlast. unfold act, _get_action_probs. rewrite Hlast. cbn [negb].
  rewrite bind_get.
  destruct (epsilon_greedy_empty self key
              (if is_evaluation then Q2Qc 0 else _epsilon self) u1 u2)
    as (e & He & _).
  exists e. by rewrite (bind_raise _ _ _ _ _ He).
Qed.

(** *** A training call with a pending transition *)

Lemma step_training_run (self self1 : QLearner S) ts (top1 : bool)
    (u1 u2 : Qc) key L prev reward a p :
  state_key float_repr self ts = inr key ->
  py_index (legal_actions (observations ts)) (_player_id self) = inr L ->
  act ts key L false top1 u1 u2 self = (inr (a, p), self1) ->
  pending_key self = Some prev ->
  _get_action_reward self ts = inr reward ->
  ∃ target self2 self3,
    reads_only self self2
    ∧ (last ts = true -> self2 = self)
    ∧ (if last ts then target = reward
       else ∃ best,
           py_max ((fun a => q_read (_q_values self) key (Some a)) <$> L) = inr best
           ∧ target = reward + _discount_factor self * best)
    ∧ td_update self2 self3 prev target (last ts)
    ∧ step float_repr ts false top1 u1 u2 self
      = if last ts then (inr None, self3)
        else (inr (Some {| action := a; probs := p |}),
              set_prev_action a (set_prev_info_state (Some key) self3)).
Proof.
  intros Hkey HL Hact Hpend Hrew.
  pose proof (frame_act ts key L false top1 u1 u2 self) as Hfr.
  rewrite Hact in Hfr. simpl in Hfr.
  assert (Hne : last ts = false -> L ≠ []).
  { intros Hlast ->. destruct (act_empty self ts key false top1 u1 u2 Hlast) as [e He].
    rewrite He in Hact. discriminate. }
  assert (Hterm : last ts = true -> self1 = self).
  { intros Hlast. unfold act in Hact. rewrite Hlast in Hact. by injection Hact. }
  rewrite <- (same_but_store_reward _ _ ts (proj1 Hfr)) in Hrew.
  rewrite <- (same_but_store_pending _ _ (proj1 Hfr)) in Hpend.
  destruct (learn_run self1 ts key L prev reward Hrew Hne)
    as (target & self2 & self3 & Hlearn & Hfr2 & Htarget & Hupd).
  exists target, self2, self3.
  split; [by eapply reads_only_trans|]. split.
  { intros Hlast. rewrite Hlast in Htarget. destruct Htarget as [_ ->]. auto. }
  split.
  { destruct (last ts); [tauto|]. destruct Htarget as (best & Hbest & ->).
    exists best. split.
    - rewrite <- Hbest. f_equal. apply list_fmap_ext. intros _ b _.
      symmetry. apply zero_extension_read, Hfr.
    - destruct (same_but_store_fields _ _ (proj1 Hfr))
        as (_ & _ & _ & _ & _ & -> & _). done. }
  split; [done|].
  unfold step. rewrite bind_get.
  rewrite (bind_lift _ _ _ _ Hkey), (bind_lift _ _ _ _ HL).
  rewrite (bind_run _ _ _ _ _ Hact). cbv beta iota.
  rewrite bind_get, Hpend. cbn [negb].
  rewrite (bind_run _ _ _ _ _ Hlearn).
  destruct (last ts); reflexivity.
Qed.

(** ** The claims about the action selector *)

(** C3. For a non-empty duplicate-free list [L] of legal action ids
    (integers in [0, num_actions)) and any epsilon and draws, the
    selector returns, and the probability vector it returns has
    length [num_actions], sums to 1 and is 0 at every action outside
    [L]; in the exploration branch every action of [L] has
    probability [1/|L|], in the greedy branch one action of [L] has
    probability 1 and every other action 0. *)
Theorem epsilon_greedy_probs (self : QLearner S) (key : string)
    (L : list Z) (eps u1 u2 : Qc) :
  L ≠ [] -> NoDup L ->
  (∀ a, a ∈ L -> (0 <= a < _num_actions self)%Z) ->
  ∃ chosen p self',
    _epsilon_greedy key L eps u1 u2 self = (inr (chosen, p), self')
    ∧ Z.of_nat (length p) = _num_actions self
    ∧ py_sum p = Q2Qc 1
    ∧ (∀ a, (0 <= a < _num_actions self)%Z -> a ∉ L ->
            p !! Z.to_nat a = Some (Q2Qc 0))
    ∧ (u1 < eps ->
       ∀ a, a ∈ L -> p !! Z.to_nat a = Some (/ Qc_of_nat (length L)))
    ∧ (¬ u1 < eps ->
       ∃ b, b ∈ L ∧ p !! Z.to_nat b = Some (Q2Qc 1)
            ∧ ∀ a, (0 <= a < _num_actions self)%Z -> a ≠ b ->
                   p !! Z.to_nat a = Some (Q2Qc 0)).
Proof.
  intros Hne Hnd Hrange.
  assert (Hn : (0 < _num_actions self)%Z).
  { destruct L as [|a L]; [done|].
    assert (Ha : a ∈ a :: L) by left. specialize (Hrange a Ha). lia. }
  destruct (decide (u1 < eps)) as [Hexplore|Hgreedy].
  - destruct (explore_run self key L eps u1 u2 Hne Hnd Hrange Hexplore)
      as (v & p & Hv & Hlen & Hsum & Hin & Hout & Hrun).
    eexists _, p, self. split; [exact Hrun|].
    split; [lia|]. split; [done|]. split.
    { intros a Ha HaL. apply Hout; [lia|]. by rewrite Z2Nat.id by lia. }
    split; [|done].
    intros _ a Ha. rewrite (Hin a Ha). f_equal.
    destruct L; [done|]. simpl in Hv. by injection Hv as <-.
  - destruct (greedy_run self key L eps u1 u2 Hne Hrange Hgreedy)
      as (i & best & self' & Hi & Hbest & Hfr & Hrun).
    assert (HbL : best ∈ L) by (apply list_elem_of_lookup; eauto).
    pose proof (Hrange best HbL) as Hb.
    eexists _, _, self'. split; [exact Hrun|].
    split; [rewrite length_insert, length_replicate; lia|].
    split; [apply one_hot_sum; lia|]. split.
    { intros a Ha HaL. rewrite one_hot_lookup by lia.
      rewrite decide_False; [done|]. intros Heq. apply HaL.
      replace a with best by lia. done. }
    split; [done|]. intros _. exists best. split; [done|]. split.
    + rewrite one_hot_lookup by lia. by rewrite decide_True.
    + intros a Ha Hab. rewrite one_hot_lookup by lia.
      rewrite decide_False; [done|]. lia.
Qed.

(** C4. With an empty list of legal actions the selector raises, in
    either branch, and leaves the agent as it was: the division
    [1 / len(legal_actions)] raises [ZeroDivisionError] in the
    exploration branch, [np.argmax] of the empty array raises
    [ValueError] in the greedy branch.  A call of [step] at a
    non-terminal time step whose legal-action list is empty therefore
    raises and returns no step result. *)
Theorem no_legal_actions (self : QLearner S) (ts : TimeStep)
    (is_evaluation top1 : bool) (key : string) (eps u1 u2 : Qc) :
  last ts = false ->
  py_index (legal_actions (observations ts)) (_player_id self) = inr [] ->
  (∃ e, _epsilon_greedy key [] eps u1 u2 self = (inl e, self)
        ∧ ((0 <= _num_actions self)%Z ->
           e = if decide (u1 < eps) then ZeroDivisionError else ValueError))
  ∧ ∃ e, step float_repr ts is_evaluation top1 u1 u2 self = (inl e, self).
Proof.
  intros Hlast HL. split; [apply epsilon_greedy_empty|].
  unfold step. rewrite bind_get.
  destruct (state_key float_repr self ts) as [e|k] eqn:Hkey.
  { exists e. reflexivity. }
  rewrite (bind_lift (inr k) _ _ _ eq_refl), (bind_lift _ _ _ _ HL).
  destruct (act_empty self ts k is_evaluation top1 u1 u2 Hlast) as [e He].
  exists e. by rewrite (bind_raise _ _ _ _ _ He).
Qed.

(** C9. In the greedy branch (the draw [u1] is not below epsilon) on
    a non-empty list [L] of legal action ids, the selector returns
    the first action of [L], in the order of [L], whose stored
    estimate is maximal: no action of [L] has a larger estimate and
    every action before it has a strictly smaller one.  The choice
    does not depend on the draws: a further greedy call on the
    resulting agent returns the same action and probabilities.  An
    evaluation call of [step] uses epsilon 0, so it takes the greedy
    branch for every draw [u1 >= 0] and returns that same action. *)
Theorem greedy_first_maximal (self : QLearner S)
    (key : string) (L : list Z) (eps u1 u2 : Qc) :
  L ≠ [] ->
  (∀ a, a ∈ L -> (0 <= a < _num_actions self)%Z) ->
  ¬ u1 < eps ->
  Q2Qc 0 <= u2 -> u2 < Q2Qc 1 ->
  let estimate a := q_read (_q_values self) key (Some a) in
  ∃ i best p self',
    _epsilon_greedy key L eps u1 u2 self = (inr (best, p), self')
    ∧ L !! i = Some best
    ∧ (∀ a, a ∈ L -> estimate a <= estimate best)
    ∧ (∀ j a, (j < i)%nat -> L !! j = Some a -> estimate a < estimate best)
    ∧ (∀ eps' u1' u2', ¬ u1' < eps' -> Q2Qc 0 <= u2' -> u2' < Q2Qc 1 ->
         ∃ self'', _epsilon_greedy key L eps' u1' u2' self'
                   = (inr (best, p), self''))
    ∧ (∀ ts top1 u1',
         last ts = false -> Q2Qc 0 <= u1' ->
         state_key float_repr self ts = inr key ->
         py_index (legal_actions (observations ts)) (_player_id self) = inr L ->
         fst (step float_repr ts true top1 u1' u2 self)
         = inr (Some {| action := Some best; probs := Some p |})).
Proof.
  intros Hne Hrange Hgreedy Hu0 Hu1 estimate.
  destruct (greedy_run self key L eps u1 u2 Hne Hrange Hgreedy)
    as (i & best & self' & Hi & Hbest & Hfr & Hrun).
  assert (HbL : best ∈ L) by (apply list_elem_of_lookup; eauto).
  pose proof (Hrange best HbL) as Hb.
  rewrite one_hot_searchsorted in Hrun by (done || lia).
  rewrite Z2Nat.id in Hrun by lia.
  destruct (np_argmax_spec _ _ Hi) as (m & Hm & Hall & Hbefore).
  rewrite list_lookup_fmap, Hbest in Hm. injection Hm as <-.
  exists i, best. eexists _, self'. split; [exact Hrun|]. split; [done|].
  split.
  { intros a Ha. apply Hall. apply list_elem_of_fmap. eauto. }
  split.
  { intros j a Hj Ha. apply (Hbefore j); [done|].
    by rewrite list_lookup_fmap, Ha. }
  split.
  - intros eps' u1' u2' Hgreedy' Hu0' Hu1'.
    destruct (same_but_store_fields _ _ (proj1 Hfr)) as (_ & Hn & _).
    assert (Hrange' : ∀ a, a ∈ L -> (0 <= a < _num_actions self')%Z).
    { intros a Ha. rewrite Hn. by apply Hrange. }
    destruct (greedy_run self' key L eps' u1' u2' Hne Hrange' Hgreedy')
      as (i' & best' & self'' & Hi' & Hbest' & _ & Hrun').
    assert (Hsame : (fun a => q_read (_q_values self') key (Some a)) <$> L
                    = (fun a => q_read (_q_values self) key (Some a)) <$> L).
    { apply list_fmap_ext. intros _ a _. apply zero_extension_read, Hfr. }
    rewrite Hsame, Hi in Hi'. injection Hi' as <-.
    rewrite Hbest in Hbest'. injection Hbest' as <-.
    rewrite one_hot_searchsorted in Hrun' by (done || lia).
    rewrite Z2Nat.id, Hn in Hrun' by lia.
    exists self''. exact Hrun'.
  - intros ts top1 u1' Hlast Hu1' Hkey HL.
    assert (Hgreedy' : ¬ u1' < Q2Qc 0) by by apply Qcle_not_lt.
    destruct (greedy_run self key L (Q2Qc 0) u1' u2 Hne Hrange Hgreedy')
      as (i' & best' & self'' & Hi' & Hbest' & _ & Hrun').
    rewrite Hi in Hi'. injection Hi' as <-.
    rewrite Hbest in Hbest'. injection Hbest' as <-.
    rewrite (step_evaluation_run self self'' ts top1 u1' u2 key L _ _
               (Z.to_nat best) Hlast Hkey HL Hrun').
    + simpl. by rewrite Z2Nat.id by lia.
    + apply one_hot_argmax. lia.
Qed.

(** ** The claims about [step] *)

(** C1. A training call with a pending transition [(prev,
    _prev_action)] whose observation lookups, act step and reward
    computation do not raise returns, and: the TD target is the
    reward of [_get_action_reward] when the time step is terminal
    and otherwise that reward plus [discount_factor] times the
    maximum of the estimates stored before the call for the legal
    actions of the current state (a missing entry counts as 0.0);
    the entry at [(prev, _prev_action)] becomes
    [old + step_size * (target - old)]; the recorded loss is the new
    estimate minus the target.  With step size 0.5, discount 1, no
    rules, a terminal reward of 1 and an old estimate of 0 the new
    estimate is 0.5 and the loss is -0.5. *)
Theorem step_td_update (self self1 : QLearner S) (ts : TimeStep)
    (top1 : bool) (u1 u2 : Qc) key L prev reward a p :
  state_key float_repr self ts = inr key ->
  py_index (legal_actions (observations ts)) (_player_id self) = inr L ->
  act ts key L false top1 u1 u2 self = (inr (a, p), self1) ->
  pending_key self = Some prev ->
  _get_action_reward self ts = inr reward ->
  let estimates := (fun a => q_read (_q_values self) key (Some a)) <$> L in
  let old := q_read (_q_values self) prev (_prev_action self) in
  ∃ target out self',
    step float_repr ts false top1 u1 u2 self = (inr out, self')
    ∧ (if last ts then target = reward
       else ∃ best, py_max estimates = inr best
                    ∧ best ∈ estimates
                    ∧ (∀ y, y ∈ estimates -> y <= best)
                    ∧ target = reward + _discount_factor self * best)
    ∧ q_entry (_q_values self') prev (_prev_action self)
      = Some (old + _step_size self * (target - old))
    ∧ _last_loss_value self'
      = Some (old + _step_size self * (target - old) - target)
    ∧ (_step_size self = Q2Qc (1 # 2) -> _discount_factor self = Q2Qc 1 ->
       last ts = true -> rules_configured (_rules self) = [] ->
       (∃ rs, rewards ts = Some rs
              ∧ py_index rs (_player_id self) = inr (Q2Qc 1)) ->
       old = Q2Qc 0 ->
       q_entry (_q_values self') prev (_prev_action self) = Some (Q2Qc (1 # 2))
       ∧ _last_loss_value self' = Some (Q2Qc (-1 # 2))).
Proof.
  intros Hkey HL Hact Hpend Hrew estimates old.
  destruct (step_training_run self self1 ts top1 u1 u2 key L prev reward a p
              Hkey HL Hact Hpend Hrew)
    as (target & self2 & self3 & Hfr & _ & Htarget & Hupd & Hstep).
  destruct Hupd as (Hentry & Hloss & _).
  destruct (same_but_store_fields _ _ (proj1 Hfr))
    as (_ & _ & Hss & _ & _ & _ & _ & _ & _ & Hpa & _).
  rewrite (zero_extension_read _ _ prev _ (proj2 Hfr)), Hss, Hpa in Hentry, Hloss.
  fold old in Hentry, Hloss.
  specialize (Hentry prev (_prev_action self)). rewrite decide_True in Hentry by done.
  assert (Hout : ∃ out self',
    step float_repr ts false top1 u1 u2 self = (inr out, self')
    ∧ _q_values self' = _q_values self3
    ∧ _last_loss_value self' = _last_loss_value self3).
  { rewrite Hstep. destruct (last ts); eexists _, _; (split; [reflexivity|done]). }
  destruct Hout as (out & self' & Hrun & Hq & Hl).
  exists target, out, self'.
  split; [exact Hrun|]. split.
  { destruct (last ts); [done|]. destruct Htarget as (best & Hbest & Ht).
    exists best. destruct (py_max_spec _ _ Hbest) as [Hin Hall]. done. }
  rewrite Hq, Hl. split; [done|]. split; [done|].
  intros Hstep_size Hdisc Hlast Hrules (rs & Hrs & Hr) Hold.
  rewrite Hlast in Htarget.
  assert (Hreward : reward = Q2Qc 1).
  { unfold _get_action_reward in Hrew. rewrite Hrs, Hrules, Hr in Hrew.
    simpl in Hrew. injection Hrew as <-. by apply Qc_is_canon. }
  rewrite Hentry, Hloss, Htarget, Hreward, Hold, Hstep_size.
  split; f_equal; by apply Qc_is_canon.
Qed.

(** C7, as the code has it.  A training call at a terminal time step
    with a pending transition [(prev, _prev_action)], whose
    observation lookups and reward computation do not raise, performs
    the TD update with the reward as target, advances the schedule
    once and returns, yielding neither an action nor a probability
    vector.  Afterwards the pending key [_prev_info_state] is [None],
    the field [_prev_action] still holds the prior action, and the
    value store differs from the store before the call at
    [(prev, _prev_action)] only. *)
Theorem step_terminal_training (self : QLearner S) (ts : TimeStep)
    (top1 : bool) (u1 u2 : Qc) key L prev reward :
  last ts = true ->
  state_key float_repr self ts = inr key ->
  py_index (legal_actions (observations ts)) (_player_id self) = inr L ->
  pending_key self = Some prev ->
  _get_action_reward self ts = inr reward ->
  let old := q_read (_q_values self) prev (_prev_action self) in
  let new := old + _step_size self * (reward - old) in
  ∃ out self',
    step float_repr ts false top1 u1 u2 self = (inr out, self')
    ∧ out ≫= action = None
    ∧ out ≫= probs = None
    ∧ _prev_info_state self' = None
    ∧ _prev_action self' = _prev_action self
    ∧ (∀ k a, q_entry (_q_values self') k a
              = if decide (k = prev ∧ a = _prev_action self) then Some new
                else q_entry (_q_values self) k a)
    ∧ _last_loss_value self' = Some (new - reward)
    ∧ (_epsilon self', _epsilon_schedule self')
      = sched_step (_epsilon_schedule self).
Proof.
  intros Hlast Hkey HL Hpend Hrew old new.
  assert (Hact : act ts key L false top1 u1 u2 self = (inr (None, None), self)).
  { unfold act. by rewrite Hlast. }
  destruct (step_training_run self self ts top1 u1 u2 key L prev reward _ _
              Hkey HL Hact Hpend Hrew)
    as (target & self2 & self3 & _ & Hsame & Htarget & Hupd & Hstep).
  rewrite Hlast in Htarget, Hstep, Hupd. subst target.
  rewrite (Hsame Hlast) in Hupd.
  destruct Hupd as (Hentry & Hloss & Hsched & Hprev & Hpa & _).
  exists None, self3. done.
Qed.

(** C2, as the code has it.  A call of [step] with
    [is_evaluation=True], whether it returns or raises, leaves every
    field of the agent other than the value store as it was (the
    schedule and [_epsilon], the pending key and action, the loss);
    in the value store every entry keeps its value, every entry that
    is new holds 0.0, so every read with the default returns what it
    returned before; at a terminal time step the agent is identical
    before and after. *)
Theorem step_evaluation_frame (self : QLearner S) (ts : TimeStep)
    (top1 : bool) (u1 u2 : Qc) :
  let self' := snd (step float_repr ts true top1 u1 u2 self) in
  self' = set_q_values (_q_values self') self
  ∧ _epsilon self' = _epsilon self
  ∧ _epsilon_schedule self' = _epsilon_schedule self
  ∧ _prev_info_state self' = _prev_info_state self
  ∧ _prev_action self' = _prev_action self
  ∧ _last_loss_value self' = _last_loss_value self
  ∧ (∀ k a v, q_entry (_q_values self) k a = Some v ->
              q_entry (_q_values self') k a = Some v)
  ∧ (∀ k a v, q_entry (_q_values self') k a = Some v ->
              q_entry (_q_values self) k a = Some v
              ∨ (q_entry (_q_values self) k a = None ∧ v = Q2Qc 0))
  ∧ (∀ k a, q_read (_q_values self') k a = q_read (_q_values self) k a)
  ∧ (last ts = true -> self' = self).
Proof.
  intros self'.
  destruct (frame_step_evaluation ts top1 u1 u2 self) as [Hsame Hext].
  fold self' in Hsame, Hext.
  destruct (same_but_store_fields _ _ Hsame)
    as (_ & _ & _ & Hsched & Heps & _ & _ & Hprev & Hloss & Hpa & _).
  split; [exact Hsame|]. split; [done|]. split; [done|]. split; [done|].
  split; [done|]. split; [done|]. split.
  { intros k a v Hv. destruct (Hext k a) as [->|[Hnone _]]; congruence. }
  split.
  { intros k a v Hv. destruct (Hext k a) as [Heq|[Hnone Hzero]].
    - left. congruence.
    - right. split; [done|]. congruence. }
  split.
  { intros k a. by apply zero_extension_read. }
  apply step_evaluation_terminal.
Qed.

(** ** The claims about the reward *)

(** C6, as the code has it.  When the environment reports no rewards
    the reward fed to the update is 0.0 and no rule is applied.  When
    it reports rewards, the reward is the entry of this player plus
    the sum of the bonuses of all configured rules, each applied to
    the integer board cut out of player 0's observation vector (plus
    0 when no rule is configured).  When rules are configured and an
    entry of that slice has an integer part outside the 64-bit
    integers, the conversion of the board raises [OverflowError] and
    so does the reward computation.  The computation does not look
    at the step type, so the bonuses are added at terminal and at
    non-terminal steps alike. *)
Theorem reward_shaping (self : QLearner S) (ts : TimeStep) :
  (rewards ts = None -> _get_action_reward self ts = inr (Q2Qc 0))
  ∧ (∀ rs r,
       rewards ts = Some rs -> py_index rs (_player_id self) = inr r ->
       (rules_configured (_rules self) = [] ->
        _get_action_reward self ts = inr (r + Q2Qc 0))
       ∧ (∀ obs0 rest board bonuses,
            rules_configured (_rules self) ≠ [] ->
            info_state (observations ts) = obs0 :: rest ->
            player_board (_player_id self) obs0 = inr board ->
            rmap (fun rule : rule => rule board)
              (rules_configured (_rules self)) = inr bonuses ->
            _get_action_reward self ts = inr (r + py_sum bonuses)))
  ∧ (∀ rs obs0 rest,
       rewards ts = Some rs ->
       rules_configured (_rules self) ≠ [] ->
       info_state (observations ts) = obs0 :: rest ->
       Exists (fun q => ¬ fits_int64 q) (player_slice (_player_id self) obs0) ->
       _get_action_reward self ts = inl OverflowError)
  ∧ (∀ st, _get_action_reward self (with_step_type st ts)
           = _get_action_reward self ts).
Proof.
  split; [|split; [|split]].
  - intros Hnone. unfold _get_action_reward. by rewrite Hnone.
  - intros rs r Hrs Hr. split.
    + intros Hrules. unfold _get_action_reward. rewrite Hrs, Hrules. simpl.
      by rewrite Hr.
    + intros obs0 rest board bonuses Hrules Hobs Hboard Hbonuses.
      unfold _get_action_reward. rewrite Hrs, Hobs.
      destruct (rules_configured (_rules self)) as [|rule0 rules]; [done|].
      unfold player_board, player_slice in Hboard.
      change (py_index (obs0 :: rest) 0) with (inr obs0 : result (list Qc)).
      cbn [rbind]. rewrite Hboard. cbn [rbind]. rewrite Hbonuses. simpl.
      by rewrite Hr.
  - intros rs obs0 rest Hrs Hrules Hobs Hout.
    assert (Hboard : player_board (_player_id self) obs0 = inl OverflowError)
      by by apply player_board_inl.
    unfold _get_action_reward. rewrite Hrs, Hobs.
    destruct (rules_configured (_rules self)) as [|rule0 rules]; [done|].
    unfold player_board, player_slice in Hboard.
    change (py_index (obs0 :: rest) 0) with (inr obs0 : result (list Qc)).
    cbn [rbind]. by rewrite Hboard.
  - intros st. reflexivity.
Qed.

(** C10. When rewards are reported and at least one rule is
    configured, every rule is called with one and the same board, cut
    out of [observations["info_state"][0]], the observation vector of
    player 0, whichever player the agent is: its entry [i] is the
    integer part of entry [9 + i] of that vector, for [i < 9], when
    [player_id] is 0, and of entry [18 + i] for any other
    [player_id]; the board is built unless one of these entries has
    an integer part outside the 64-bit integers, and then the
    conversion raises [OverflowError].  The observation vectors of
    the other players do not enter the reward. *)
Theorem reward_board_source (self : QLearner S) (ts : TimeStep) rs obs0 rest :
  rewards ts = Some rs ->
  rules_configured (_rules self) ≠ [] ->
  info_state (observations ts) = obs0 :: rest ->
  _get_action_reward self ts
  = (let? board := player_board (_player_id self) obs0 in
     let? bonuses := rmap (fun rule : rule => rule board)
                       (rules_configured (_rules self)) in
     let? r := py_index rs (_player_id self) in
     inr (r + py_sum bonuses))
  ∧ (∀ board, player_board (_player_id self) obs0 = inr board ->
       ∀ i : nat,
         board !! i
         = if (_player_id self =? 0)%Z
           then (if decide (i < 9)%nat then py_trunc <$> obs0 !! (9 + i)%nat
                 else None)
           else py_trunc <$> obs0 !! (18 + i)%nat)
  ∧ (∀ e, player_board (_player_id self) obs0 = inl e
          <-> e = OverflowError
              ∧ Exists (fun q => ¬ fits_int64 q)
                  (player_slice (_player_id self) obs0))
  ∧ (∀ rest', _get_action_reward self (with_info_state (obs0 :: rest') ts)
              = _get_action_reward self ts).
Proof.
  intros Hrs Hrules Hobs.
  assert (Hform : ∀ ts', rewards ts' = Some rs ->
            (∃ rest', info_state (observations ts') = obs0 :: rest') ->
            _get_action_reward self ts'
            = (let? board := player_board (_player_id self) obs0 in
               let? bonuses := rmap (fun rule : rule => rule board)
                                 (rules_configured (_rules self)) in
               let? r := py_index rs (_player_id self) in
               inr (r + py_sum bonuses))).
  { intros ts' Hrs' [rest' Hobs']. unfold _get_action_reward.
    rewrite Hrs', Hobs'.
    destruct (rules_configured (_rules self)) as [|rule0 rules]; [done|].
    change (py_index (obs0 :: rest') 0) with (inr obs0 : result (list Qc)).
    cbn [rbind]. unfold player_board, player_slice.
    destruct (rmap float_to_int _) as [e|board]; [reflexivity|]. cbn [rbind].
    destruct (rmap _ (rule0 :: rules)); reflexivity. }
  split; [apply Hform; eauto|]. split; [|split].
  - intros board Hboard i. apply player_board_inr in Hboard as [-> _].
    unfold player_slice, py_slice, py_slice_from.
    destruct (_player_id self =? 0)%Z.
    + rewrite list_lookup_fmap. destruct (decide (i < 9)%nat).
      * by rewrite lookup_take_lt, lookup_drop by lia.
      * by rewrite lookup_take_ge by lia.
    + by rewrite list_lookup_fmap, lookup_drop.
  - intros e. apply player_board_inl.
  - intros rest'. rewrite (Hform ts Hrs) by eauto.
    apply Hform; [done|]. by exists rest'.
Qed.

(** ** The claim about the constructor *)

(** C5, as the code has it.  [__init__] validates nothing: for every
    player id, number of actions, step size, schedule, discount
    factor, rules and mode it returns an agent that stores the
    arguments as given, with the schedule's current value as
    epsilon, an empty value store and no pending transition. *)
Theorem init_accepts_any_configuration (player_id num_actions : Z)
    (step_size discount_factor : Qc) (epsilon_schedule : S)
    (rules : option (list rule)) (centralized : bool) :
  ∃ agent,
    __init__ player_id num_actions step_size epsilon_schedule
      discount_factor rules centralized = inr agent
    ∧ _player_id agent = player_id
    ∧ _num_actions agent = num_actions
    ∧ _step_size agent = step_size
    ∧ _discount_factor agent = discount_factor
    ∧ _epsilon agent = sched_value epsilon_schedule
    ∧ _epsilon_schedule agent = epsilon_schedule
    ∧ _centralized agent = centralized
    ∧ _rules agent = rules
    ∧ _q_values agent = ∅
    ∧ _prev_info_state agent = None
    ∧ _prev_action agent = None
    ∧ _last_loss_value agent = None.
Proof. eexists. split; [reflexivity|]. simpl. done. Qed.

(** ** The claim about the state key *)

(** The key that a training call of [step] leaves in
    [_prev_info_state] is the one [state_key] computes. *)
Lemma step_records_state_key (self self' : QLearner S) (ts : TimeStep)
    (top1 : bool) (u1 u2 : Qc) (out : StepOutput) :
  step float_repr ts false top1 u1 u2 self = (inr (Some out), self') ->
  ∃ key, state_key float_repr self ts = inr key
         ∧ _prev_info_state self' = Some key.
Proof.
  unfold step. rewrite bind_get.
  destruct (state_key float_repr self ts) as [e|key]; [discriminate|].
  rewrite (bind_lift (inr key) _ _ _ eq_refl).
  destruct (py_index (legal_actions (observations ts)) (_player_id self))
    as [e|L]; [discriminate|].
  rewrite (bind_lift (inr L) _ _ _ eq_refl).
  unfold bind at 1.
  destruct (act ts key L false top1 u1 u2 self) as [[e|[a p]] self1];
    [discriminate|].
  rewrite bind_get. unfold bind at 1.
  destruct (pending_key self1) as [prev|]; cbn [negb].
  - destruct (learn ts key L prev self1) as [[e|[|]] self3];
      [discriminate|discriminate|].
    intros [= _ <-]. by exists key.
  - intros [= _ <-]. by exists key.
Qed.

(** C8. Let [repr] print every float as a non-empty text without the
    characters [,], [[] and []], and print different floats
    differently.  For two time steps whose observation vectors agree
    for the owning player and differ for some other player, the state
    keys that [step] computes are different when the agent is
    centralized and equal when it is not. *)
Theorem state_key_modes (self : QLearner S) (ts1 ts2 : TimeStep)
    (v : list Qc) :
  (∀ q, plain (float_repr q)) ->
  (∀ q1 q2, float_repr q1 = float_repr q2 -> q1 = q2) ->
  py_index (info_state (observations ts1)) (_player_id self) = inr v ->
  py_index (info_state (observations ts2)) (_player_id self) = inr v ->
  (∃ j, info_state (observations ts1) !! j
        ≠ info_state (observations ts2) !! j) ->
  (_centralized self = true ->
   ∃ k1 k2, state_key float_repr self ts1 = inr k1
            ∧ state_key float_repr self ts2 = inr k2 ∧ k1 ≠ k2)
  ∧ (_centralized self = false ->
     ∃ k, state_key float_repr self ts1 = inr k
          ∧ state_key float_repr self ts2 = inr k).
Proof.
  intros Hplain Hinj Hv1 Hv2 [j Hj]. split; intros Hmode.
  - unfold state_key. rewrite Hmode. eexists _, _.
    split; [reflexivity|]. split; [reflexivity|].
    intros Heq. apply (str_list_list_inj _ _ _ Hplain Hinj) in Heq.
    by rewrite Heq in Hj.
  - unfold state_key. rewrite Hmode, Hv1, Hv2. by eexists.
Qed.

End AgentProperties.

(** * The claims on the sample position *)

Lemma sample_actions_in_range :
  ∀ a : Z, a ∈ [4; 6; 7; 8]%Z -> (0 <= a < _num_actions fresh_agent)%Z.
Proof.
  intros a Ha. simpl.
  repeat (apply elem_of_cons in Ha as [->|Ha]; [lia|]). inversion Ha.
Qed.

Lemma sample_actions_nodup : NoDup [4; 6; 7; 8]%Z.
Proof. apply (bool_decide_unpack _). reflexivity. Qed.

(** C1 on the scenario of the specification: step size 0.5, discount
    1.0, estimate 0.0 before the call, terminal reward 1.0, no rules. *)
Lemma step_td_update_witness :
  ∃ self',
    snd (step frac_repr sample_last false false (Q2Qc 0) (Q2Qc 0) pending_agent)
    = self'
    ∧ q_entry (_q_values self') "s" (Some 4%Z) = Some (Q2Qc (1 # 2))
    ∧ _last_loss_value self' = Some (Q2Qc (-1 # 2)).
Proof.
  destruct (step_td_update frac_repr pending_agent pending_agent sample_last
              false (Q2Qc 0) (Q2Qc 0)
              (str_list frac_repr sample_vector) [] "s" (Q2Qc 1 + Q2Qc 0)
              None None)
    as (target & out & self' & Hrun & _ & _ & _ & Hscenario);
    [reflexivity..|].
  exists self'. split; [by rewrite Hrun|].
  apply Hscenario; try reflexivity.
  exists [Q2Qc 1; Q2Qc (-1)]. split; reflexivity.
Defined.

(** C2 as stated fails: an evaluation call at a state the agent has
    not seen inserts the default estimates of the legal actions. *)
Lemma evaluation_call_changes_store :
  snd (step frac_repr sample_mid true false (Q2Qc 0) (Q2Qc 0) fresh_agent)
  ≠ fresh_agent.
Proof.
  intros Heq. apply (f_equal (fun a => size (_q_values a))) in Heq.
  vm_compute in Heq. discriminate Heq.
Qed.

(** C3 on the sample position, in the exploration branch. *)
Lemma epsilon_greedy_probs_witness :
  ∃ chosen p self',
    _epsilon_greedy "s" [4; 6; 7; 8]%Z (Q2Qc (1 # 5)) (Q2Qc (1 # 10))
      (Q2Qc (1 # 2)) fresh_agent = (inr (chosen, p), self')
    ∧ length p = 9%nat ∧ py_sum p = Q2Qc 1.
Proof.
  destruct (epsilon_greedy_probs fresh_agent "s" [4; 6; 7; 8]%Z
              (Q2Qc (1 # 5)) (Q2Qc (1 # 10)) (Q2Qc (1 # 2)))
    as (chosen & p & self' & Hrun & Hlen & Hsum & _).
  - discriminate.
  - exact sample_actions_nodup.
  - exact sample_actions_in_range.
  - exists chosen, p, self'. split; [exact Hrun|]. split; [|exact Hsum].
    simpl in Hlen. lia.
Defined.

(** C4 on a non-terminal time step without legal actions. *)
Lemma no_legal_actions_witness :
  ∃ e, step frac_repr sample_stuck false false (Q2Qc 0) (Q2Qc 0) fresh_agent
       = (inl e, fresh_agent).
Proof.
  destruct (no_legal_actions frac_repr fresh_agent sample_stuck false false
              "s" (Q2Qc (1 # 5)) (Q2Qc 0) (Q2Qc 0)) as [_ Hstep].
  - reflexivity.
  - reflexivity.
  - exact Hstep.
Defined.

(** C5 as stated fails: a negative step size, a negative number of
    actions and a discount factor above 1 are accepted. *)
Lemma init_accepts_malformed :
  Q2Qc (-1) <= Q2Qc 0 ∧ (-3 <= 0)%Z ∧ ¬ Q2Qc 2 <= Q2Qc 1
  ∧ ¬ ∃ e, __init__ 0 (-3) (Q2Qc (-1)) sample_schedule (Q2Qc 2) None false
           = inl e.
Proof.
  split; [done|]. split; [done|]. split; [by apply Qclt_not_le|].
  intros [e He]. discriminate He.
Qed.

(** C6 as stated fails: in a time step without rewards the rule would
    grant 1000 on the board, and the reward is 0.0, not 0 + 1000. *)
Lemma no_rewards_no_shaping :
  (let? board := player_board 0 sample_vector in
   rmap (fun rule : rule => rule board) [likeable_pattern])
  = inr [Q2Qc 1000]
  ∧ _get_action_reward shaped_agent sample_first = inr (Q2Qc 0)
  ∧ _get_action_reward shaped_agent sample_first
    ≠ inr (Q2Qc 0 + py_sum [Q2Qc 1000]).
Proof.
  split; [reflexivity|]. split; [reflexivity|].
  intros Heq. vm_compute in Heq. discriminate Heq.
Qed.

(** C7 as stated fails: after the call [_prev_action] still holds the
    prior action, and the call has returned [None], not a step
    result. *)
Lemma terminal_call_keeps_prev_action :
  _prev_action
    (snd (step frac_repr sample_last false false (Q2Qc 0) (Q2Qc 0) pending_agent))
  = Some 4%Z
  ∧ fst (step frac_repr sample_last false false (Q2Qc 0) (Q2Qc 0) pending_agent)
    = inr None
  ∧ ¬ ∃ out self',
        step frac_repr sample_last false false (Q2Qc 0) (Q2Qc 0) pending_agent
        = (inr (Some out), self')
        ∧ action out = None ∧ probs out = None
        ∧ _prev_info_state self' = None ∧ _prev_action self' = None.
Proof.
  split; [reflexivity|]. split; [reflexivity|].
  intros (out & self' & Hrun & _ & _ & _ & Hpa).
  apply (f_equal (fun r => _prev_action (snd r))) in Hrun.
  simpl in Hrun. rewrite Hpa in Hrun. vm_compute in Hrun. discriminate Hrun.
Qed.

(** C7 as the code has it, on the sample position. *)
Lemma step_terminal_training_witness :
  ∃ out self',
    step frac_repr sample_last false false (Q2Qc 0) (Q2Qc 0) pending_agent
    = (inr out, self')
    ∧ out ≫= action = None
    ∧ _prev_info_state self' = None
    ∧ _prev_action self' = Some 4%Z.
Proof.
  destruct (step_terminal_training frac_repr pending_agent sample_last false
              (Q2Qc 0) (Q2Qc 0) (str_list frac_repr sample_vector) [] "s"
              (Q2Qc 1 + Q2Qc 0))
    as (out & self' & Hrun & Hout & _ & Hprev & Hpa & _); [reflexivity..|].
  exists out, self'. split; [exact Hrun|]. split; [exact Hout|].
  split; [exact Hprev|exact Hpa].
Defined.

(** C8 on the sample position and the one in which player 1's vector
    differs. *)
Lemma state_key_modes_witness :
  ∃ k, state_key frac_repr fresh_agent sample_mid = inr k
       ∧ state_key frac_repr fresh_agent sample_mid_other = inr k.
Proof.
  destruct (state_key_modes frac_repr fresh_agent sample_mid sample_mid_other
              sample_vector) as [_ Hdecentralized].
  - exact frac_repr_plain.
  - exact frac_repr_inj.
  - reflexivity.
  - reflexivity.
  - exists 1%nat. intros Heq. vm_compute in Heq. discriminate Heq.
  - apply Hdecentralized. reflexivity.
Defined.

(** C9 on the sample position: all estimates are 0.0, the first legal
    action is chosen. *)
Lemma greedy_first_maximal_witness :
  ∃ p self',
    _epsilon_greedy "s" [4; 6; 7; 8]%Z (Q2Qc (1 # 5)) (Q2Qc (1 # 2))
      (Q2Qc (1 # 2)) fresh_agent = (inr (4%Z, p), self').
Proof.
  destruct (greedy_first_maximal frac_repr fresh_agent "s" [4; 6; 7; 8]%Z
              (Q2Qc (1 # 5)) (Q2Qc (1 # 2)) (Q2Qc (1 # 2)))
    as (i & best & p & self' & Hrun & Hi & _ & Hbefore & _).
  - discriminate.
  - exact sample_actions_in_range.
  - by apply Qcle_not_lt.
  - done.
  - done.
  - exists p, self'. rewrite Hrun. do 3 f_equal.
    destruct i as [|i]; [by injection Hi as <-|].
    exfalso. assert (Hlt := Hbefore 0%nat 4%Z ltac:(lia) eq_refl).
    vm_compute in Hlt. discriminate Hlt.
Defined.

(** C10 on the sample position, for player 0. *)
Lemma reward_board_source_witness :
  _get_action_reward shaped_agent sample_mid = inr (Q2Qc 0 + Q2Qc 1000).
Proof.
  destruct (reward_board_source shaped_agent sample_mid
              [Q2Qc 0; Q2Qc 0] sample_vector [sample_vector])
    as (Hreward & _).
  - reflexivity.
  - discriminate.
  - reflexivity.
  - rewrite Hreward. reflexivity.
Defined.

(** With a rule configured, an entry 2^63 in the player's slice makes
    the reward computation raise; without rules the slice is not
    converted. *)
Example reward_overflow :
  _get_action_reward shaped_agent sample_overflow = inl OverflowError
  ∧ _get_action_reward pending_agent sample_overflow = inr (Q2Qc 0 + Q2Qc 0).
Proof. split; reflexivity. Qed.

(** ** The multi-step scenario of the specification

    A non-terminal training call with reward 0, stored estimates 0.2
    and 0.8 among the legal actions of the current state, discount
    1.0, step size 0.1 and estimate 0.0 for the pending transition:
    the target is 0.8 and the updated estimate 0.08. *)
Example td_update_multi_step :
  let self' :=
    snd (step frac_repr sample_mid false false (Q2Qc (1 # 2)) (Q2Qc (1 # 2))
           seen_agent) in
  q_entry (_q_values self') "s" (Some 2%Z) = Some (Q2Qc (2 # 25))
  ∧ _last_loss_value self' = Some (Q2Qc (2 # 25) - Q2Qc (4 # 5))
  ∧ _prev_action self' = Some 7%Z.
Proof.
  split; [|split].
  - vm_compute. reflexivity.
  - vm_compute. reflexivity.
  - reflexivity.
Qed.

(** * Further properties *)

(** ** The board views *)

Lemma nonzero_from_spec (v : list Qc) (i j : nat) :
  j ∈ nonzero_from i v <-> (i <= j)%nat ∧ marked v (j - i) = true.
Proof.
  revert i. induction v as [|x v IH]; intros i; simpl.
  - split; [intros Hj; inversion Hj|]. intros [_ Hm].
    unfold marked in Hm. by rewrite lookup_nil in Hm.
  - assert (Hstep : j ∈ nonzero_from (S i) v
                    <-> (i < j)%nat ∧ marked v (j - i - 1) = true).
    { rewrite IH. replace (j - S i)%nat with (j - i - 1)%nat by lia. done. }
    assert (Hhead : marked (x :: v) 0 = bool_decide (x ≠ Q2Qc 0)) by done.
    assert (Htail : ∀ k, marked (x :: v) (S k) = marked v k) by done.
    destruct (decide (x = Q2Qc 0)) as [Hx|Hx].
    + rewrite Hstep. split.
      * intros [Hlt Hm]. split; [lia|].
        replace (j - i)%nat with (S (j - i - 1)) by lia. by rewrite Htail.
      * intros [Hle Hm]. destruct (decide (j = i)) as [->|Hne].
        { rewrite Nat.sub_diag, Hhead in Hm.
          apply bool_decide_eq_true in Hm. done. }
        split; [lia|].
        replace (j - i)%nat with (S (j - i - 1)) in Hm by lia.
        by rewrite Htail in Hm.
    + rewrite elem_of_cons, Hstep. split.
      * intros [->|[Hlt Hm]].
        { split; [lia|]. rewrite Nat.sub_diag, Hhead.
          by apply bool_decide_eq_true. }
        split; [lia|].
        replace (j - i)%nat with (S (j - i - 1)) by lia. by rewrite Htail.
      * intros [Hle Hm]. destruct (decide (j = i)) as [->|Hne]; [by left|].
        right. split; [lia|].
        replace (j - i)%nat with (S (j - i - 1)) in Hm by lia.
        by rewrite Htail in Hm.
Qed.

Lemma np_nonzero_spec (v : list Qc) (j : nat) :
  j ∈ np_nonzero v <-> marked v j = true.
Proof.
  unfold np_nonzero. rewrite nonzero_from_spec, Nat.sub_0_r.
  split; [by intros [_ ?]|]. intros ?. split; [lia|done].
Qed.

Lemma marked_lt (v : list Qc) (j : nat) : marked v j = true -> (j < length v)%nat.
Proof.
  unfold marked. destruct (v !! j) eqn:Hj; [|discriminate].
  intros _. by eapply lookup_lt_Some.
Qed.

Lemma np_put_ok {A} (b : list A) (idx : list nat) (x : A) :
  (∀ i, i ∈ idx -> (i < length b)%nat) ->
  ∃ b', np_put b idx x = inr b'
        ∧ length b' = length b
        ∧ ∀ j, b' !! j = if decide (j ∈ idx) then Some x else b !! j.
Proof.
  revert b. induction idx as [|i idx IH]; intros b Hidx; simpl.
  - exists b. split; [done|]. split; [done|]. intros j.
    destruct (decide (j ∈ [])) as [Hj|]; [inversion Hj|done].
  - rewrite decide_True by (apply Hidx; left).
    destruct (IH (<[i := x]> b)) as (b' & Hrun & Hlen & Hget).
    { intros k Hk. rewrite length_insert. apply Hidx. by right. }
    rewrite length_insert in Hlen.
    exists b'. split; [done|]. split; [done|]. intros j. rewrite Hget.
    destruct (decide (j ∈ idx)) as [Hj|Hj].
    + rewrite (decide_True (P := j ∈ i :: idx)) by by right. done.
    + destruct (decide (j = i)) as [->|Hne].
      * rewrite (decide_True (P := i ∈ i :: idx)) by left.
        apply list_lookup_insert_eq. apply Hidx. left.
      * rewrite (decide_False (P := j ∈ i :: idx)).
        { by apply list_lookup_insert_ne. }
        intros [->|Hin]%elem_of_cons; done.
Qed.

Lemma np_put_overflow {A} (b : list A) (idx : list nat) (x : A) :
  (∃ i, i ∈ idx ∧ (length b <= i)%nat) -> np_put b idx x = inl IndexError.
Proof.
  revert b. induction idx as [|i idx IH]; intros b (k & Hk & Hlen); simpl.
  - inversion Hk.
  - destruct (decide (i < length b)%nat) as [Hi|Hi]; [|done].
    apply IH. exists k. rewrite length_insert. split; [|done].
    apply elem_of_cons in Hk as [->|Hk]; [lia|done].
Qed.

Lemma np_put_fmap {A B} (f : A -> B) (b : list A) (idx : list nat) (x : A) :
  np_put (f <$> b) idx (f x)
  = match np_put b idx x with
    | inl e => inl e
    | inr b' => inr (f <$> b')
    end.
Proof.
  revert b. induction idx as [|i idx IH]; intros b; simpl; [done|].
  rewrite length_fmap. destruct (decide (i < length b)%nat); [|done].
  rewrite <- list_fmap_insert. apply IH.
Qed.

Lemma rows_of_fmap {A B} (f : A -> B) (rows cols : nat) (b : list A) :
  rows_of rows cols (f <$> b) = fmap (M:=list) f <$> rows_of rows cols b.
Proof.
  revert b. induction rows as [|rows IH]; intros b; simpl; [done|].
  by rewrite <- fmap_take, <- fmap_drop, IH.
Qed.

Lemma marked_slice (v : list Qc) (j : nat) :
  marked (py_slice v 9 18) j = (bool_decide (j < 9)%nat && marked v (9 + j))%bool.
Proof.
  unfold marked, py_slice. destruct (decide (j < 9)%nat) as [Hj|Hj].
  - rewrite lookup_take_lt, lookup_drop by lia.
    by rewrite bool_decide_eq_true_2.
  - rewrite lookup_take_ge by lia. by rewrite bool_decide_eq_false_2.
Qed.

Lemma marked_slice_from (v : list Qc) (j : nat) :
  marked (py_slice_from v 18) j = marked v (18 + j).
Proof. unfold marked, py_slice_from. by rewrite lookup_drop. Qed.

Lemma marked_beyond (v : list Qc) (n j : nat) :
  Forall (fun q => q = Q2Qc 0) (drop n v) -> (n <= j)%nat -> marked v j = false.
Proof.
  intros Hzero Hj. unfold marked. destruct (v !! j) as [x|] eqn:Hx; [|done].
  apply bool_decide_eq_false_2. intros Hne. apply Hne.
  rewrite Forall_forall in Hzero. apply Hzero.
  apply list_elem_of_lookup. exists (j - n)%nat.
  rewrite lookup_drop. by replace (n + (j - n))%nat with j by lia.
Qed.

(** The two assignments and the reshape that both board views share,
    when no entry from index 27 on is marked. *)
Lemma draw_board {A} (e x o : A) (v : list Qc) :
  Forall (fun q => q = Q2Qc 0) (drop 27 v) ->
  (let? b := np_put (np_full (3 * 3) e) (np_nonzero (py_slice v 9 18)) x in
   let? b := np_put b (np_nonzero (py_slice_from v 18)) o in
   np_reshape b 3 3)
  = inr (rows_of 3 3 (board_cell e x o v <$> seq 0 9)).
Proof.
  intros Hzero. unfold np_full.
  destruct (np_put_ok (replicate (3 * 3) e) (np_nonzero (py_slice v 9 18)) x)
    as (b1 & Hrun1 & Hlen1 & Hget1).
  { intros i Hi. apply np_nonzero_spec in Hi. rewrite marked_slice in Hi.
    apply andb_prop in Hi as [Hi _]. apply bool_decide_eq_true in Hi.
    rewrite length_replicate. simpl. lia. }
  rewrite Hrun1. cbn [rbind].
  rewrite length_replicate in Hlen1.
  destruct (np_put_ok b1 (np_nonzero (py_slice_from v 18)) o)
    as (b2 & Hrun2 & Hlen2 & Hget2).
  { intros i Hi. apply np_nonzero_spec in Hi. rewrite marked_slice_from in Hi.
    rewrite Hlen1. simpl. destruct (decide (i < 9)%nat); [done|].
    rewrite (marked_beyond v 27) in Hi by (done || lia). discriminate. }
  rewrite Hrun2. cbn [rbind]. rewrite Hlen1 in Hlen2.
  assert (Hb2 : b2 = board_cell e x o v <$> seq 0 9).
  { apply list_eq. intros j. rewrite Hget2, Hget1, list_lookup_fmap.
    unfold board_cell.
    destruct (decide (j < 9)%nat) as [Hj|Hj].
    - rewrite lookup_replicate_2 by (simpl; lia).
      rewrite lookup_seq_lt by done. change (0 + j)%nat with j.
      cbn [fmap option_fmap option_map].
      destruct (decide (j ∈ np_nonzero (py_slice_from v 18))) as [Ho|Ho].
      + apply np_nonzero_spec in Ho. rewrite marked_slice_from in Ho.
        by rewrite Ho.
      + rewrite np_nonzero_spec, marked_slice_from in Ho.
        apply not_true_is_false in Ho. rewrite Ho.
        destruct (decide (j ∈ np_nonzero (py_slice v 9 18))) as [Hx|Hx].
        * apply np_nonzero_spec in Hx. rewrite marked_slice in Hx.
          apply andb_prop in Hx as [_ Hx]. by rewrite Hx.
        * rewrite np_nonzero_spec, marked_slice in Hx.
          apply not_true_is_false in Hx.
          rewrite bool_decide_eq_true_2 in Hx by done. cbn [andb] in Hx.
          by rewrite Hx.
    - rewrite (proj1 (lookup_replicate_None (3 * 3) e j)) by (simpl; lia).
      rewrite lookup_seq_ge by lia.
      rewrite (decide_False (P := j ∈ np_nonzero (py_slice_from v 18))).
      2:{ rewrite np_nonzero_spec, marked_slice_from.
          rewrite (marked_beyond v 27) by (done || lia). done. }
      rewrite (decide_False (P := j ∈ np_nonzero (py_slice v 9 18))); [done|].
      rewrite np_nonzero_spec, marked_slice.
      rewrite bool_decide_eq_false_2 by done. done. }
  unfold np_reshape. rewrite decide_True by done. by rewrite Hb2.
Qed.

Lemma draw_board_overflow {A} (e x o : A) (v : list Qc) :
  Exists (fun q => q ≠ Q2Qc 0) (drop 27 v) ->
  (let? b := np_put (np_full (3 * 3) e) (np_nonzero (py_slice v 9 18)) x in
   let? b := np_put b (np_nonzero (py_slice_from v 18)) o in
   np_reshape b 3 3)
  = inl IndexError.
Proof.
  intros Hex. unfold np_full.
  destruct (np_put_ok (replicate (3 * 3) e) (np_nonzero (py_slice v 9 18)) x)
    as (b1 & Hrun1 & Hlen1 & _).
  { intros i Hi. apply np_nonzero_spec in Hi. rewrite marked_slice in Hi.
    apply andb_prop in Hi as [Hi _]. apply bool_decide_eq_true in Hi.
    rewrite length_replicate. simpl. lia. }
  rewrite Hrun1. cbn [rbind]. rewrite length_replicate in Hlen1.
  rewrite np_put_overflow; [done|].
  apply Exists_exists in Hex as (q & Hq & Hne).
  apply list_elem_of_lookup in Hq as [k Hk]. rewrite lookup_drop in Hk.
  exists (9 + k)%nat. split; [|rewrite Hlen1; simpl; lia].
  apply np_nonzero_spec. rewrite marked_slice_from. unfold marked.
  replace (18 + (9 + k))%nat with (27 + k)%nat by lia.
  rewrite Hk. by apply bool_decide_eq_true_2.
Qed.

(** X1. For a vector of player 0 that has no non-zero entry from index
    27 on, [info_state_to_board] returns the 3 x 3 board whose cell
    [3 r + c] is -1 when entry [18 + 3 r + c] of the vector is not
    zero, else 1 when entry [9 + 3 r + c] is not zero, else 0; entries
    that the vector does not have count as zero. *)
Theorem info_state_to_board_cells (ts : TimeStep) (v : list Qc)
    (rest : list (list Qc)) :
  info_state (observations ts) = v :: rest ->
  Forall (fun q => q = Q2Qc 0) (drop 27 v) ->
  let c := board_cell 0%Z 1%Z (-1)%Z v in
  info_state_to_board ts
  = inr [[c 0; c 1; c 2]; [c 3; c 4; c 5]; [c 6; c 7; c 8]]%nat.
Proof.
  intros Hobs Hzero c. unfold info_state_to_board. rewrite Hobs.
  change (py_index (v :: rest) 0) with (inr v : result (list Qc)).
  cbn [rbind]. cbv zeta. by rewrite (draw_board _ _ _ _ Hzero).
Qed.

(** X2. When the observation list is not empty, [info_state_to_board]
    raises [IndexError] exactly when player 0's vector has a non-zero
    entry at index 27 or beyond (the mark falls outside the nine
    cells); with an empty observation list it raises [IndexError]
    too. *)
Theorem info_state_to_board_index_error (ts : TimeStep) :
  (info_state (observations ts) = [] ->
   info_state_to_board ts = inl IndexError)
  ∧ (∀ v rest, info_state (observations ts) = v :: rest ->
       (info_state_to_board ts = inl IndexError
        <-> Exists (fun q => q ≠ Q2Qc 0) (drop 27 v))).
Proof.
  split.
  - intros Hobs. unfold info_state_to_board. by rewrite Hobs.
  - intros v rest Hobs. unfold info_state_to_board. rewrite Hobs.
    change (py_index (v :: rest) 0) with (inr v : result (list Qc)).
    cbn [rbind]. cbv zeta. split.
    + intros Herr.
      destruct (decide (Forall (fun q => q = Q2Qc 0) (drop 27 v))) as [Hz|Hz].
      * rewrite (draw_board _ _ _ _ Hz) in Herr. discriminate.
      * apply not_Forall_Exists in Hz; [|apply _].
        eapply Exists_impl; [exact Hz|]. done.
    + apply draw_board_overflow.
Qed.

(** X3. [pretty_board] is [info_state_to_board] drawn with symbols: it
    raises when and as [info_state_to_board] raises, and otherwise
    returns the same board with "X" for 1, "0" for -1 and "." for
    0. *)
Theorem pretty_board_symbols (ts : TimeStep) :
  pretty_board ts
  = match info_state_to_board ts with
    | inl e => inl e
    | inr rows => inr (fmap (M:=list) cell_symbol <$> rows)
    end.
Proof.
  unfold pretty_board, info_state_to_board.
  destruct (py_index (info_state (observations ts)) 0) as [e|v]; [done|].
  cbn [rbind]. cbv zeta. unfold np_full.
  change (replicate (3 * 3) ".") with (cell_symbol <$> replicate (3 * 3) 0%Z).
  change "X" with (cell_symbol 1). change "0" with (cell_symbol (-1)).
  rewrite np_put_fmap.
  destruct (np_put (replicate (3 * 3) 0%Z) (np_nonzero (py_slice v 9 18)) 1%Z)
    as [e|b1]; [done|].
  cbn [rbind]. rewrite np_put_fmap.
  destruct (np_put b1 (np_nonzero (py_slice_from v 18)) (-1)%Z) as [e|b2];
    [done|].
  cbn [rbind]. unfold np_reshape. rewrite length_fmap.
  destruct (decide (length b2 = 3 * 3)%nat); [|done].
  by rewrite rows_of_fmap.
Qed.

(** ** The reward rule [likeable_pattern] *)

Lemma py_index_nat {A} (l : list A) (i : nat) :
  py_index l (Z.of_nat i)
  = match l !! i with Some x => inr x | None => inl IndexError end.
Proof.
  destruct (l !! i) as [x|] eqn:Hi.
  - apply py_index_in_range; [lia|]. by rewrite Nat2Z.id.
  - unfold py_index, norm_index.
    apply lookup_ge_None in Hi.
    destruct (Z.of_nat i <? 0)%Z eqn:Hneg; [lia|].
    destruct (0 <=? Z.of_nat i)%Z eqn:H0; [|lia].
    destruct (Z.of_nat i <? Z.of_nat (length l))%Z eqn:H1; [lia|]. done.
Qed.

Lemma likeable_pattern_loop_cells (board : list Z) (i n : nat) :
  (i + n <= 9)%nat ->
  likeable_pattern_loop (seq i n) board
  = compare_cells (drop i board) (take n (drop i flat_reward_mask)).
Proof.
  revert i. induction n as [|n IH]; intros i Hin; [by rewrite take_0|].
  cbn [seq likeable_pattern_loop]. rewrite !py_index_nat.
  destruct (flat_reward_mask !! i) as [m|] eqn:Hm.
  2:{ apply lookup_ge_None in Hm. simpl in Hm. lia. }
  rewrite (drop_S _ _ _ Hm). cbn [take compare_cells].
  destruct (board !! i) as [b|] eqn:Hb.
  - rewrite (drop_S _ _ _ Hb). cbn [rbind].
    destruct (b =? m)%Z; [|done]. simpl negb. cbv iota.
    apply IH. lia.
  - rewrite (drop_ge board i) by by apply lookup_ge_None. done.
Qed.

Lemma compare_cells_match (board mask : list Z) :
  compare_cells board mask = inr (Q2Qc 1000)
  <-> take (length mask) board = mask.
Proof.
  revert board. induction mask as [|m mask IH]; intros board; simpl.
  - by rewrite take_0.
  - destruct board as [|b board]; simpl; [done|].
    destruct (b =? m)%Z eqn:Hbm.
    + apply Z.eqb_eq in Hbm as ->. rewrite IH. split; [by intros ->|].
      by intros [= ?].
    + apply Z.eqb_neq in Hbm. split; [discriminate|]. by intros [= ? ?].
Qed.

Lemma compare_cells_raise (board mask : list Z) (e : exn) :
  compare_cells board mask = inl e
  <-> e = IndexError
      ∧ (length board < length mask)%nat
      ∧ board = take (length board) mask.
Proof.
  revert board. induction mask as [|m mask IH]; intros board; simpl.
  - split; [discriminate|]. intros (_ & Hlen & _). lia.
  - destruct board as [|b board]; simpl.
    + split; [intros [= <-]|intros (-> & _)]; [|done].
      split; [done|]. split; [lia|done].
    + destruct (b =? m)%Z eqn:Hbm.
      * apply Z.eqb_eq in Hbm as ->. rewrite IH. split.
        -- intros (-> & Hlen & Hpre). split; [done|]. split; [lia|].
           by rewrite <- Hpre.
        -- intros (-> & Hlen & [= Hpre]). split; [done|]. split; [lia|done].
      * apply Z.eqb_neq in Hbm. split; [discriminate|].
        by intros (_ & _ & [= ? ?]).
Qed.

Lemma compare_cells_values (board mask : list Z) :
  compare_cells board mask = inr (Q2Qc 1000)
  ∨ compare_cells board mask = inr (Q2Qc 0)
  ∨ compare_cells board mask = inl IndexError.
Proof.
  revert board. induction mask as [|m mask IH]; intros board; simpl; [auto|].
  destruct board as [|b board]; [auto|]. destruct (b =? m)%Z; auto.
Qed.

Lemma likeable_pattern_compare (board : list Z) :
  likeable_pattern board = compare_cells board flat_reward_mask.
Proof. unfold likeable_pattern. by rewrite likeable_pattern_loop_cells by lia. Qed.



(** X4. [likeable_pattern] returns 1000 exactly when the first nine
    cells of the board are the cells of the mask; it raises
    [IndexError] exactly when the board has fewer than nine cells and
    all of them agree with the mask; in every other case it returns
    0. *)
Theorem likeable_pattern_cases (board : list Z) :
  (likeable_pattern board = inr (Q2Qc 1000)
   <-> take 9 board = flat_reward_mask)
  ∧ (likeable_pattern board = inl IndexError
     <-> (length board < 9)%nat
         ∧ board = take (length board) flat_reward_mask)
  ∧ (likeable_pattern board = inr (Q2Qc 1000)
     ∨ likeable_pattern board = inr (Q2Qc 0)
     ∨ likeable_pattern board = inl IndexError).
Proof.
  rewrite likeable_pattern_compare. split; [apply compare_cells_match|]. split.
  - rewrite compare_cells_raise. simpl. tauto.
  - apply compare_cells_values.
Qed.


(** ** [command_line_action] *)

Section CommandLineProperties.

Variable py_int : string -> option Z.

Lemma command_line_loop_spec (L : list Z) (a0 : Z) (lines : list string) :
  a0 ∉ L ->
  match command_line_loop py_int L a0 lines with
  | inr (a, rest) =>
      ∃ skipped line,
        lines = skipped ++ line :: rest
        ∧ py_int line = Some (a + 1)%Z
        ∧ a ∈ L
        ∧ Forall (fun l => selects py_int L l = false) skipped
  | inl e =>
      e = EOFError ∧ Forall (fun l => selects py_int L l = false) lines
  end.
Proof.
  revert a0. induction lines as [|l lines IH]; intros a0 Ha0; simpl.
  - rewrite decide_False by done. done.
  - rewrite decide_False by done.
    destruct (py_int l) as [n|] eqn:Hl.
    + destruct (decide ((n - 1)%Z ∈ L)) as [Hn|Hn].
      * destruct lines as [|l' lines']; simpl; rewrite decide_True by done;
          exists [], l; (split; [done|]); (split; [|done]);
          rewrite Hl; f_equal; lia.
      * specialize (IH (n - 1)%Z Hn).
        assert (Hsel : selects py_int L l = false).
        { unfold selects. rewrite Hl. by apply bool_decide_eq_false_2. }
        destruct (command_line_loop py_int L (n - 1) lines) as [e|[a rest]].
        -- destruct IH as [-> Hall]. split; [done|]. by constructor.
        -- destruct IH as (skipped & line & -> & Hline & Ha & Hall).
           exists (l :: skipped), line. split; [done|]. split; [done|].
           split; [done|]. by constructor.
    + specialize (IH a0 Ha0).
      assert (Hsel : selects py_int L l = false).
      { unfold selects. by rewrite Hl. }
      destruct (command_line_loop py_int L a0 lines) as [e|[a rest]].
      * destruct IH as [-> Hall]. split; [done|]. by constructor.
      * destruct IH as (skipped & line & -> & Hline & Ha & Hall).
        exists (l :: skipped), line. split; [done|]. split; [done|].
        split; [done|]. by constructor.
Qed.

(** X6. When the legal actions of the player to move do not contain
    -1 (no action id is negative), [command_line_action] skips every
    line that [int] rejects or whose number less one is not a legal
    action, and returns the number less one of the first line that
    selects a legal action, leaving the lines after it unread; so the
    action it returns is legal.  When no line selects a legal action
    it ends in the [EOFError] of [input()]. *)
Theorem command_line_action_first_legal (ts : TimeStep) (L : list Z)
    (lines : list string) :
  py_index (legal_actions (observations ts))
    (current_player (observations ts)) = inr L ->
  (-1)%Z ∉ L ->
  match command_line_action py_int ts lines with
  | inr (a, rest) =>
      ∃ skipped line,
        lines = skipped ++ line :: rest
        ∧ py_int line = Some (a + 1)%Z
        ∧ a ∈ L
        ∧ Forall (fun l => selects py_int L l = false) skipped
  | inl e =>
      e = EOFError ∧ Forall (fun l => selects py_int L l = false) lines
  end.
Proof.
  intros HL Hneg. unfold command_line_action. rewrite HL.
  by apply command_line_loop_spec.
Qed.

End CommandLineProperties.

(** ** The ways a call of [step] ends *)

Section StepProperties.

Context {S : Type} `{ValueSchedule S}.

Lemma touches_refl key L (self : QLearner S) : touches key L self self.
Proof. split; [apply same_but_store_refl|]. intros k a. by left. Qed.

Lemma touches_trans key L (s1 s2 s3 : QLearner S) :
  touches key L s1 s2 -> touches key L s2 s3 -> touches key L s1 s3.
Proof.
  intros [H12 E12] [H23 E23]. split; [by eapply same_but_store_trans|].
  intros k a.
  destruct (E12 k a) as [Eq12|(Hk & Hb & N1 & Z2)],
    (E23 k a) as [Eq23|(Hk' & Hb' & N2 & Z3)].
  - left. congruence.
  - right. split; [done|]. split; [done|]. split; congruence.
  - right. split; [done|]. split; [done|]. split; congruence.
  - congruence.
Qed.

Lemma touches_reads_only key L (self self' : QLearner S) :
  touches key L self self' -> reads_only self self'.
Proof.
  intros [Hsame Hent]. split; [done|]. intros k a.
  destruct (Hent k a) as [Heq|(_ & _ & Hnone & Hzero)]; [by left|by right].
Qed.

Lemma frame_bind_rel (R : QLearner S -> QLearner S -> Prop) {A B}
    (m : M S A) (k : A -> M S B) :
  (∀ s1 s2 s3, R s1 s2 -> R s2 s3 -> R s1 s3) ->
  frame R m -> (∀ a, frame R (k a)) -> frame R (bind m k).
Proof.
  intros Htrans Hm Hk self. unfold bind. specialize (Hm self).
  destruct (m self) as [[e|a] self1]; simpl in *; [done|].
  eapply Htrans; [exact Hm|apply Hk].
Qed.

Lemma frame_touches_q_getitem key (L : list Z) (b : Z) :
  b ∈ L -> frame (S:=S) (touches key L) (q_getitem key (Some b)).
Proof.
  intros Hb self. split; [by destruct self|]. intros k a.
  rewrite q_getitem_entry.
  destruct (decide (k = key ∧ a = Some b)) as [[-> ->]|Hne]; [|by left].
  rewrite q_read_entry.
  destruct (q_entry (_q_values self) key (Some b)) as [v|] eqn:Hv; [by left|].
  right. split; [done|]. split; [by exists b|]. done.
Qed.

Lemma frame_touches_row key (L L' : list Z) :
  L' ⊆ L ->
  frame (S:=S) (touches key L) (mmap (fun a => q_getitem key (Some a)) L').
Proof.
  induction L' as [|b L' IH]; intros Hsub; simpl.
  - intros self. apply touches_refl.
  - apply frame_bind_rel; [apply touches_trans| |].
    + apply frame_touches_q_getitem. apply Hsub. left.
    + intros y. apply frame_bind_rel; [apply touches_trans| |].
      * apply IH. intros x Hx. apply Hsub. by right.
      * intros ys self. apply touches_refl.
Qed.

Lemma row_run key (L : list Z) (self : QLearner S) :
  ∃ self', mmap (fun a => q_getitem key (Some a)) L self
           = (inr ((fun a => q_read (_q_values self) key (Some a)) <$> L), self')
           ∧ touches key L self self'.
Proof.
  destruct (mmap_q_getitem key L self) as (self' & Hrun & _).
  exists self'. split; [done|].
  pose proof (frame_touches_row key L L (reflexivity L) self) as Hfr.
  by rewrite Hrun in Hfr.
Qed.

Lemma frame_touches_epsilon_greedy key (L : list Z) (eps u1 u2 : Qc) :
  frame (S:=S) (touches key L) (_epsilon_greedy key L eps u1 u2).
Proof.
  pose proof (touches_trans key L) as Htrans.
  assert (Hret : ∀ A (r : result A), frame (S:=S) (touches key L) (lift r)).
  { intros A r self. apply touches_refl. }
  unfold _epsilon_greedy.
  apply frame_bind_rel; [done|intros self; apply touches_refl|]. intros self.
  apply frame_bind_rel; [done|apply Hret|]. intros p0.
  apply frame_bind_rel; [done| |].
  - destruct (decide (u1 < eps)).
    + apply frame_bind_rel; [done|apply Hret|]. intros v. apply Hret.
    + apply frame_bind_rel; [done|by apply frame_touches_row|].
      intros qs. apply frame_bind_rel; [done|apply Hret|]. intros i.
      apply frame_bind_rel; [done|apply Hret|]. intros b. apply Hret.
  - intros p. apply frame_bind_rel; [done|apply Hret|].
    intros a self'. apply touches_refl.
Qed.

Lemma frame_touches_act (ts : TimeStep) key (L : list Z)
    (is_evaluation top1 : bool) (u1 u2 : Qc) :
  frame (S:=S) (touches key L) (act ts key L is_evaluation top1 u1 u2).
Proof.
  pose proof (touches_trans key L) as Htrans.
  unfold act. destruct (negb (last ts)); [|intros self; apply touches_refl].
  apply frame_bind_rel; [done|intros self; apply touches_refl|]. intros self.
  apply frame_bind_rel; [done|apply frame_touches_epsilon_greedy|].
  intros [a p].
  apply frame_bind_rel; [done| |intros a' self'; apply touches_refl].
  destruct (top1 || is_evaluation); [|intros self'; apply touches_refl].
  apply frame_bind_rel; [done|intros self'; apply touches_refl|].
  intros i self'. apply touches_refl.
Qed.

Lemma learn_reward_raises (self1 : QLearner S) ts key (L : list Z) prev e :
  _get_action_reward self1 ts = inl e ->
  learn ts key L prev self1 = (inl e, self1).
Proof.
  intros Hrew. unfold learn. rewrite bind_get. unfold bind, lift.
  by rewrite Hrew.
Qed.

Lemma learn_run_touches (self1 : QLearner S) ts key (L : list Z) prev reward :
  _get_action_reward self1 ts = inr reward ->
  (last ts = false -> L ≠ []) ->
  ∃ target self2 self',
    learn ts key L prev self1 = (inr (last ts), self')
    ∧ touches key L self1 self2
    ∧ (if last ts then target = reward ∧ self2 = self1
       else ∃ best,
           py_max ((fun a => q_read (_q_values self1) key (Some a)) <$> L) = inr best
           ∧ target = reward + _discount_factor self1 * best)
    ∧ td_update self2 self' prev target (last ts).
Proof.
  intros Hrew Hne. unfold learn. rewrite bind_get, (bind_lift _ _ _ _ Hrew).
  destruct (last ts) eqn:Hlast.
  - rewrite bind_ret.
    destruct (learn_update_run self1 prev reward true) as (self' & Hrun & Hupd).
    exists reward, self1, self'.
    split; [exact Hrun|]. split; [apply touches_refl|]. done.
  - destruct (row_run key L self1) as (self2 & Hrow & Hfr).
    destruct (py_max_nonempty ((fun a => q_read (_q_values self1) key (Some a)) <$> L))
      as [best Hbest].
    { specialize (Hne eq_refl). destruct L; [done|discriminate]. }
    set (target := reward + _discount_factor self1 * best).
    match goal with
    | |- ∃ _ _ _, bind ?m _ _ = _ ∧ _ =>
        assert (HB : m self1 = (inr target, self2))
    end.
    { rewrite (bind_run _ _ _ _ _ Hrow), (bind_lift _ _ _ _ Hbest). reflexivity. }
    destruct (same_but_store_fields _ _ (proj1 Hfr))
      as (_ & _ & Hss & _ & _ & _ & _ & _ & _ & Hpa & _).
    destruct (learn_update_run self2 prev target false) as (self' & Hrun & Hupd).
    exists target, self2, self'. split.
    + rewrite (bind_run _ _ _ _ _ HB). rewrite <- Hpa, <- Hss. exact Hrun.
    + split; [done|]. split; [|done]. by exists best.
Qed.

Variable float_repr : Qc -> string.

(** Every call of [step] ends in one of the ways of [step_outcome]. *)
Lemma step_outcome_holds (self : QLearner S) (ts : TimeStep)
    (is_evaluation top1 : bool) (u1 u2 : Qc) :
  step_outcome float_repr self ts is_evaluation top1 u1 u2
    (step float_repr ts is_evaluation top1 u1 u2 self).
Proof.
  unfold step. rewrite bind_get.
  destruct (state_key float_repr self ts) as [e|key] eqn:Hkey.
  { by apply outcome_key_raises. }
  rewrite (bind_lift (inr key) _ _ _ eq_refl).
  destruct (py_index (legal_actions (observations ts)) (_player_id self))
    as [e|L] eqn:HL.
  { by eapply outcome_legal_raises. }
  rewrite (bind_lift (inr L) _ _ _ eq_refl).
  pose proof (frame_touches_act ts key L is_evaluation top1 u1 u2 self) as Hfr.
  destruct (act ts key L is_evaluation top1 u1 u2 self) as [[e|[a p]] self1]
    eqn:Hact; simpl in Hfr.
  { rewrite (bind_raise _ _ _ _ _ Hact). eapply outcome_act_raises; try done.
    destruct (last ts) eqn:Hlast; [|done].
    unfold act in Hact. rewrite Hlast in Hact. discriminate. }
  rewrite (bind_run _ _ _ _ _ Hact). cbv beta iota. rewrite bind_get.
  assert (Hterm : last ts = true -> self1 = self).
  { intros Hlast. unfold act in Hact. rewrite Hlast in Hact. by injection Hact. }
  rewrite (same_but_store_pending _ _ (proj1 Hfr)).
  destruct (pending_key self) as [prev|] eqn:Hpend.
  2:{ rewrite bind_ret.
      pose proof (outcome_acts float_repr self ts is_evaluation top1 u1 u2
                    key L a p self1 Hkey HL Hact Hfr Hterm (or_intror Hpend))
        as Hout.
      destruct is_evaluation; exact Hout. }
  destruct is_evaluation eqn:Heval; cbn [negb].
  { rewrite bind_ret.
    exact (outcome_acts float_repr self ts true top1 u1 u2
             key L a p self1 Hkey HL Hact Hfr Hterm (or_introl eq_refl)). }
  destruct (_get_action_reward self ts) as [e|reward] eqn:Hrew.
  { rewrite <- (same_but_store_reward _ _ ts (proj1 Hfr)) in Hrew.
    rewrite (bind_raise _ _ _ _ _ (learn_reward_raises self1 ts key L prev e Hrew)).
    rewrite (same_but_store_reward _ _ ts (proj1 Hfr)) in Hrew.
    by eapply outcome_reward_raises. }
  assert (Hne : last ts = false -> L ≠ []).
  { intros Hlast ->. destruct (act_empty self ts key false top1 u1 u2 Hlast) as [e He].
    rewrite He in Hact. discriminate. }
  assert (Hrew1 : _get_action_reward self1 ts = inr reward).
  { by rewrite (same_but_store_reward _ _ ts (proj1 Hfr)). }
  destruct (learn_run_touches self1 ts key L prev reward Hrew1 Hne)
    as (target & self2 & self3 & Hlearn & Hfr2 & Htarget & Hupd).
  rewrite (bind_run _ _ _ _ _ Hlearn).
  assert (Hout : step_outcome float_repr self ts false top1 u1 u2
            (if last ts then (inr None, self3)
             else (inr (Some {| action := a; probs := p |}),
                   set_prev_action a (set_prev_info_state (Some key) self3)))).
  { eapply (outcome_learns float_repr self ts false top1 u1 u2 key L a p self1
              prev reward target self2 self3); try done.
    - by eapply touches_trans.
    - intros Hlast. rewrite Hlast in Htarget. destruct Htarget as [_ ->]. auto.
    - destruct (last ts); [tauto|]. destruct Htarget as (best & Hbest & ->).
      exists best. split.
      + rewrite <- Hbest. f_equal. apply list_fmap_ext. intros _ b _.
        symmetry. apply zero_extension_read. apply (touches_reads_only key L), Hfr.
      + destruct (same_but_store_fields _ _ (proj1 Hfr))
          as (_ & _ & _ & _ & _ & -> & _). done. }
  destruct (last ts); exact Hout.
Qed.

End StepProperties.

(** ** Invariants of [step] *)

Section StepInvariants.

Context {S : Type} `{ValueSchedule S}.

Variable float_repr : Qc -> string.

Lemma state_key_nonempty (self : QLearner S) (ts : TimeStep) (key : string) :
  state_key float_repr self ts = inr key -> String.eqb key "" = false.
Proof.
  unfold state_key. destruct (_centralized self).
  - by intros [= <-].
  - destruct (py_index _ _); [discriminate|]. by intros [= <-].
Qed.

Lemma same_but_store_configuration (self self' : QLearner S) :
  same_but_store self self' -> same_configuration self self'.
Proof.
  intros Hs. apply same_but_store_fields in Hs
    as (? & ? & ? & _ & _ & ? & ? & _ & _ & _ & ?).
  by repeat split.
Qed.

Lemma td_update_configuration (self self' : QLearner S) prev target terminal :
  td_update self self' prev target terminal -> same_configuration self self'.
Proof.
  intros (_ & _ & _ & _ & _ & ? & ? & ? & ? & ? & ?). by repeat split.
Qed.

Lemma same_configuration_trans (s1 s2 s3 : QLearner S) :
  same_configuration s1 s2 -> same_configuration s2 s3 ->
  same_configuration s1 s3.
Proof.
  intros (? & ? & ? & ? & ? & ?) (? & ? & ? & ? & ? & ?).
  repeat split; congruence.
Qed.

(** The configuration fields across one call of [step]. *)
Lemma step_configuration (self : QLearner S) (ts : TimeStep)
    (is_evaluation top1 : bool) (u1 u2 : Qc) :
  same_configuration self
    (snd (step float_repr ts is_evaluation top1 u1 u2 self)).
Proof.
  destruct (step_outcome_holds float_repr self ts is_evaluation top1 u1 u2)
    as [e Hkey|key e Hkey HL|key L e self1 Hkey HL Hact Hfr Hlast
       |key L a p self1 Hkey HL Hact Hfr Hterm Hno
       |key L a p self1 prev e Hkey HL Hact Hfr Hterm Heval Hpend Hrew
       |key L a p self1 prev reward target self2 self3 Hkey HL Hact Heval
          Hpend Hrew Hfr Hterm Htarget Hupd]; simpl.
  - by repeat split.
  - by repeat split.
  - apply same_but_store_configuration, Hfr.
  - pose proof (same_but_store_configuration _ _ (proj1 Hfr)) as Hc.
    destruct is_evaluation; exact Hc.
  - apply same_but_store_configuration, Hfr.
  - pose proof (same_configuration_trans _ _ _
                  (same_but_store_configuration _ _ (proj1 Hfr))
                  (td_update_configuration _ _ _ _ _ Hupd)) as Hc.
    destruct (last ts); exact Hc.
Qed.

(** X7. No call of [step], whether it returns or raises, changes the
    configuration of the agent: player id, number of actions, step
    size, discount factor, mode and rules. *)
Theorem step_keeps_configuration (self : QLearner S) (ts : TimeStep)
    (is_evaluation top1 : bool) (u1 u2 : Qc) :
  same_configuration self
    (snd (step float_repr ts is_evaluation top1 u1 u2 self)).
Proof. apply step_configuration. Qed.

(** X8. What a call of [step], returning or raising, does to the value
    store: an entry keeps its value, or it is new with value 0.0 in
    the row of the current state key at a legal action of a
    non-terminal time step, or it is the entry of the pending
    transition of a training call that returns.  So no entry is ever
    removed. *)
Theorem step_store_changes (self : QLearner S) (ts : TimeStep)
    (is_evaluation top1 : bool) (u1 u2 : Qc) :
  let out := step float_repr ts is_evaluation top1 u1 u2 self in
  (∀ k a,
     q_entry (_q_values (snd out)) k a = q_entry (_q_values self) k a
     ∨ (q_entry (_q_values self) k a = None
        ∧ q_entry (_q_values (snd out)) k a = Some (Q2Qc 0)
        ∧ last ts = false
        ∧ state_key float_repr self ts = inr k
        ∧ ∃ L b, py_index (legal_actions (observations ts)) (_player_id self)
                 = inr L ∧ b ∈ L ∧ a = Some b)
     ∨ (is_evaluation = false
        ∧ pending_key self = Some k
        ∧ a = _prev_action self
        ∧ (∃ r, fst out = inr r)
        ∧ is_Some (q_entry (_q_values (snd out)) k a)))
  ∧ (∀ k a, is_Some (q_entry (_q_values self) k a) ->
            is_Some (q_entry (_q_values (snd out)) k a)).
Proof.
  intros out.
  assert (Htouch : ∀ key L self1 k a,
    state_key float_repr self ts = inr key ->
    py_index (legal_actions (observations ts)) (_player_id self) = inr L ->
    touches key L self self1 -> (last ts = true -> self1 = self) ->
    q_entry (_q_values self1) k a = q_entry (_q_values self) k a
    ∨ (q_entry (_q_values self) k a = None
       ∧ q_entry (_q_values self1) k a = Some (Q2Qc 0)
       ∧ last ts = false
       ∧ state_key float_repr self ts = inr k
       ∧ ∃ L b, py_index (legal_actions (observations ts)) (_player_id self)
                = inr L ∧ b ∈ L ∧ a = Some b)).
  { intros key L self1 k a Hkey HL [_ Hent] Hterm.
    destruct (Hent k a) as [Heq|(-> & (b & Hb & ->) & Hnone & Hzero)];
      [by left|].
    right. split; [done|]. split; [done|]. split.
    - destruct (last ts); [|done]. rewrite (Hterm eq_refl) in Hzero. congruence.
    - split; [done|]. by exists L, b. }
  assert (Hmain : ∀ k a,
     q_entry (_q_values (snd out)) k a = q_entry (_q_values self) k a
     ∨ (q_entry (_q_values self) k a = None
        ∧ q_entry (_q_values (snd out)) k a = Some (Q2Qc 0)
        ∧ last ts = false
        ∧ state_key float_repr self ts = inr k
        ∧ ∃ L b, py_index (legal_actions (observations ts)) (_player_id self)
                 = inr L ∧ b ∈ L ∧ a = Some b)
     ∨ (is_evaluation = false
        ∧ pending_key self = Some k
        ∧ a = _prev_action self
        ∧ (∃ r, fst out = inr r)
        ∧ is_Some (q_entry (_q_values (snd out)) k a))).
  { intros k a. unfold out.
    destruct (step_outcome_holds float_repr self ts is_evaluation top1 u1 u2)
      as [e Hkey|key e Hkey HL|key L e self1 Hkey HL Hact Hfr Hlast
         |key L a' p self1 Hkey HL Hact Hfr Hterm Hno
         |key L a' p self1 prev e Hkey HL Hact Hfr Hterm Heval Hpend Hrew
         |key L a' p self1 prev reward target self2 self3 Hkey HL Hact Heval
            Hpend Hrew Hfr Hterm Htarget Hupd]; cbn [fst snd].
    - by left.
    - by left.
    - destruct (Htouch key L self1 k a Hkey HL Hfr) as [?|?]; [|by left|auto].
      intros Hlast'. congruence.
    - assert (Hq : _q_values (if is_evaluation then self1
                     else set_prev_action a' (set_prev_info_state (Some key) self1))
                   = _q_values self1) by by destruct is_evaluation.
      rewrite Hq. destruct (Htouch key L self1 k a Hkey HL Hfr Hterm); auto.
    - destruct (Htouch key L self1 k a Hkey HL Hfr Hterm); auto.
    - destruct Hupd as (Hentry & _ & _ & _ & Hpa & _).
      destruct (same_but_store_fields _ _ (proj1 Hfr))
        as (_ & _ & _ & _ & _ & _ & _ & _ & _ & Hpa2 & _).
      destruct (last ts) eqn:Hlast;
        cbn [fst snd set_prev_action set_prev_info_state _q_values];
        rewrite Hentry;
        (destruct (decide (k = prev ∧ a = _prev_action self2)) as [[-> ->]|Hne];
         [right; right; rewrite Hpa2; repeat split; eauto
         |destruct (Htouch key L self2 k a Hkey HL Hfr Hterm)
            as [?|(? & ? & ? & ? & ?)];
          [by left|right; left; repeat split; try done; congruence]]). }
  split; [exact Hmain|].
  intros k a [v Hv]. destruct (Hmain k a) as [->|[(Hnone & _)|(_ & _ & _ & _ & Hsome)]].
  - by rewrite Hv.
  - congruence.
  - done.
Qed.

(** X9. A call of [step] advances the exploration schedule exactly
    once, and sets [_epsilon] to the value that [step()] of the
    schedule returns, when it is a training call with a pending
    transition that returns; every other call (an evaluation call, a
    call without a pending transition, a call that raises) leaves the
    schedule and [_epsilon] as they were. *)
Theorem step_advances_schedule (self : QLearner S) (ts : TimeStep)
    (is_evaluation top1 : bool) (u1 u2 : Qc) :
  let out := step float_repr ts is_evaluation top1 u1 u2 self in
  (is_evaluation = false -> is_Some (pending_key self) ->
   (∃ r, fst out = inr r) ->
   (_epsilon (snd out), _epsilon_schedule (snd out))
   = sched_step (_epsilon_schedule self))
  ∧ (is_evaluation = true ∨ pending_key self = None ∨ (∃ e, fst out = inl e) ->
     (_epsilon (snd out), _epsilon_schedule (snd out))
     = (_epsilon self, _epsilon_schedule self)).
Proof.
  intros out. unfold out.
  assert (Hsame : ∀ self1 : QLearner S, same_but_store self self1 ->
            (_epsilon self1, _epsilon_schedule self1)
            = (_epsilon self, _epsilon_schedule self)).
  { intros self1 Hs. apply same_but_store_fields in Hs
      as (_ & _ & _ & -> & -> & _). done. }
  destruct (step_outcome_holds float_repr self ts is_evaluation top1 u1 u2)
    as [e Hkey|key e Hkey HL|key L e self1 Hkey HL Hact Hfr Hlast
       |key L a p self1 Hkey HL Hact Hfr Hterm Hno
       |key L a p self1 prev e Hkey HL Hact Hfr Hterm Heval Hpend Hrew
       |key L a p self1 prev reward target self2 self3 Hkey HL Hact Heval
          Hpend Hrew Hfr Hterm Htarget Hupd]; cbn [fst snd].
  - split; [by intros _ _ [r Hr]|done].
  - split; [by intros _ _ [r Hr]|done].
  - split; [by intros _ _ [r Hr]|]. intros _. apply Hsame, Hfr.
  - split.
    + intros Heval [prev Hpend] _. destruct Hno; congruence.
    + intros _. rewrite <- (Hsame self1 (proj1 Hfr)). by destruct is_evaluation.
  - split; [by intros _ _ [r Hr]|]. intros _. apply Hsame, Hfr.
  - destruct Hupd as (_ & _ & Hsched & _).
    destruct (same_but_store_fields _ _ (proj1 Hfr)) as (_ & _ & _ & Hs & _).
    rewrite Hs in Hsched.
    destruct (last ts);
      cbn [fst snd set_prev_action set_prev_info_state _epsilon _epsilon_schedule];
      (split; [done|]);
      (intros [Hev|[Hnone|[e He]]]; [congruence|congruence|discriminate]).
Qed.

(** X10. A call of [step] that raises has learned nothing and recorded
    nothing: every field of the agent other than the value store is
    as before the call, no entry of the store has changed, every
    entry that is new holds 0.0, and every read returns what it
    returned before. *)
Theorem step_raise_safe (self : QLearner S) (ts : TimeStep)
    (is_evaluation top1 : bool) (u1 u2 : Qc) (e : exn) :
  let out := step float_repr ts is_evaluation top1 u1 u2 self in
  fst out = inl e ->
  snd out = set_q_values (_q_values (snd out)) self
  ∧ zero_extension (_q_values self) (_q_values (snd out))
  ∧ ∀ k a, q_read (_q_values (snd out)) k a = q_read (_q_values self) k a.
Proof.
  intros out. unfold out.
  assert (Hro : ∀ self1 : QLearner S, reads_only self self1 ->
            self1 = set_q_values (_q_values self1) self
            ∧ zero_extension (_q_values self) (_q_values self1)
            ∧ ∀ k a, q_read (_q_values self1) k a = q_read (_q_values self) k a).
  { intros self1 [Hs Hz]. split; [exact Hs|]. split; [exact Hz|].
    intros k a. by apply zero_extension_read. }
  destruct (step_outcome_holds float_repr self ts is_evaluation top1 u1 u2)
    as [e' Hkey|key e' Hkey HL|key L e' self1 Hkey HL Hact Hfr Hlast
       |key L a p self1 Hkey HL Hact Hfr Hterm Hno
       |key L a p self1 prev e' Hkey HL Hact Hfr Hterm Heval Hpend Hrew
       |key L a p self1 prev reward target self2 self3 Hkey HL Hact Heval
          Hpend Hrew Hfr Hterm Htarget Hupd]; cbn [fst snd]; intros Hraise.
  - apply Hro, reads_only_refl.
  - apply Hro, reads_only_refl.
  - apply Hro. by eapply touches_reads_only.
  - discriminate.
  - apply Hro. by eapply touches_reads_only.
  - destruct (last ts); discriminate.
Qed.

End StepInvariants.

(** ** The pending transition across calls *)

Section PendingTransition.

Context {S : Type} `{ValueSchedule S}.

Variable float_repr : Qc -> string.

(** A training call that returns a step result has recorded the
    current state key and the returned action as pending transition. *)
Lemma step_records_transition (self self' : QLearner S) (ts : TimeStep)
    (top1 : bool) (u1 u2 : Qc) (o : StepOutput) :
  step float_repr ts false top1 u1 u2 self = (inr (Some o), self') ->
  ∃ key, state_key float_repr self ts = inr key
         ∧ _prev_info_state self' = Some key
         ∧ pending_key self' = Some key
         ∧ _prev_action self' = action o.
Proof.
  intros Hstep.
  pose proof (step_outcome_holds float_repr self ts false top1 u1 u2) as Hout.
  rewrite Hstep in Hout.
  assert (Hpending : ∀ key (s : QLearner S) a,
    state_key float_repr self ts = inr key ->
    pending_key (set_prev_action a (set_prev_info_state (Some key) s)) = Some key).
  { intros key s a Hkey. unfold pending_key. simpl.
    by rewrite (state_key_nonempty float_repr self ts key Hkey). }
  inversion Hout
    as [e Hkey|key e Hkey HL|key L e self1 Hkey HL Hact Hfr Hlast
       |key L a p self1 Hkey HL Hact Hfr Hterm Hno Hres
       |key L a p self1 prev e Hkey HL Hact Hfr Hterm Heval Hpend Hrew
       |key L a p self1 prev reward target self2 self3 Hkey HL Hact Heval
          Hpend Hrew Hfr Hterm Htarget Hupd Hres].
  - exists key. subst. split; [done|]. split; [done|]. split; [|done].
    by apply Hpending.
  - destruct (last ts); [discriminate|]. injection Hres as <- <-.
    exists key. split; [done|]. split; [done|]. split; [|done].
    by apply Hpending.
Qed.

(** X11. A training call that finds no pending transition and returns
    has learned nothing: the loss is as before and every read of the
    store returns what it returned before.  It returns a step result
    and records the current state key together with the returned
    action as pending transition; at a terminal time step the returned
    action and probabilities are [None], so the pending transition it
    leaves is the terminal state key with the action [None]. *)
Theorem step_without_pending (self self' : QLearner S) (ts : TimeStep)
    (top1 : bool) (u1 u2 : Qc) (r : option StepOutput) :
  pending_key self = None ->
  step float_repr ts false top1 u1 u2 self = (inr r, self') ->
  ∃ key o,
    state_key float_repr self ts = inr key
    ∧ r = Some o
    ∧ pending_key self' = Some key
    ∧ _prev_action self' = action o
    ∧ (last ts = true -> action o = None ∧ probs o = None)
    ∧ _last_loss_value self' = _last_loss_value self
    ∧ ∀ k a, q_read (_q_values self') k a = q_read (_q_values self) k a.
Proof.
  intros Hnone Hstep.
  pose proof (step_outcome_holds float_repr self ts false top1 u1 u2) as Hout.
  rewrite Hstep in Hout.
  inversion Hout
    as [e Hkey|key e Hkey HL|key L e self1 Hkey HL Hact Hfr Hlast
       |key L a p self1 Hkey HL Hact Hfr Hterm Hno Hres
       |key L a p self1 prev e Hkey HL Hact Hfr Hterm Heval Hpend Hrew
       |key L a p self1 prev reward target self2 self3 Hkey HL Hact Heval
          Hpend Hrew Hfr Hterm Htarget Hupd Hres]; [|congruence].
  subst. exists key, {| action := a; probs := p |}.
  split; [done|]. split; [done|]. split.
  { unfold pending_key. simpl.
    by rewrite (state_key_nonempty float_repr self ts key Hkey). }
  split; [done|]. split.
  { intros Hlast. unfold act in Hact. rewrite Hlast in Hact.
    by injection Hact as <- <- _. }
  destruct (same_but_store_fields _ _ (proj1 Hfr))
    as (_ & _ & _ & _ & _ & _ & _ & _ & Hloss & _).
  split; [done|]. intros k b. simpl.
  apply zero_extension_read. by apply (touches_reads_only key L).
Qed.

(** X12. Two training calls in a row: when the first returns a step
    result, the second (whose lookups, act step and reward computation
    do not raise) updates the entry at the state key of the first
    call and the action the first call returned, from its estimate
    [old] to [old + step_size * (target - old)], where the target is
    the second call's reward, plus the discounted maximum over its
    legal actions when its time step is not terminal. *)
Theorem step_then_step (self self1 : QLearner S) (ts1 ts2 : TimeStep)
    (top1 top1' : bool) (u1 u2 u1' u2' : Qc) (o1 : StepOutput)
    key2 L2 reward a2 p2 s :
  step float_repr ts1 false top1 u1 u2 self = (inr (Some o1), self1) ->
  state_key float_repr self1 ts2 = inr key2 ->
  py_index (legal_actions (observations ts2)) (_player_id self1) = inr L2 ->
  act ts2 key2 L2 false top1' u1' u2' self1 = (inr (a2, p2), s) ->
  _get_action_reward self1 ts2 = inr reward ->
  ∃ key1 target out self2,
    state_key float_repr self ts1 = inr key1
    ∧ step float_repr ts2 false top1' u1' u2' self1 = (inr out, self2)
    ∧ (if last ts2 then target = reward
       else ∃ best,
           py_max ((fun a => q_read (_q_values self1) key2 (Some a)) <$> L2)
           = inr best
           ∧ target = reward + _discount_factor self * best)
    ∧ let old := q_read (_q_values self1) key1 (action o1) in
      q_entry (_q_values self2) key1 (action o1)
      = Some (old + _step_size self * (target - old)).
Proof.
  intros Hstep1 Hkey2 HL2 Hact2 Hrew2.
  destruct (step_records_transition self self1 ts1 top1 u1 u2 o1 Hstep1)
    as (key1 & Hkey1 & _ & Hpend & Hpa).
  destruct (step_training_run float_repr self1 s ts2 top1' u1' u2' key2 L2 key1
              reward a2 p2 Hkey2 HL2 Hact2 Hpend Hrew2)
    as (target & self2 & self3 & Hfr & _ & Htarget & Hupd & Hstep2).
  pose proof (step_configuration float_repr self ts1 false top1 u1 u2) as Hcfg.
  rewrite Hstep1 in Hcfg. cbn [snd] in Hcfg.
  destruct Hcfg as (_ & _ & Hss & Hdf & _).
  destruct Hupd as (Hentry & _).
  destruct (same_but_store_fields _ _ (proj1 Hfr))
    as (_ & _ & Hss2 & _ & _ & _ & _ & _ & _ & Hpa2 & _).
  rewrite (zero_extension_read _ _ key1 _ (proj2 Hfr)), Hss2, Hpa2, Hpa, Hss
    in Hentry.
  specialize (Hentry key1 (action o1)). rewrite decide_True in Hentry by done.
  assert (Hout : ∃ out self2',
    step float_repr ts2 false top1' u1' u2' self1 = (inr out, self2')
    ∧ _q_values self2' = _q_values self3).
  { rewrite Hstep2. destruct (last ts2); eexists _, _; (split; [reflexivity|done]). }
  destruct Hout as (out & self2' & Hrun & Hq).
  exists key1, target, out, self2'. split; [done|]. split; [done|]. split.
  - destruct (last ts2); [done|]. destruct Htarget as (best & Hbest & ->).
    exists best. by rewrite <- Hdf.
  - simpl. by rewrite Hq.
Qed.

(** X13. When the player id of the agent is not an index of the list
    of legal-action lists (neither in [0, n) nor, counted from the
    end, in [-n, 0)), [step] raises [IndexError] and leaves the agent
    as it was. *)
Theorem step_player_out_of_range (self : QLearner S) (ts : TimeStep)
    (is_evaluation top1 : bool) (u1 u2 : Qc) :
  let n := Z.of_nat (length (legal_actions (observations ts))) in
  (_player_id self < - n ∨ n <= _player_id self)%Z ->
  step float_repr ts is_evaluation top1 u1 u2 self = (inl IndexError, self).
Proof.
  intros n Hout.
  assert (Hraise : ∀ A (l : list A) i e, py_index l i = inl e -> e = IndexError).
  { intros A l i e. unfold py_index, norm_index.
    destruct (_ && _)%bool; cbn [rbind]; [|by intros [= <-]].
    destruct (l !! _); [discriminate|by intros [= <-]]. }
  assert (HL : py_index (legal_actions (observations ts)) (_player_id self)
               = inl IndexError).
  { unfold py_index, norm_index. fold n.
    destruct (_player_id self <? 0)%Z eqn:Hneg.
    - destruct (0 <=? _player_id self + n)%Z eqn:H0; [|done].
      destruct (_player_id self + n <? n)%Z eqn:H1; [lia|done].
    - destruct (0 <=? _player_id self)%Z eqn:H0; [|done].
      destruct (_player_id self <? n)%Z eqn:H1; [lia|done]. }
  unfold step. rewrite bind_get.
  destruct (state_key float_repr self ts) as [e|key] eqn:Hkey.
  - unfold state_key in Hkey. destruct (_centralized self); [discriminate|].
    destruct (py_index (info_state (observations ts)) (_player_id self))
      as [e'|v] eqn:Hv; [|discriminate].
    injection Hkey as <-. by rewrite (Hraise _ _ _ _ Hv).
  - rewrite (bind_lift (inr key) _ _ _ eq_refl). unfold bind, lift.
    by rewrite HL.
Qed.

End PendingTransition.

(** ** The action that is returned *)

(** Inverse-transform sampling: a draw [u] with [acc <= u < acc + sum p]
    stops at an index of positive probability. *)
Lemma cumsum_support (p : list Qc) (acc u : Qc) :
  (∀ x, x ∈ p -> Q2Qc 0 <= x) ->
  acc <= u -> u < acc + py_sum p ->
  ∃ x, p !! searchsorted_right (cumsum_from acc p) u = Some x ∧ Q2Qc 0 < x.
Proof.
  revert acc. induction p as [|x p IH]; intros acc Hpos Hlo Hhi.
  - exfalso. replace (acc + py_sum []) with acc in Hhi by (unfold py_sum; simpl; ring).
    by apply Qcle_not_lt in Hlo.
  - simpl. rewrite py_sum_cons in Hhi.
    destruct (decide (acc + x <= u)) as [Hle|Hgt].
    + simpl. apply IH; [|done|].
      * intros y Hy. apply Hpos. by right.
      * by replace (acc + x + py_sum p) with (acc + (x + py_sum p)) by ring.
    + exists x. split; [done|].
      apply Qcnot_le_lt in Hgt.
      pose proof (Qcle_lt_trans _ _ _ Hlo Hgt) as Hlt.
      apply Qclt_minus_iff in Hlt.
      by replace (acc + x + - acc) with x in Hlt by ring.
Qed.

Lemma py_sum_positive_entry (p : list Qc) :
  (∀ x, x ∈ p -> Q2Qc 0 <= x) -> py_sum p ≠ Q2Qc 0 ->
  ∃ x, x ∈ p ∧ Q2Qc 0 < x.
Proof.
  induction p as [|x p IH]; intros Hpos Hsum; [done|].
  rewrite py_sum_cons in Hsum.
  destruct (decide (Q2Qc 0 < x)) as [Hx|Hx].
  - exists x. split; [left|done].
  - assert (Hx0 : x = Q2Qc 0).
    { apply Qcle_antisym; [by apply Qc_not_lt_le|]. apply Hpos. left. }
    subst x. destruct IH as (y & Hy & Hy0).
    + intros y Hy. apply Hpos. by right.
    + intros Hp. apply Hsum. rewrite Hp. ring.
    + exists y. split; [by right|done].
Qed.

Section ReturnedAction.

Context {S : Type} `{ValueSchedule S}.

(** Both branches of the selector produce a probability vector over
    the legal actions and draw the action from it. *)
Lemma selector_run (self : QLearner S) key (L : list Z) (eps u1 u2 : Qc) :
  L ≠ [] -> NoDup L ->
  (∀ a, a ∈ L -> (0 <= a < _num_actions self)%Z) ->
  ∃ p self',
    length p = Z.to_nat (_num_actions self)
    ∧ py_sum p = Q2Qc 1
    ∧ (∀ x, x ∈ p -> Q2Qc 0 <= x)
    ∧ (∀ i, (i < Z.to_nat (_num_actions self))%nat -> Z.of_nat i ∉ L ->
            p !! i = Some (Q2Qc 0))
    ∧ _epsilon_greedy key L eps u1 u2 self
      = (inr (Z.of_nat (searchsorted_right (np_cumsum p) u2), p), self').
Proof.
  intros Hne Hnd Hrange.
  destruct (decide (u1 < eps)) as [Hexplore|Hgreedy].
  - destruct (explore_run self key L eps u1 u2 Hne Hnd Hrange Hexplore)
      as (v & p & Hv & Hlen & Hsum & Hin & Hout & Hrun).
    exists p, self. split; [done|]. split; [done|]. split; [|done].
    intros x Hx. apply list_elem_of_lookup in Hx as [i Hi].
    destruct (decide (Z.of_nat i ∈ L)) as [HiL|HiL].
    + specialize (Hin _ HiL). rewrite Nat2Z.id, Hi in Hin.
      injection Hin as ->. by apply (py_inv_nonneg (length L)).
    + rewrite Hout in Hi; [by injection Hi as <-| |done].
      apply lookup_lt_Some in Hi. lia.
  - destruct (greedy_run self key L eps u1 u2 Hne Hrange Hgreedy)
      as (i & best & self' & Hi & Hbest & Hfr & Hrun).
    assert (HbL : best ∈ L) by (apply list_elem_of_lookup; eauto).
    pose proof (Hrange best HbL) as Hb.
    eexists _, self'. split; [|split; [|split; [|split; [|exact Hrun]]]].
    + by rewrite length_insert, length_replicate.
    + apply one_hot_sum. lia.
    + intros x Hx. apply list_elem_of_lookup in Hx as [j Hj].
      assert (Hjn : (j < Z.to_nat (_num_actions self))%nat).
      { apply lookup_lt_Some in Hj.
        by rewrite length_insert, length_replicate in Hj. }
      rewrite one_hot_lookup in Hj by done. injection Hj as <-.
      by destruct (decide _).
    + intros j Hj HjL. rewrite one_hot_lookup by done.
      rewrite decide_False; [done|]. intros ->.
      apply HjL. by rewrite Z2Nat.id by lia.
Qed.

(** X14. At a time step that is not terminal, with a non-empty
    duplicate-free list [L] of legal action ids in [0, num_actions)
    and a sampling draw [u2] in [0, 1), the act step returns, in
    training and in evaluation, with and without [top1], an action
    of [L], and the probability vector it returns gives that action
    a positive probability. *)
Theorem act_returns_legal_action (self : QLearner S) (ts : TimeStep)
    (key : string) (L : list Z) (is_evaluation top1 : bool) (u1 u2 : Qc) :
  last ts = false ->
  L ≠ [] -> NoDup L ->
  (∀ a, a ∈ L -> (0 <= a < _num_actions self)%Z) ->
  Q2Qc 0 <= u2 -> u2 < Q2Qc 1 ->
  ∃ a p self',
    act ts key L is_evaluation top1 u1 u2 self
    = (inr (Some a, Some p), self')
    ∧ a ∈ L
    ∧ ∃ x, p !! Z.to_nat a = Some x ∧ Q2Qc 0 < x.
Proof.
  intros Hlast Hne Hnd Hrange Hu0 Hu1.
  destruct (selector_run self key L
              (if is_evaluation then Q2Qc 0 else _epsilon self) u1 u2
              Hne Hnd Hrange)
    as (p & self' & Hlen & Hsum & Hpos & Hout & Hrun).
  assert (Hlegal : ∀ i x, p !! i = Some x -> Q2Qc 0 < x -> Z.of_nat i ∈ L).
  { intros i x Hi Hx. destruct (decide (Z.of_nat i ∈ L)) as [|HiL]; [done|].
    rewrite Hout in Hi; [|apply lookup_lt_Some in Hi; lia|done].
    injection Hi as <-. by apply Qclt_not_le in Hx. }
  assert (Hact : ∃ i,
    act ts key L is_evaluation top1 u1 u2 self
    = (inr (Some (Z.of_nat i), Some p), self')
    ∧ ∃ x, p !! i = Some x ∧ Q2Qc 0 < x).
  { unfold act, _get_action_probs. rewrite Hlast. cbn [negb].
    rewrite bind_get, (bind_run _ _ _ _ _ Hrun). cbv beta iota.
    destruct (top1 || is_evaluation).
    - destruct (np_argmax_nonempty p) as [i Hi].
      { intros ->. simpl in Hlen. destruct L as [|a L]; [done|].
        assert (Ha : a ∈ a :: L) by left. specialize (Hrange a Ha). lia. }
      exists i. split; [unfold bind, lift, ret; by rewrite Hi|].
      destruct (np_argmax_spec _ _ Hi) as (m & Hm & Hall & _).
      exists m. split; [done|].
      destruct (py_sum_positive_entry p Hpos) as (y & Hy & Hy0).
      { by rewrite Hsum. }
      eapply Qclt_le_trans; [exact Hy0|]. by apply Hall.
    - eexists. split; [reflexivity|].
      apply cumsum_support; [done|done|].
      rewrite Hsum. by replace (Q2Qc 0 + Q2Qc 1) with (Q2Qc 1) by ring. }
  destruct Hact as (i & Hact & x & Hi & Hx).
  exists (Z.of_nat i), p, self'. split; [done|]. split; [by eapply Hlegal|].
  exists x. by rewrite Nat2Z.id.
Qed.

Variable float_repr : Qc -> string.

(** X15. In a training call with [top1] set, the act step of [step]
    (the selection and the [np.argmax] that follows it), when it
    explores (the draw [u1] is below the exploration rate), does not
    return the sampled action: it returns the smallest action id of
    [L], whatever the sampling draw [u2] is.  The act step itself
    leaves the agent as it was: the exploring branch reads no
    estimate, so it creates no store entry.  The call of [step] goes
    on from there: when no transition is pending it returns that
    action with the uniform probabilities, and the only change it
    makes to the agent is to record the state key and that action as
    the pending transition. *)
Theorem act_top1_exploring (self : QLearner S) (ts : TimeStep)
    (key : string) (L : list Z) (u1 u2 : Qc) :
  last ts = false ->
  L ≠ [] -> NoDup L ->
  (∀ a, a ∈ L -> (0 <= a < _num_actions self)%Z) ->
  u1 < _epsilon self ->
  ∃ a p,
    act ts key L false true u1 u2 self = (inr (Some a, Some p), self)
    ∧ a ∈ L
    ∧ (∀ b, b ∈ L -> (a <= b)%Z)
    ∧ (state_key float_repr self ts = inr key ->
       py_index (legal_actions (observations ts)) (_player_id self) = inr L ->
       pending_key self = None ->
       step float_repr ts false true u1 u2 self
       = (inr (Some {| action := Some a; probs := Some p |}),
          set_prev_action (Some a) (set_prev_info_state (Some key) self))).
Proof.
  intros Hlast Hne Hnd Hrange Hexplore.
  destruct (explore_run self key L (_epsilon self) u1 u2 Hne Hnd Hrange Hexplore)
    as (v & p & Hv & Hlen & Hsum & Hin & Hout & Hrun).
  assert (Hv0 : Q2Qc 0 < v).
  { destruct (Qcle_lt_or_eq _ _ (py_inv_nonneg _ _ Hv)) as [|Hz]; [done|].
    exfalso. subst v. destruct L as [|a L]; [done|].
    pose proof (py_inv_mult _ _ Hv) as Hm. revert Hm.
    replace (Qc_of_nat (length (a :: L)) * Q2Qc 0) with (Q2Qc 0) by ring.
    done. }
  destruct (np_argmax_nonempty p) as [i Hi].
  { intros ->. simpl in Hlen. destruct L as [|a L]; [done|].
    assert (Ha : a ∈ a :: L) by left. specialize (Hrange a Ha). lia. }
  destruct (np_argmax_spec _ _ Hi) as (m & Hm & Hall & Hbefore).
  assert (HmL : ∀ b, b ∈ L -> v <= m).
  { intros b Hb. apply Hall. apply list_elem_of_lookup.
    exists (Z.to_nat b). by apply Hin. }
  assert (HiL : Z.of_nat i ∈ L).
  { destruct (decide (Z.of_nat i ∈ L)) as [|HiL]; [done|]. exfalso.
    rewrite Hout in Hm; [|apply lookup_lt_Some in Hm; lia|done].
    injection Hm as <-. destruct L as [|b L]; [done|].
    assert (Hb : b ∈ b :: L) by left.
    apply (Qclt_not_le _ _ Hv0). by apply (HmL b). }
  assert (Hact : act ts key L false true u1 u2 self
                 = (inr (Some (Z.of_nat i), Some p), self)).
  { unfold act, _get_action_probs. rewrite Hlast. cbn [negb].
    rewrite bind_get, (bind_run _ _ _ _ _ Hrun). cbv beta iota.
    cbn [orb]. unfold bind, lift, ret. by rewrite Hi. }
  exists (Z.of_nat i), p. split; [done|]. split; [done|]. split.
  - intros b Hb. destruct (decide (Z.of_nat i <= b)%Z) as [|Hlt]; [done|].
    exfalso. pose proof (Hrange b Hb) as Hb0.
    assert (Hlt' : (Z.to_nat b < i)%nat) by lia.
    pose proof (Hbefore _ _ Hlt' (Hin b Hb)) as Hvm.
    pose proof (Hin _ HiL) as Hvi. rewrite Nat2Z.id, Hm in Hvi.
    injection Hvi as ->. by apply Qclt_not_le in Hvm.
  - intros Hkey HL Hnone. unfold step. rewrite bind_get.
    rewrite (bind_lift _ _ _ _ Hkey), (bind_lift _ _ _ _ HL).
    rewrite (bind_run _ _ _ _ _ Hact). rewrite bind_get, Hnone.
    reflexivity.
Qed.

End ReturnedAction.

(** ** Reads and writes of the value store *)

Section StoreProperties.

Context {S : Type} `{ValueSchedule S}.

(** X16. Reads of the store settle: a second read of the same entry
    returns the value of the first and leaves the agent exactly as
    the first read left it, and the agent reached by two reads does
    not depend on their order. *)
Theorem q_getitem_settles (self : QLearner S) (k k' : string)
    (a a' : action_key) :
  q_getitem k a (snd (q_getitem k a self))
  = (inr (q_read (_q_values self) k a), snd (q_getitem k a self))
  ∧ snd (q_getitem k' a' (snd (q_getitem k a self)))
    = snd (q_getitem k a (snd (q_getitem k' a' self))).
Proof.
  split.
  - unfold q_getitem, q_read. simpl. rewrite !lookup_insert_eq. simpl.
    rewrite !lookup_insert_eq. simpl. f_equal.
    unfold set_q_values. simpl. f_equal.
    by rewrite !insert_insert_eq.
  - unfold q_getitem. simpl. unfold set_q_values. simpl. f_equal.
    destruct (decide (k = k')) as [<-|Hk].
    + rewrite !lookup_insert_eq. simpl. rewrite !insert_insert_eq. f_equal.
      destruct (decide (a = a')) as [<-|Ha].
      * rewrite !lookup_insert_eq. simpl. by rewrite !insert_insert_eq.
      * rewrite !lookup_insert_ne by done. by apply insert_insert_ne.
    + rewrite !lookup_insert_ne by done. by apply insert_insert_ne.
Qed.

(** X17. A read after a write of the same entry returns the written
    value and changes nothing, and a second write of an entry
    replaces the first. *)
Theorem q_setitem_then_getitem (self : QLearner S) (k : string)
    (a : action_key) (v w : Qc) :
  q_getitem k a (snd (q_setitem k a v self))
  = (inr v, snd (q_setitem k a v self))
  ∧ snd (q_setitem k a w (snd (q_setitem k a v self)))
    = snd (q_setitem k a w self).
Proof.
  split.
  - unfold q_getitem, q_setitem. simpl. rewrite !lookup_insert_eq. simpl.
    rewrite !lookup_insert_eq. simpl. f_equal.
    unfold set_q_values. simpl. f_equal.
    by rewrite !insert_insert_eq.
  - unfold q_setitem. simpl. rewrite !lookup_insert_eq. simpl.
    unfold set_q_values. simpl. f_equal.
    by rewrite !insert_insert_eq.
Qed.

End StoreProperties.

(** ** Legal actions that are no indices *)

Lemma norm_index_out_of_range (n : nat) (a : Z) :
  (a < - Z.of_nat n ∨ Z.of_nat n <= a)%Z -> norm_index n a = inl IndexError.
Proof.
  intros Ha. unfold norm_index.
  destruct (a <? 0)%Z eqn:Hneg.
  - destruct (0 <=? a + Z.of_nat n)%Z eqn:H0; [|done].
    destruct (a + Z.of_nat n <? Z.of_nat n)%Z eqn:H1; [lia|done].
  - destruct (0 <=? a)%Z eqn:H0; [|done].
    destruct (a <? Z.of_nat n)%Z eqn:H1; [lia|done].
Qed.

Lemma norm_index_raises (n : nat) (a : Z) (e : exn) :
  norm_index n a = inl e -> e = IndexError.
Proof.
  unfold norm_index. destruct (_ && _)%bool; [discriminate|]. by intros [= <-].
Qed.

Lemma np_set_many_out_of_range (idx : list Z) (p : list Qc) (v : Qc) (a : Z) :
  a ∈ idx ->
  (a < - Z.of_nat (length p) ∨ Z.of_nat (length p) <= a)%Z ->
  np_set_many p idx v = inl IndexError.
Proof.
  revert p. induction idx as [|i idx IH]; intros p Ha Hout; [inversion Ha|].
  simpl. unfold np_set.
  destruct (norm_index (length p) i) as [e|j] eqn:Hj; simpl.
  - by rewrite (norm_index_raises _ _ _ Hj).
  - apply elem_of_cons in Ha as [->|Ha].
    + by rewrite norm_index_out_of_range in Hj.
    + apply IH; [done|]. by rewrite length_insert.
Qed.

Section IllegalIndices.

Context {S : Type} `{ValueSchedule S}.

(** X19. The selector does not check that the legal actions are
    action ids: when it explores and some legal action is no index of
    the probability vector (it is neither in [0, num_actions) nor,
    counted from the end, in [-num_actions, 0)), it raises
    [IndexError] and leaves the agent as it was. *)
Theorem epsilon_greedy_index_error (self : QLearner S) (key : string)
    (L : list Z) (eps u1 u2 : Qc) (a : Z) :
  (0 <= _num_actions self)%Z ->
  a ∈ L ->
  (a < - _num_actions self ∨ _num_actions self <= a)%Z ->
  u1 < eps ->
  _epsilon_greedy key L eps u1 u2 self = (inl IndexError, self).
Proof.
  intros Hn Ha Hout Hexplore. unfold _epsilon_greedy. rewrite bind_get.
  rewrite (bind_lift _ _ _ _ (np_zeros_nonneg _ Hn)).
  rewrite decide_True by done.
  destruct (py_inv (length L)) as [e|v] eqn:Hv.
  { destruct L; [inversion Ha|discriminate]. }
  unfold bind, lift.
  rewrite (np_set_many_out_of_range L _ v a Ha); [done|].
  rewrite length_replicate. lia.
Qed.

End IllegalIndices.

Section CommandLineDefault.

Variable py_int : string -> option Z.

(** X20. The loop of [command_line_action] starts from the action -1
    and tests it before it prompts: when -1 is among the legal
    actions of the player to move, -1 is returned and no line is
    read. *)
Theorem command_line_action_minus_one (ts : TimeStep) (L : list Z)
    (lines : list string) :
  py_index (legal_actions (observations ts))
    (current_player (observations ts)) = inr L ->
  (-1)%Z ∈ L ->
  command_line_action py_int ts lines = inr ((-1)%Z, lines).
Proof.
  intros HL Hneg. unfold command_line_action. rewrite HL.
  destruct lines; simpl; by rewrite decide_True.
Qed.

End CommandLineDefault.

(** ** The reward of the agents that [main] builds *)

Section ShapedReward.

Context {S : Type} `{ValueSchedule S}.


End ShapedReward.

(** * The further properties on the sample position *)

(** X1 on the sample position. *)
Lemma info_state_to_board_cells_witness :
  info_state_to_board sample_mid
  = inr [[-1; 1; -1]; [1; 0; 1]; [0; 0; 0]]%Z.
Proof.
  rewrite (info_state_to_board_cells sample_mid sample_vector [sample_vector]).
  - reflexivity.
  - reflexivity.
  - simpl. constructor.
Defined.


Lemma sample_actions_nonnegative : (-1)%Z ∉ [4; 6; 7; 8]%Z.
Proof.
  intros Hin. repeat (apply elem_of_cons in Hin as [Heq|Hin]; [discriminate|]).
  inversion Hin.
Qed.

(** X6 on the sample lines: the third line selects the action 6. *)
Lemma command_line_action_first_legal_witness :
  ∃ skipped line,
    sample_lines = skipped ++ line :: ["9"]
    ∧ sample_int line = Some 7%Z
    ∧ Forall (fun l => selects sample_int [4; 6; 7; 8]%Z l = false) skipped.
Proof.
  pose proof (command_line_action_first_legal sample_int sample_mid
                [4; 6; 7; 8]%Z sample_lines eq_refl
                sample_actions_nonnegative) as Hw.
  change (command_line_action sample_int sample_mid sample_lines)
    with (inr (6%Z, ["9"]) : io_exn + Z * list string) in Hw.
  destruct Hw as (skipped & line & Hl & Hi & _ & Hs).
  exists skipped, line. split; [exact Hl|]. split; [exact Hi|exact Hs].
Defined.

(** X10 on a training call whose greedy act step has created entries
    before the reward lookup raises. *)
Lemma step_raise_safe_witness :
  let out := step frac_repr sample_unpaid false false (Q2Qc (1 # 2))
               (Q2Qc (1 # 2)) pending_agent in
  fst out = inl IndexError
  ∧ snd out = set_q_values (_q_values (snd out)) pending_agent
  ∧ ∀ k a, q_read (_q_values (snd out)) k a = Q2Qc 0.
Proof.
  intros out.
  assert (Hraise : fst out = inl IndexError) by reflexivity.
  destruct (step_raise_safe frac_repr pending_agent sample_unpaid false false
              (Q2Qc (1 # 2)) (Q2Qc (1 # 2)) IndexError Hraise)
    as (Hfields & _ & Hread).
  split; [exact Hraise|]. split; [exact Hfields|].
  intros k a. rewrite Hread. reflexivity.
Defined.

(** X11 on the first call of a fresh agent, which explores. *)
Lemma step_without_pending_witness :
  let out := step frac_repr sample_first false false (Q2Qc (1 # 10))
               (Q2Qc (1 # 2)) fresh_agent in
  ∃ o, fst out = inr (Some o)
       ∧ pending_key (snd out) = Some (str_list frac_repr sample_vector)
       ∧ _prev_action (snd out) = action o
       ∧ _last_loss_value (snd out) = None.
Proof.
  intros out.
  destruct (step_without_pending frac_repr fresh_agent (snd out) sample_first
              false (Q2Qc (1 # 10)) (Q2Qc (1 # 2))
              (match fst out with inr r => r | inl _ => None end))
    as (key & o & Hkey & Hr & Hpend & Hpa & _ & Hloss & _).
  - reflexivity.
  - vm_compute. reflexivity.
  - exists o. split; [|split; [|split]].
    + rewrite <- Hr. vm_compute. reflexivity.
    + rewrite Hpend. f_equal. by injection Hkey as <-.
    + exact Hpa.
    + exact Hloss.
Defined.

(** X12 on a first call followed by the terminal call of the episode:
    with step size 0.5 and reward 1.0 the estimate of the action
    chosen first becomes 0.5. *)
Lemma step_then_step_witness :
  let out1 := step frac_repr sample_first false false (Q2Qc (1 # 10))
                (Q2Qc (1 # 2)) fresh_agent in
  let out2 := step frac_repr sample_last false false (Q2Qc 0) (Q2Qc 0)
                (snd out1) in
  q_entry (_q_values (snd out2)) (str_list frac_repr sample_vector) (Some 7%Z)
  = Some (Q2Qc (1 # 2)).
Proof.
  intros out1 out2.
  destruct (step_then_step frac_repr fresh_agent (snd out1) sample_first
              sample_last false false (Q2Qc (1 # 10)) (Q2Qc (1 # 2)) (Q2Qc 0)
              (Q2Qc 0)
              {| action := Some 7%Z;
                 probs := Some (Q2Qc <$> [0; 0; 0; 0; 1 # 4; 0; 1 # 4; 1 # 4;
                                          1 # 4]%Q) |}
              (str_list frac_repr sample_vector) [] (Q2Qc 1 + Q2Qc 0)
              None None (snd out1))
    as (key1 & target & out & self2 & Hkey & Hrun & Htarget & Hentry).
  - vm_compute. reflexivity.
  - reflexivity.
  - reflexivity.
  - reflexivity.
  - reflexivity.
  - injection Hkey as <-. simpl in Htarget. subst target.
    unfold out2. rewrite Hrun. cbn [snd].
    cbv zeta in Hentry. cbn [action] in Hentry. rewrite Hentry. f_equal.
Defined.

(** X13 on a time step without a list of legal-action lists. *)
Lemma step_player_out_of_range_witness :
  step frac_repr sample_unlisted false false (Q2Qc 0) (Q2Qc 0) fresh_agent
  = (inl IndexError, fresh_agent).
Proof.
  apply (step_player_out_of_range frac_repr fresh_agent sample_unlisted).
  simpl. lia.
Defined.

(** X14 on the sample position, exploring without [top1]. *)
Lemma act_returns_legal_action_witness :
  ∃ a p self',
    act sample_mid "s" [4; 6; 7; 8]%Z false false (Q2Qc (1 # 10))
      (Q2Qc (1 # 2)) fresh_agent = (inr (Some a, Some p), self')
    ∧ a ∈ [4; 6; 7; 8]%Z.
Proof.
  destruct (act_returns_legal_action fresh_agent sample_mid "s" [4; 6; 7; 8]%Z
              false false (Q2Qc (1 # 10)) (Q2Qc (1 # 2)))
    as (a & p & self' & Hrun & Ha & _).
  - reflexivity.
  - discriminate.
  - exact sample_actions_nodup.
  - exact sample_actions_in_range.
  - done.
  - done.
  - exists a, p, self'. split; [exact Hrun|exact Ha].
Defined.

(** X15 on the sample position: the smallest legal action is 4. *)
Lemma act_top1_exploring_witness :
  ∃ p,
    act sample_mid "s" [4; 6; 7; 8]%Z false true (Q2Qc (1 # 10))
      (Q2Qc (1 # 2)) fresh_agent = (inr (Some 4%Z, Some p), fresh_agent).
Proof.
  destruct (act_top1_exploring frac_repr fresh_agent sample_mid "s"
              [4; 6; 7; 8]%Z (Q2Qc (1 # 10)) (Q2Qc (1 # 2)))
    as (a & p & Hrun & Ha & Hmin & _).
  - reflexivity.
  - discriminate.
  - exact sample_actions_nodup.
  - exact sample_actions_in_range.
  - done.
  - exists p. rewrite Hrun. do 3 f_equal.
    assert (H4 : (a <= 4)%Z) by (apply Hmin; left).
    repeat (apply elem_of_cons in Ha as [->|Ha]; [done || lia|]).
    inversion Ha.
Defined.

(** X19 on a list of legal actions that names the action 9 of 9. *)
Lemma epsilon_greedy_index_error_witness :
  _epsilon_greedy "s" [4; 9]%Z (Q2Qc (1 # 5)) (Q2Qc (1 # 10)) (Q2Qc (1 # 2))
    fresh_agent
  = (inl IndexError, fresh_agent).
Proof.
  apply (epsilon_greedy_index_error fresh_agent "s" [4; 9]%Z (Q2Qc (1 # 5))
           (Q2Qc (1 # 10)) (Q2Qc (1 # 2)) 9%Z).
  - simpl. lia.
  - right. left.
  - simpl. lia.
  - done.
Defined.

(** X20 on a position that offers the action -1. *)
Lemma command_line_action_minus_one_witness :
  command_line_action sample_int sample_minus_one sample_lines
  = inr ((-1)%Z, sample_lines).
Proof.
  apply (command_line_action_minus_one sample_int sample_minus_one [-1; 4]%Z).
  - reflexivity.
  - left.
Defined.

